(** * CodesMerger: a shallow embedding of the merger and its splitting writer

    The development follows the Python sources file by file:
    - [Codec]          the text codecs the program calls (str.encode, bytes.decode,
                       Path.read_text), as far as the program relies on them;
    - [PathLib]        the pathlib operations the program calls;
    - [LanguageConfig] language_config.py;
    - [Utils]          utils.py (get_file_content, get_language_by_extension,
                       matches_pattern, FileWriter);
    - [Merger]         merger.py (CodesMerger).

    Conventions.  A Python [str] holding file text is a list of code points
    ([list Z]); [bytes] is a list of integers below 256; Python integers are [Z].
    Path components, glob patterns and language names are Rocq strings, one
    character per code point below 256.  The file system is a finite map from
    paths to the bytes stored there (POSIX: text mode writes a newline as one
    byte).  Loops that the source does not bound get a fuel argument and
    report when they run out of it. *)

From Stdlib Require Import ZArith Lia Ascii String.
From stdpp Require Import base option list strings gmap pretty.

Local Open Scope Z_scope.

(* ================================================================== *)
(** * Codecs *)
(* ================================================================== *)

Module Codec.

(** Python [str]: a sequence of code points.  [bytes]: a sequence of octets. *)
Definition str := list Z.
Definition bytes := list Z.

(** A code point that [str.encode('utf-8')] accepts: a Unicode scalar value.
    On a lone surrogate (or nothing else a [str] can hold) Python raises
    UnicodeEncodeError; text that encodes is what the writer is specified on. *)
Definition is_scalar (c : Z) : bool :=
  ((0 <=? c) && (c <? 0xD800)) || ((0xE000 <=? c) && (c <=? 0x10FFFF)).

Definition encodable (s : str) : Prop := Forall (λ c, is_scalar c = true) s.

(** The UTF-8 bytes of one code point. *)
Definition utf8_encode_char (c : Z) : bytes :=
  if c <? 0x80 then [c]
  else if c <? 0x800 then [0xC0 + c / 64; 0x80 + c mod 64]
  else if c <? 0x10000 then
    [0xE0 + c / 4096; 0x80 + (c / 64) mod 64; 0x80 + c mod 64]
  else
    [0xF0 + c / 262144; 0x80 + (c / 4096) mod 64; 0x80 + (c / 64) mod 64;
     0x80 + c mod 64].

(** [s.encode('utf-8')]. *)
Definition utf8_encode (s : str) : bytes := s ≫= utf8_encode_char.

Definition is_cont (b : Z) : bool := (0x80 <=? b) && (b <? 0xC0).

(** [b.decode('utf-8')], strict: [None] stands for UnicodeDecodeError.  The
    decoder refuses a stray continuation byte, a truncated sequence, an
    overlong form, a surrogate and anything above U+10FFFF. *)
Fixpoint utf8_decode (bs : bytes) : option str :=
  match bs with
  | [] => Some []
  | b0 :: r0 =>
    if (0 <=? b0) && (b0 <? 0x80) then cons b0 <$> utf8_decode r0
    else if (0xC2 <=? b0) && (b0 <? 0xE0) then
      match r0 with
      | b1 :: r1 =>
        if is_cont b1
        then cons ((b0 - 0xC0) * 64 + (b1 - 0x80)) <$> utf8_decode r1
        else None
      | _ => None
      end
    else if (0xE0 <=? b0) && (b0 <? 0xF0) then
      match r0 with
      | b1 :: b2 :: r2 =>
        let c := (b0 - 0xE0) * 4096 + (b1 - 0x80) * 64 + (b2 - 0x80) in
        if is_cont b1 && is_cont b2 && (0x800 <=? c) && is_scalar c
        then cons c <$> utf8_decode r2
        else None
      | _ => None
      end
    else if (0xF0 <=? b0) && (b0 <? 0xF5) then
      match r0 with
      | b1 :: b2 :: b3 :: r3 =>
        let c := (b0 - 0xF0) * 262144 + (b1 - 0x80) * 4096
                 + (b2 - 0x80) * 64 + (b3 - 0x80) in
        if is_cont b1 && is_cont b2 && is_cont b3
           && (0x10000 <=? c) && (c <=? 0x10FFFF)
        then cons c <$> utf8_decode r3
        else None
      | _ => None
      end
    else None
  end.


(** [len(x)] as a Python integer. *)
Definition len {A} (l : list A) : Z := Z.of_nat (length l).

(** [s.rfind(c)] for a one-character needle: the highest index holding [c],
    or -1. *)
Fixpoint rfind_from (c : Z) (s : str) (i acc : Z) : Z :=
  match s with
  | [] => acc
  | x :: r => rfind_from c r (i + 1) (if x =? c then i else acc)
  end.
Definition rfind (s : str) (c : Z) : Z := rfind_from c s 0 (-1).

(** [s.startswith(p)]. *)
Fixpoint startswith (s p : str) {struct p} : bool :=
  match p, s with
  | [], _ => true
  | _ :: _, [] => false
  | y :: p', x :: s' => (x =? y) && startswith s' p'
  end.

Global Arguments startswith : simpl nomatch.

(** The code points of a Rocq string, one per character. *)
Definition text (s : string) : str :=
  (λ a, Z.of_N (Ascii.N_of_ascii a)) <$> String.list_ascii_of_string s.

(** ** The other codecs [get_file_content] asks for *)

(** UTF-16 code units of a byte sequence; [None] on an odd trailing byte. *)
Fixpoint utf16_units (little_endian : bool) (bs : bytes) : option (list Z) :=
  match bs with
  | [] => Some []
  | [_] => None
  | b0 :: b1 :: r =>
    cons (if little_endian then b0 + 256 * b1 else 256 * b0 + b1)
      <$> utf16_units little_endian r
  end.

(** Code units to code points: surrogates must come in pairs. *)
Fixpoint utf16_pairs (us : list Z) : option str :=
  match us with
  | [] => Some []
  | u :: r =>
    if (0xD800 <=? u) && (u <? 0xDC00) then
      match r with
      | v :: r' =>
        if (0xDC00 <=? v) && (v <? 0xE000)
        then cons (0x10000 + (u - 0xD800) * 1024 + (v - 0xDC00)) <$> utf16_pairs r'
        else None
      | [] => None
      end
    else if (0xDC00 <=? u) && (u <? 0xE000) then None
    else cons u <$> utf16_pairs r
  end.

Definition utf16_decode (little_endian : bool) (bs : bytes) : option str :=
  utf16_units little_endian bs ≫= utf16_pairs.

(** The exceptions the model tells apart.  In Python UnicodeDecodeError is a
    subclass of UnicodeError, which is a ValueError; all of them, like
    OSError, are Exceptions.  A handler for UnicodeDecodeError does not catch
    a plain UnicodeError. *)
Inductive exn := UnicodeDecodeError | UnicodeError | ValueError | OSError.

Inductive result (A : Type) :=
  | Ok (a : A)
  | Raise (e : exn).
Arguments Ok {A} a.
Arguments Raise {A} e.

Definition of_decode (o : option str) : result str :=
  match o with Some s => Ok s | None => Raise UnicodeDecodeError end.

(** Reading a whole file opened with [encoding='utf-16'] (the incremental
    decoder of encodings/utf_16.py on a little-endian machine): a byte order
    mark selects the byte order and is dropped; without one the data is
    decoded in native order and, when at least one code unit was consumed,
    the decoder raises UnicodeError (the stream does not start with BOM).
    Malformed data raises UnicodeDecodeError first. *)
Definition utf16_stream_decode (bs : bytes) : result str :=
  match bs with
  | b0 :: b1 :: r =>
    if (b0 =? 0xFF) && (b1 =? 0xFE) then of_decode (utf16_decode true r)
    else if (b0 =? 0xFE) && (b1 =? 0xFF) then of_decode (utf16_decode false r)
    else
      match utf16_decode true bs with
      | Some _ => Raise UnicodeError
      | None => Raise UnicodeDecodeError
      end
  | _ => of_decode (utf16_decode true bs)
  end.

(** Latin-1 maps every byte to the code point of the same number. *)
Definition latin1_decode (bs : bytes) : option str := Some bs.

(** Text mode with the default [newline=None]: on reading, CR LF and a lone
    CR become LF. *)
Fixpoint universal_newlines (s : str) : str :=
  match s with
  | [] => []
  | c :: r =>
    if c =? 13 then
      10 :: match r with
            | d :: r' => if d =? 10 then universal_newlines r' else universal_newlines r
            | [] => []
            end
    else c :: universal_newlines r
  end.

Inductive encoding := UTF_8 | UTF_16 | LATIN_1 | GB18030.

Section decode.
(** GB18030 is a table-driven codec; the model takes its strict decoder as
    given. *)
Context (gb18030_decode : bytes → option str).

Definition decode (enc : encoding) (bs : bytes) : result str :=
  match enc with
  | UTF_8 => of_decode (utf8_decode bs)
  | UTF_16 => utf16_stream_decode bs
  | LATIN_1 => of_decode (latin1_decode bs)
  | GB18030 => of_decode (gb18030_decode bs)
  end.
End decode.

End Codec.

Import Codec.

(* ================================================================== *)
(** * pathlib and the file system *)
(* ================================================================== *)

Module PathLib.

(** A pure POSIX path: whether it starts at the root, and its components. *)
Record Path := mkPath { is_absolute : bool; parts : list string }.

Global Instance Path_eq_dec : EqDecision Path.
Proof. solve_decision. Defined.

Global Instance Path_countable : Countable Path.
Proof.
  refine (inj_countable' (λ p, (is_absolute p, parts p))
                         (λ x, mkPath x.1 x.2) _).
  by intros [].
Defined.

(** [p.name]: the last component, empty for the root and for [Path('.')]. *)
Definition name (p : Path) : string := default "" (last (parts p)).

(** [s.rfind(c)] on a path component. *)
Fixpoint string_rfind_from (c : ascii) (s : string) (i acc : Z) : Z :=
  match s with
  | EmptyString => acc
  | String a r =>
    string_rfind_from c r (i + 1) (if bool_decide (a = c) then i else acc)
  end.
Definition string_rfind (s : string) (c : ascii) : Z :=
  string_rfind_from c s 0 (-1).

Definition string_len (s : string) : Z := Z.of_nat (String.length s).

(** [p.suffix]: from the last dot of the name on, unless that dot is the
    first or the last character. *)
Definition suffix (p : Path) : string :=
  let name := name p in
  let i := string_rfind name "."%char in
  if (0 <? i) && (i <? string_len name - 1)
  then String.substring (Z.to_nat i) (String.length name - Z.to_nat i) name
  else "".

(** [p.stem]: the name without its suffix. *)
Definition stem (p : Path) : string :=
  let name := name p in
  let i := string_rfind name "."%char in
  if (0 <? i) && (i <? string_len name - 1)
  then String.substring 0 (Z.to_nat i) name
  else name.

(** [p.with_name(n)]: the same directory, another last component.  (pathlib
    raises ValueError when [p] has an empty name; the writer is given a path
    that names a file.) *)
Definition with_name (p : Path) (n : string) : Path :=
  mkPath (is_absolute p) (removelast (parts p) ++ [n]).

(** [str(p)]. *)
Definition to_str (p : Path) : string :=
  if is_absolute p then "/" +:+ String.concat "/" (parts p)
  else match parts p with
       | [] => "."
       | _ => String.concat "/" (parts p)
       end.

(** [p.parents]: the parent, its parent, ... up to the root (or [Path('.')]). *)
Definition parents (p : Path) : list Path :=
  (λ k, mkPath (is_absolute p) (take k (parts p)))
    <$> reverse (seq 0 (length (parts p))).

(** [p.relative_to(base)]: ValueError unless [base] is an ancestor or [p]. *)
Definition relative_to (p base : Path) : result Path :=
  if bool_decide (is_absolute p = is_absolute base
                  ∧ take (length (parts base)) (parts p) = parts base)
  then Ok (mkPath false (drop (length (parts base)) (parts p)))
  else Raise ValueError.

(** The regular files and what they hold. *)
Abbreviation FS := (gmap Path bytes).

Definition exists_ (fs : FS) (p : Path) : bool := bool_decide (is_Some (fs !! p)).

(** [p.write_text(s, encoding='utf-8')]: create or truncate, then write. *)
Definition write_text (fs : FS) (p : Path) (s : str) : FS :=
  <[p := utf8_encode s]> fs.

(** [open(p, 'a', encoding='utf-8')] followed by [f.write(s)]: create if
    missing, write at the end. *)
Definition append_text (fs : FS) (p : Path) (s : str) : FS :=
  <[p := default [] (fs !! p) ++ utf8_encode s]> fs.

(** What [p] holds, nothing if it is no file. *)
Definition content (fs : FS) (p : Path) : bytes := default [] (fs !! p).

Section read.
Context (gb18030_decode : bytes → option str).

(** [p.read_text(encoding=enc)]: a path that is no file cannot be opened. *)
Definition read_text (fs : FS) (p : Path) (enc : encoding) : result str :=
  match fs !! p with
  | None => Raise OSError
  | Some bs =>
    match decode gb18030_decode enc bs with
    | Ok s => Ok (universal_newlines s)
    | Raise e => Raise e
    end
  end.
End read.

End PathLib.

Import PathLib.

(* ================================================================== *)
(** * language_config.py *)
(* ================================================================== *)

Module LanguageConfig.

Definition SUPPORTED_LANGUAGES : gmap string (gset string) :=
  list_to_map [
    ("python", list_to_set [".py"; ".pyw"; ".pyx"]);
    ("java", list_to_set [".java"]);
    ("cpp", list_to_set [".cpp"; ".cc"; ".cxx"; ".hpp"; ".hh"; ".hxx"; ".h"]);
    ("javascript", list_to_set [".js"; ".jsx"; ".ts"; ".tsx"]);
    ("go", list_to_set [".go"]);
    ("rust", list_to_set [".rs"]);
    ("c", list_to_set [".c"; ".h"]);
    ("html", list_to_set [".html"; ".htm"; ".css"]);
    ("shell", list_to_set [".sh"; ".bash"; ".zsh"]);
    ("csharp", list_to_set [".cs"]);
    ("php", list_to_set [".php"; ".phtml"; ".php3"; ".php4"; ".php5"; ".phps"])
  ].

Definition FILE_EXTENSION_LANGUAGE_MAP : gmap string string :=
  list_to_map [
    (".py", "python"); (".pyw", "python"); (".pyx", "python");
    (".java", "java");
    (".cpp", "cpp"); (".cc", "cpp"); (".cxx", "cpp"); (".hpp", "cpp");
    (".hh", "cpp"); (".hxx", "cpp"); (".h", "cpp");
    (".js", "javascript"); (".jsx", "javascript");
    (".ts", "typescript"); (".tsx", "typescript");
    (".go", "go");
    (".rs", "rust");
    (".c", "c");
    (".html", "html"); (".htm", "html"); (".css", "html");
    (".sh", "shell"); (".bash", "shell"); (".zsh", "shell");
    (".cs", "csharp");
    (".php", "php"); (".phtml", "php"); (".php3", "php"); (".php4", "php");
    (".php5", "php"); (".phps", "php")
  ].

End LanguageConfig.

Import LanguageConfig.

(* ================================================================== *)
(** * utils.py *)
(* ================================================================== *)

Module Utils.

Section helpers.
Context (gb18030_decode : bytes → option str).
Context (fnmatch : string → string → bool).

(** The fallback loop of [get_file_content]: the first encoding that reads
    the file wins; UnicodeDecodeError moves on to the next one; any other
    exception raised here is inside the handler of the outer [try], where
    no [except] clause of that [try] applies, and leaves the function. *)
Fixpoint try_encodings (fs : FS) (file_path : Path) (encodings : list encoding)
  : result str :=
  match encodings with
  | [] => Ok []
  | encoding :: rest =>
    match read_text gb18030_decode fs file_path encoding with
    | Ok s => Ok s
    | Raise UnicodeDecodeError => try_encodings fs file_path rest
    | Raise e => Raise e
    end
  end.

Definition get_file_content (fs : FS) (file_path : Path) : result str :=
  match read_text gb18030_decode fs file_path UTF_8 with
  | Ok s => Ok s
  | Raise UnicodeDecodeError =>
    try_encodings fs file_path [UTF_16; LATIN_1; GB18030]
  | Raise _ => Ok []
  end.

(** [file_path.stat().st_size], 0 when the file cannot be examined. *)
Definition calculate_file_size (fs : FS) (file_path : Path) : Z :=
  match fs !! file_path with
  | Some bs => len bs
  | None => 0
  end.

(** [str.lower] on code points below 256: A-Z and the accented capitals of
    Latin-1 (all of U+00C0..U+00DE but the multiplication sign) move up
    by 32. *)
Definition lower_char (a : ascii) : ascii :=
  let n := N_of_ascii a in
  if ((65 <=? n) && (n <=? 90) || (192 <=? n) && (n <=? 222) && negb (n =? 215))%N
  then ascii_of_N (n + 32)
  else a.

Fixpoint lower (s : string) : string :=
  match s with
  | EmptyString => EmptyString
  | String a r => String (lower_char a) (lower r)
  end.

Definition get_language_by_extension (file_path : Path) : string :=
  let extension := lower (suffix file_path) in
  default "plaintext" (FILE_EXTENSION_LANGUAGE_MAP !! extension).

(** The loop of [matches_pattern]. *)
Fixpoint any_pattern_matches (file_name file_str : string) (patterns : list string)
  : bool :=
  match patterns with
  | [] => false
  | pattern :: rest =>
    if fnmatch file_name pattern || fnmatch file_str pattern then true
    else any_pattern_matches file_name file_str rest
  end.

Definition matches_pattern (file_path : Path) (patterns : list string) : bool :=
  match patterns with
  | [] => false
  | _ => any_pattern_matches (name file_path) (to_str file_path) patterns
  end.

End helpers.

(** ** FileWriter *)

Record FileWriter := mkFileWriter {
  base_filename : Path;
  split_size : Z;              (* bytes; 0 = do not split *)
  force_overwrite : bool;
  current_file_index : Z;
  current_file : Path;
  current_size : Z;
  header : option str;
  generated_files : list Path;
}.

(** Python truthiness of [self.header]: neither [None] nor empty. *)
Definition truthy (h : option str) : bool :=
  match h with
  | Some (_ :: _) => true
  | _ => false
  end.

Definition set_header (w : FileWriter) (h : option str) : FileWriter :=
  mkFileWriter (base_filename w) (split_size w) (force_overwrite w)
    (current_file_index w) (current_file w) (current_size w) h
    (generated_files w).

Definition set_current_file_index (w : FileWriter) (i : Z) : FileWriter :=
  mkFileWriter (base_filename w) (split_size w) (force_overwrite w)
    i (current_file w) (current_size w) (header w) (generated_files w).

Definition set_current_size (w : FileWriter) (n : Z) : FileWriter :=
  mkFileWriter (base_filename w) (split_size w) (force_overwrite w)
    (current_file_index w) (current_file w) n (header w) (generated_files w).

(** The three assignments [_init_new_file] makes. *)
Definition opened (w : FileWriter) (file : Path) (size : Z) : FileWriter :=
  mkFileWriter (base_filename w) (split_size w) (force_overwrite w)
    (current_file_index w) file size (header w) (generated_files w ++ [file]).

Definition _get_filename (w : FileWriter) : Path :=
  let stem := stem (base_filename w) in
  let suffix := suffix (base_filename w) in
  if split_size w =? 0 then base_filename w
  else with_name (base_filename w)
         (stem +:+ "_" +:+ pretty (current_file_index w) +:+ suffix).

(** [_init_new_file].  The test on [exists() and not force_overwrite] only
    logs a warning and is left out: whatever the path held is replaced. *)
Definition _init_new_file (w : FileWriter) (fs : FS) : FileWriter * FS :=
  let file := _get_filename w in
  if truthy (header w) && (1 <? current_file_index w) then
    let h := default [] (header w) in
    (opened w file (len (utf8_encode h)), write_text fs file h)
  else
    (opened w file 0, write_text fs file []).

(** [FileWriter(base_filename, split_size, force_overwrite)]; [split_size] is
    in KB.  ([current_file] is None until [_init_new_file] sets it; the record
    starts with the base name there.) *)
Definition FileWriter_init (base_filename : Path) (split_size : Z)
    (force_overwrite : bool) (fs : FS) : FileWriter * FS :=
  _init_new_file
    (mkFileWriter base_filename (if 0 <? split_size then split_size * 1024 else 0)
       force_overwrite 1 base_filename 0 None [])
    fs.

Definition _write_chunk (w : FileWriter) (fs : FS) (chunk : str)
  : FileWriter * FS :=
  (set_current_size w (current_size w + len (utf8_encode chunk)),
   append_text fs (current_file w) chunk).

(** [self.current_file_index += 1; self._init_new_file()]. *)
Definition next_file (w : FileWriter) (fs : FS) : FileWriter * FS :=
  _init_new_file (set_current_file_index w (current_file_index w + 1)) fs.

(** Prefer to end the chunk after its last newline, unless that newline is
    the chunk's first character. *)
Definition cut_at_newline (chunk : str) : str :=
  let last_newline := rfind chunk 10 in
  if 0 <? last_newline then take (Z.to_nat (last_newline + 1)) chunk else chunk.

(** The inner loop [while chunk_size > 0] up to the chunk it settles on:
    the value of [chunk_size] when the loop is left, and the chunk if one
    decoded.  [fuel] bounds the number of passes; [Z.to_nat chunk_size]
    passes always suffice. *)
Fixpoint find_split (fuel : nat) (remaining_bytes : bytes) (chunk_size : Z)
  : Z * option str :=
  match fuel with
  | O => (chunk_size, None)
  | S fuel' =>
    if 0 <? chunk_size then
      match utf8_decode (take (Z.to_nat chunk_size) remaining_bytes) with
      | Some chunk => (chunk_size, Some (cut_at_newline chunk))
      | None => find_split fuel' remaining_bytes (chunk_size - 1)
      end
    else (chunk_size, None)
  end.

(** One pass of the body of [while remaining]. *)
Inductive pass :=
  | Break (w : FileWriter) (fs : FS)
  | Continue (w : FileWriter) (fs : FS) (remaining : str).

Definition write_pass (w : FileWriter) (fs : FS) (remaining : str) : pass :=
  let available_size := Z.max 0 (split_size w - current_size w) in
  let '(w, fs, available_size) :=
    if available_size =? 0 then
      let '(w, fs) := next_file w fs in
      (w, fs, split_size w - current_size w)
    else (w, fs, available_size) in
  let remaining_bytes := utf8_encode remaining in
  if len remaining_bytes <=? available_size then
    let '(w, fs) := _write_chunk w fs remaining in
    Break w fs
  else
    let '(chunk_size, found) :=
      find_split (Z.to_nat available_size) remaining_bytes available_size in
    match found with
    | Some chunk =>
      let '(w, fs) := _write_chunk w fs chunk in
      let remaining := drop (length chunk) remaining in
      let '(w, fs) := next_file w fs in
      Continue w fs remaining
    | None =>
      if chunk_size =? 0 then
        let chunk := take 100 remaining in
        let '(w, fs) := _write_chunk w fs chunk in
        let remaining := drop 100 remaining in
        let '(w, fs) := next_file w fs in
        Continue w fs remaining
      else Continue w fs remaining
    end.

(** How a call ends in the model: it returned, or the loop was still running
    when the fuel ran out. *)
Inductive outcome :=
  | Returned (w : FileWriter) (fs : FS)
  | OutOfFuel (w : FileWriter) (fs : FS) (remaining : str).

Fixpoint write_loop (fuel : nat) (w : FileWriter) (fs : FS) (remaining : str)
  : outcome :=
  match remaining with
  | [] => Returned w fs
  | _ :: _ =>
    match fuel with
    | O => OutOfFuel w fs remaining
    | S fuel' =>
      match write_pass w fs remaining with
      | Break w fs => Returned w fs
      | Continue w fs remaining => write_loop fuel' w fs remaining
      end
    end
  end.

Definition write (fuel : nat) (w : FileWriter) (fs : FS) (content : str)
  : outcome :=
  let w :=
    if negb (truthy (header w)) && startswith content (text "# ")
    then set_header w (Some content) else w in
  if split_size w =? 0 then
    let '(w, fs) := _write_chunk w fs content in
    Returned w fs
  else write_loop fuel w fs content.

(** [for content in contents: writer.write(content)]. *)
Fixpoint write_each (fuel : nat) (w : FileWriter) (fs : FS) (contents : list str)
  : outcome :=
  match contents with
  | [] => Returned w fs
  | content :: rest =>
    match write fuel w fs content with
    | Returned w fs => write_each fuel w fs rest
    | OutOfFuel w fs remaining => OutOfFuel w fs remaining
    end
  end.

(** The writer as the tests drive it: construct it, then write each text. *)
Definition session (fuel : nat) (base_filename : Path) (split_size : Z)
    (force_overwrite : bool) (fs : FS) (contents : list str) : outcome :=
  write_each fuel (FileWriter_init base_filename split_size force_overwrite fs).1
             (FileWriter_init base_filename split_size force_overwrite fs).2
             contents.

Definition close (w : FileWriter) : FileWriter := w.

Definition get_generated_files (w : FileWriter) : list Path := generated_files w.

End Utils.

Import Utils.

(* ================================================================== *)
(** * merger.py *)
(* ================================================================== *)

Module Merger.

Record CodesMerger := mkCodesMerger {
  source_dir : Path;
  output_file : Path;
  languages : list string;
  file_patterns : list string;
  split_size : Z;              (* KB, as given *)
  n_threads : Z;
  ignore_patterns : list string;
  force_overwrite : bool;
  extensions : gset string;
}.

(** The block [process_file] builds for one file. *)
Definition markdown_content (relative_path : Path) (lang_identifier : string)
    (content : str) : str :=
  text "## " ++ text (to_str relative_path) ++ [10; 10]
  ++ text "```" ++ text lang_identifier ++ [10]
  ++ content
  ++ [10] ++ text "```" ++ [10; 10].

Section merger.
(** What the program gets from its surroundings: the GB18030 decoder,
    [fnmatch.fnmatch], the directory test and the recursive listing of
    pathlib, the file test, and the clock reading of [time.strftime]. *)
Context (gb18030_decode : bytes → option str).
Context (fnmatch : string → string → bool).
Context (is_dir : Path → bool).
Context (rglob : Path → list Path).
Context (is_file : Path → bool).
Context (now : string).

(** The loop of [__init__] over the chosen languages. *)
Fixpoint collect_extensions (languages : list string) (extensions : gset string)
  : result (gset string) :=
  match languages with
  | [] => Ok extensions
  | lang :: rest =>
    match SUPPORTED_LANGUAGES !! lang with
    | None => Raise ValueError
    | Some exts => collect_extensions rest (extensions ∪ exts)
    end
  end.

(** [CodesMerger(...)]; [source_dir] is taken absolute.  [None] arguments of
    the list parameters are empty lists here. *)
Definition CodesMerger_init (source_dir output_file : Path)
    (languages file_patterns : list string) (split_size n_threads : Z)
    (ignore_patterns : list string) (force_overwrite : bool)
  : result CodesMerger :=
  if negb (is_dir source_dir) then Raise ValueError
  else
    match collect_extensions languages ∅ with
    | Raise e => Raise e
    | Ok extensions =>
      Ok (mkCodesMerger source_dir output_file languages file_patterns
            split_size (Z.max 1 (Z.min n_threads 16)) ignore_patterns
            force_overwrite extensions)
    end.

Fixpoint any_ignore_matches (path_name path_str : string) (patterns : list string)
  : bool :=
  match patterns with
  | [] => false
  | pattern :: rest =>
    if fnmatch path_name pattern || fnmatch path_str pattern then true
    else any_ignore_matches path_name path_str rest
  end.

Definition _should_ignore (m : CodesMerger) (path : Path) : bool :=
  any_ignore_matches (name path) (to_str path) (ignore_patterns m).

Definition is_empty {A} (l : list A) : bool :=
  match l with [] => true | _ => false end.

Definition _should_include (m : CodesMerger) (file_path : Path) : bool :=
  if is_empty (languages m) && is_empty (file_patterns m) then false
  else if negb (is_empty (file_patterns m))
          && matches_pattern fnmatch file_path (file_patterns m) then true
  else if negb (is_empty (languages m))
          && bool_decide (suffix file_path ∈ extensions m) then true
  else false.

(** The loop of [find_files] over the listing. *)
Fixpoint scan (m : CodesMerger) (listing : list Path) (found_files : list Path)
  : list Path :=
  match listing with
  | [] => found_files
  | file_path :: rest =>
    if negb (is_file file_path) then scan m rest found_files
    else if _should_ignore m file_path
            || existsb (_should_ignore m) (parents file_path)
    then scan m rest found_files
    else if _should_include m file_path
    then scan m rest (found_files ++ [file_path])
    else scan m rest found_files
  end.

Definition find_files (m : CodesMerger) : list Path :=
  scan m (rglob (source_dir m)) [].

















End merger.

End Merger.
(* ================================================================== *)
(** * Facts about the codecs *)
(* ================================================================== *)

(** Decides one boolean comparison of the decoder from linear facts in the
    context. *)
Ltac cmp_true := first
  [ apply Z.leb_le; lia | apply Z.ltb_lt; lia ].
Ltac cmp_false := first
  [ apply Z.leb_gt; lia | apply Z.ltb_ge; lia ].
Ltac set_cmp b v :=
  let H := fresh "Hcmp" in
  assert (H : b = v) by (first [cmp_true | cmp_false]); rewrite H; clear H.

Lemma split64 (c : Z) : 0 ≤ c → c = 64 * (c / 64) + c mod 64 ∧ 0 ≤ c mod 64 < 64 ∧ 0 ≤ c / 64.
Proof.
  intros Hc. pose proof (Z.div_mod c 64). pose proof (Z.mod_pos_bound c 64).
  pose proof (Z.div_pos c 64). lia.
Qed.

Lemma utf8_decode_ascii (c : Z) (rest : bytes) :
  0 ≤ c < 0x80 → utf8_decode (c :: rest) = cons c <$> utf8_decode rest.
Proof.
  intros Hc. simpl.
  set_cmp (0 <=? c) true. set_cmp (c <? 128) true. reflexivity.
Qed.

Lemma utf8_decode_two (c : Z) (rest : bytes) :
  0x80 ≤ c < 0x800 →
  utf8_decode (0xC0 + c / 64 :: 0x80 + c mod 64 :: rest)
  = cons c <$> utf8_decode rest.
Proof.
  intros Hc. destruct (split64 c) as (Heq & Hr & Hq); [lia|].
  revert Heq Hr Hq. generalize (c / 64) (c mod 64). intros q r Heq Hr Hq.
  cbn [utf8_decode]. unfold is_cont.
  set_cmp (0 <=? 192 + q) true. set_cmp (192 + q <? 128) false.
  set_cmp (194 <=? 192 + q) true. set_cmp (192 + q <? 224) true.
  set_cmp (128 <=? 128 + r) true. set_cmp (128 + r <? 192) true.
  cbn [andb]. replace ((192 + q - 192) * 64 + (128 + r - 128)) with c by lia.
  reflexivity.
Qed.

Lemma split4096 (c : Z) :
  0 ≤ c →
  c = 4096 * (c / 4096) + 64 * ((c / 64) mod 64) + c mod 64
  ∧ 0 ≤ c mod 64 < 64 ∧ 0 ≤ (c / 64) mod 64 < 64 ∧ 0 ≤ c / 4096.
Proof.
  intros Hc. destruct (split64 c Hc) as (H1 & H2 & H3).
  destruct (split64 (c / 64) H3) as (H4 & H5 & H6).
  replace (c / 4096) with (c / 64 / 64)
    by (rewrite Z.div_div by lia; reflexivity).
  lia.
Qed.

Lemma split262144 (c : Z) :
  0 ≤ c →
  c = 262144 * (c / 262144) + 4096 * ((c / 4096) mod 64)
      + 64 * ((c / 64) mod 64) + c mod 64
  ∧ 0 ≤ c mod 64 < 64 ∧ 0 ≤ (c / 64) mod 64 < 64
  ∧ 0 ≤ (c / 4096) mod 64 < 64 ∧ 0 ≤ c / 262144.
Proof.
  intros Hc. destruct (split4096 c Hc) as (H1 & H2 & H3 & H4).
  destruct (split64 (c / 4096) H4) as (H5 & H6 & H7).
  replace (c / 262144) with (c / 4096 / 64)
    by (rewrite Z.div_div by lia; reflexivity).
  lia.
Qed.

Lemma utf8_decode_three (c : Z) (rest : bytes) :
  0x800 ≤ c < 0x10000 → is_scalar c = true →
  utf8_decode (0xE0 + c / 4096 :: 0x80 + (c / 64) mod 64 :: 0x80 + c mod 64 :: rest)
  = cons c <$> utf8_decode rest.
Proof.
  intros Hc Hs. destruct (split4096 c) as (Heq & Hr & Hm & Hq); [lia|].
  revert Heq Hr Hm Hq.
  generalize (c / 4096) ((c / 64) mod 64) (c mod 64). intros q m r Heq Hr Hm Hq.
  cbn [utf8_decode]. unfold is_cont.
  set_cmp (0 <=? 224 + q) true. set_cmp (224 + q <? 128) false.
  set_cmp (194 <=? 224 + q) true. set_cmp (224 + q <? 224) false.
  set_cmp (224 <=? 224 + q) true. set_cmp (224 + q <? 240) true.
  set_cmp (128 <=? 128 + m) true. set_cmp (128 + m <? 192) true.
  set_cmp (128 <=? 128 + r) true. set_cmp (128 + r <? 192) true.
  cbn [andb].
  replace ((224 + q - 224) * 4096 + (128 + m - 128) * 64 + (128 + r - 128))
    with c by lia.
  cbv zeta. rewrite Hs. set_cmp (2048 <=? c) true. reflexivity.
Qed.

Lemma utf8_decode_four (c : Z) (rest : bytes) :
  0x10000 ≤ c ≤ 0x10FFFF →
  utf8_decode (0xF0 + c / 262144 :: 0x80 + (c / 4096) mod 64
               :: 0x80 + (c / 64) mod 64 :: 0x80 + c mod 64 :: rest)
  = cons c <$> utf8_decode rest.
Proof.
  intros Hc. destruct (split262144 c) as (Heq & Hr & Hm & Hn & Hq); [lia|].
  revert Heq Hr Hm Hn Hq.
  generalize (c / 262144) ((c / 4096) mod 64) ((c / 64) mod 64) (c mod 64).
  intros q n m r Heq Hr Hm Hn Hq.
  cbn [utf8_decode]. unfold is_cont.
  set_cmp (0 <=? 240 + q) true. set_cmp (240 + q <? 128) false.
  set_cmp (194 <=? 240 + q) true. set_cmp (240 + q <? 224) false.
  set_cmp (224 <=? 240 + q) true. set_cmp (240 + q <? 240) false.
  set_cmp (240 <=? 240 + q) true. set_cmp (240 + q <? 245) true.
  set_cmp (128 <=? 128 + n) true. set_cmp (128 + n <? 192) true.
  set_cmp (128 <=? 128 + m) true. set_cmp (128 + m <? 192) true.
  set_cmp (128 <=? 128 + r) true. set_cmp (128 + r <? 192) true.
  cbn [andb].
  replace ((240 + q - 240) * 262144 + (128 + n - 128) * 4096
           + (128 + m - 128) * 64 + (128 + r - 128)) with c by lia.
  cbv zeta. set_cmp (65536 <=? c) true. set_cmp (c <=? 1114111) true.
  reflexivity.
Qed.

Lemma is_scalar_range (c : Z) :
  is_scalar c = true → 0 ≤ c ≤ 0x10FFFF.
Proof. unfold is_scalar. intros H. lia. Qed.

(** Decoding undoes the encoding of one code point, whatever follows. *)
Lemma utf8_decode_encode_char_app (c : Z) (rest : bytes) :
  is_scalar c = true →
  utf8_decode (utf8_encode_char c ++ rest) = cons c <$> utf8_decode rest.
Proof.
  intros Hs. pose proof (is_scalar_range c Hs) as Hr. unfold utf8_encode_char.
  destruct (Z.ltb_spec c 0x80); [apply utf8_decode_ascii; lia|].
  destruct (Z.ltb_spec c 0x800); [apply utf8_decode_two; lia|].
  destruct (Z.ltb_spec c 0x10000); [apply utf8_decode_three; [lia|done]|].
  apply utf8_decode_four; lia.
Qed.

(** A lead byte with too few bytes after it does not decode. *)
Lemma utf8_decode_lead_alone (b : Z) : 0xC0 ≤ b → utf8_decode [b] = None.
Proof.
  intros Hb. cbn [utf8_decode].
  set_cmp (b <? 128) false. rewrite andb_false_r.
  repeat case_match; reflexivity.
Qed.

Lemma utf8_decode_lead_short2 (b b1 : Z) :
  0xE0 ≤ b → utf8_decode [b; b1] = None.
Proof.
  intros Hb. cbn [utf8_decode].
  set_cmp (b <? 128) false. set_cmp (b <? 224) false. rewrite !andb_false_r.
  repeat case_match; reflexivity.
Qed.

Lemma utf8_decode_lead_short3 (b b1 b2 : Z) :
  0xF0 ≤ b → utf8_decode [b; b1; b2] = None.
Proof.
  intros Hb. cbn [utf8_decode].
  set_cmp (b <? 128) false. set_cmp (b <? 224) false. set_cmp (b <? 240) false.
  rewrite !andb_false_r.
  repeat case_match; reflexivity.
Qed.

Lemma utf8_encode_char_length (c : Z) :
  (1 ≤ length (utf8_encode_char c) ≤ 4)%nat.
Proof. unfold utf8_encode_char. repeat case_match; simpl; lia. Qed.

(** Cutting the encoding of one code point short makes the decoder fail. *)
Lemma utf8_decode_truncated (c : Z) (k : nat) :
  is_scalar c = true →
  (0 < k < length (utf8_encode_char c))%nat →
  utf8_decode (take k (utf8_encode_char c)) = None.
Proof.
  intros Hs Hk. pose proof (is_scalar_range c Hs) as Hr.
  unfold utf8_encode_char in *.
  destruct (Z.ltb_spec c 0x80); [simpl in Hk; lia|].
  destruct (Z.ltb_spec c 0x800).
  { destruct (split64 c) as (Heq & Hm & Hq); [lia|].
    destruct k as [|[|k]]; simpl in Hk; try lia.
    apply utf8_decode_lead_alone. lia. }
  destruct (Z.ltb_spec c 0x10000).
  { destruct (split4096 c) as (Heq & Hm & Hn & Hq); [lia|].
    destruct k as [|[|[|k]]]; simpl in Hk; try lia.
    - apply utf8_decode_lead_alone. lia.
    - apply utf8_decode_lead_short2. lia. }
  destruct (split262144 c) as (Heq & Hm & Hn & Ho & Hq); [lia|].
  destruct k as [|[|[|[|k]]]]; simpl in Hk; try lia.
  - apply utf8_decode_lead_alone. lia.
  - apply utf8_decode_lead_short2. lia.
  - apply utf8_decode_lead_short3. lia.
Qed.

Lemma utf8_encode_cons (c : Z) (s : str) :
  utf8_encode (c :: s) = utf8_encode_char c ++ utf8_encode s.
Proof. reflexivity. Qed.

Lemma utf8_encode_app (s t : str) :
  utf8_encode (s ++ t) = utf8_encode s ++ utf8_encode t.
Proof. unfold utf8_encode. apply bind_app. Qed.

(** Round trip: what [encode] produces, [decode] reads back. *)
Lemma utf8_decode_encode (s : str) :
  encodable s → utf8_decode (utf8_encode s) = Some s.
Proof.
  induction 1 as [|c s Hc Hs IH]; [reflexivity|].
  rewrite utf8_encode_cons, utf8_decode_encode_char_app, IH by done.
  reflexivity.
Qed.

Lemma utf8_encode_length_ge (s : str) :
  (length s ≤ length (utf8_encode s))%nat.
Proof.
  induction s as [|c s IH]; [simpl; lia|].
  rewrite utf8_encode_cons, length_app. simpl.
  pose proof (utf8_encode_char_length c). lia.
Qed.

Lemma utf8_encode_length_le (s : str) :
  (length (utf8_encode s) ≤ 4 * length s)%nat.
Proof.
  induction s as [|c s IH]; [simpl; lia|].
  rewrite utf8_encode_cons, length_app. simpl.
  pose proof (utf8_encode_char_length c). lia.
Qed.

(** A prefix of the encoding that decodes is the encoding of a prefix of
    the text: a successful decode never ends inside a code point. *)
Lemma utf8_decode_take_encode (s : str) (k : nat) (chunk : str) :
  encodable s →
  utf8_decode (take k (utf8_encode s)) = Some chunk →
  chunk = take (length chunk) s
  ∧ take k (utf8_encode s) = utf8_encode chunk.
Proof.
  intros Hs. revert k chunk.
  induction Hs as [|c s Hc Hs IH]; intros k chunk Hdec.
  { change (utf8_encode []) with (@nil Z) in *. rewrite take_nil in Hdec.
    simpl in Hdec. simplify_eq. rewrite !take_nil. split; reflexivity. }
  destruct k as [|k'].
  { simpl in Hdec. simplify_eq. split; reflexivity. }
  rewrite utf8_encode_cons in *.
  destruct (decide (length (utf8_encode_char c) ≤ S k')%nat) as [Hge|Hlt].
  - rewrite take_app_ge in * by done.
    rewrite utf8_decode_encode_char_app in Hdec by done.
    destruct (utf8_decode (take (S k' - length (utf8_encode_char c)) (utf8_encode s)))
      as [chunk'|] eqn:Hd; simplify_eq/=.
    destruct (IH _ _ Hd) as [H1 H2]. split.
    + by rewrite <- H1.
    + rewrite H2. reflexivity.
  - rewrite take_app_le in Hdec by lia.
    rewrite utf8_decode_truncated in Hdec; [done|done|lia].
Qed.

(* ================================================================== *)
(** * The writer: names of the generated files *)
(* ================================================================== *)

(** The name the writer gives its [i]-th file. *)
Definition name_of (w : FileWriter) (i : Z) : Path :=
  _get_filename (set_current_file_index w i).

(** The state of the writer between two passes of its loop: the files
    generated so far are the files number 1 to [current_file_index], in that
    order, and the current file is the last of them. *)
Record wf (w : FileWriter) : Prop := {
  wf_index : 1 ≤ current_file_index w;
  wf_budget : 0 ≤ Utils.split_size w;
  wf_single : Utils.split_size w = 0 → current_file_index w = 1;
  wf_files : generated_files w = name_of w <$> seqZ 1 (current_file_index w);
  wf_current : current_file w = name_of w (current_file_index w);
}.

Lemma string_app_length (s t : string) :
  String.length (s +:+ t) = (String.length s + String.length t)%nat.
Proof.
  induction s as [|a s IH]; [done|].
  change (String a s +:+ t) with (String a (s +:+ t)). simpl. by rewrite IH.
Qed.

Lemma string_app_inv_tail (s1 s2 t : string) : s1 +:+ t = s2 +:+ t → s1 = s2.
Proof.
  revert s2. induction s1 as [|a s1 IH]; intros [|b s2] H.
  - done.
  - apply (f_equal String.length) in H.
    rewrite !string_app_length in H. simpl in H. lia.
  - apply (f_equal String.length) in H.
    rewrite !string_app_length in H. simpl in H. lia.
  - change (String a (s1 +:+ t) = String b (s2 +:+ t)) in H.
    injection H as -> H. f_equal. by apply IH.
Qed.

Lemma name_of_inj (w : FileWriter) (i j : Z) :
  Utils.split_size w ≠ 0 → name_of w i = name_of w j → i = j.
Proof.
  intros HB. unfold name_of, _get_filename, with_name. simpl.
  destruct (Z.eqb_spec (Utils.split_size w) 0) as [|_]; [done|].
  intros H. injection H as H. apply app_inj_tail in H as [_ H].
  apply (inj (String.app _)) in H. apply (inj (String.app _)) in H.
  apply string_app_inv_tail in H. by apply (inj pretty) in H.
Qed.

Lemma name_of_set_header w h i : name_of (set_header w h) i = name_of w i.
Proof. reflexivity. Qed.
Lemma name_of_set_size w n i : name_of (set_current_size w n) i = name_of w i.
Proof. reflexivity. Qed.
Lemma name_of_set_index w k i : name_of (set_current_file_index w k) i = name_of w i.
Proof. reflexivity. Qed.
Lemma name_of_opened w f n i : name_of (opened w f n) i = name_of w i.
Proof. reflexivity. Qed.

Lemma wf_set_header w h : wf w → wf (set_header w h).
Proof. intros [? ? ? ? ?]. by constructor. Qed.

Lemma wf_write_chunk w fs chunk : wf w → wf (_write_chunk w fs chunk).1.
Proof. intros [? ? ? ? ?]. by constructor. Qed.

Lemma init_new_file_fst w fs :
  ∃ n, (_init_new_file w fs).1 = opened w (_get_filename w) n.
Proof. unfold _init_new_file. case_match; eauto. Qed.

Lemma wf_next_file w fs :
  wf w → Utils.split_size w ≠ 0 → wf (next_file w fs).1.
Proof.
  intros [Hi HB H1 Hf Hc] HB0. unfold next_file.
  destruct (init_new_file_fst (set_current_file_index w (current_file_index w + 1)) fs)
    as [n ->].
  constructor; simpl; try done; try lia.
  rewrite Hf. rewrite (seqZ_app 1 (current_file_index w) 1) by lia.
  rewrite fmap_app. f_equal.
  rewrite seqZ_cons, seqZ_nil by lia. simpl. f_equal.
  replace (1 + current_file_index w) with (current_file_index w + 1) by lia.
  reflexivity.
Qed.

Lemma wf_init base k force fs : wf (FileWriter_init base k force fs).1.
Proof.
  unfold FileWriter_init.
  match goal with |- wf (_init_new_file ?w0 _).1 =>
    destruct (init_new_file_fst w0 fs) as [n ->] end.
  constructor; simpl; try done.
  case_match; lia.
Qed.

(* ================================================================== *)
(** * The writer: what one pass of the loop does *)
(* ================================================================== *)

(** The bytes of the generated files, in creation order. *)
Definition files_content (w : FileWriter) (fs : FS) : list bytes :=
  content fs <$> generated_files w.

(** The files before the current one. *)
Definition earlier (w : FileWriter) : list Path :=
  name_of w <$> seqZ 1 (current_file_index w - 1).

Lemma generated_split (w : FileWriter) :
  wf w → generated_files w = earlier w ++ [current_file w].
Proof.
  intros [Hi HB H1 Hf Hc]. rewrite Hf, Hc. unfold earlier.
  replace (current_file_index w) with ((current_file_index w - 1) + 1) at 1 by lia.
  rewrite seqZ_app, fmap_app by lia. f_equal.
  rewrite seqZ_cons, seqZ_nil by lia. simpl. do 2 f_equal. lia.
Qed.

Lemma current_not_earlier (w : FileWriter) :
  wf w → current_file w ∉ earlier w.
Proof.
  intros [Hi HB H1 Hf Hc]. unfold earlier. rewrite Hc.
  destruct (decide (Utils.split_size w = 0)) as [H0|H0].
  - rewrite (H1 H0). rewrite seqZ_nil by lia. simpl. apply not_elem_of_nil.
  - intros (j & Hj & Hin)%list_elem_of_fmap. apply elem_of_seqZ in Hin.
    apply name_of_inj in Hj; [lia|done].
Qed.

Lemma next_name_fresh (w : FileWriter) :
  wf w → Utils.split_size w ≠ 0 →
  name_of w (current_file_index w + 1) ∉ generated_files w.
Proof.
  intros [Hi HB H1 Hf Hc] H0. rewrite Hf.
  intros (j & Hj & Hin)%list_elem_of_fmap. apply elem_of_seqZ in Hin.
  apply name_of_inj in Hj; [lia|done].
Qed.

Lemma content_insert_ne (fs : FS) (p q : Path) (bs : bytes) :
  p ≠ q → content (<[p := bs]> fs) q = content fs q.
Proof. intros H. unfold content. by rewrite lookup_insert_ne. Qed.

Lemma content_insert_eq (fs : FS) (p : Path) (bs : bytes) :
  content (<[p := bs]> fs) p = bs.
Proof. unfold content. by rewrite lookup_insert_eq. Qed.

Lemma content_insert_notin (fs : FS) (p : Path) (bs : bytes) (l : list Path) :
  p ∉ l → content (<[p := bs]> fs) <$> l = content fs <$> l.
Proof.
  intros H. apply list_fmap_ext. intros i q Hq.
  apply content_insert_ne. intros ->. apply H. by eapply list_elem_of_lookup_2.
Qed.

(** [_write_chunk] appends to the last file and to nothing else. *)
Lemma files_content_write_chunk (w : FileWriter) (fs : FS) (chunk : str) :
  wf w →
  files_content (_write_chunk w fs chunk).1 (_write_chunk w fs chunk).2
  = (content fs <$> earlier w)
    ++ [content fs (current_file w) ++ utf8_encode chunk].
Proof.
  intros Hw. unfold files_content, _write_chunk, append_text. simpl.
  rewrite (generated_split w Hw), fmap_app. simpl.
  rewrite content_insert_notin by by apply current_not_earlier.
  rewrite content_insert_eq. reflexivity.
Qed.

Lemma files_content_split (w : FileWriter) (fs : FS) :
  wf w →
  files_content w fs = (content fs <$> earlier w) ++ [content fs (current_file w)].
Proof. intros Hw. unfold files_content. by rewrite (generated_split w Hw), fmap_app. Qed.

(** What a new file starts with: the header, once there is one. *)
Definition seed (w : FileWriter) : str := default [] (header w).

Lemma next_file_unfold (w : FileWriter) (fs : FS) :
  wf w →
  next_file w fs
  = (opened (set_current_file_index w (current_file_index w + 1))
       (name_of w (current_file_index w + 1)) (len (utf8_encode (seed w))),
     write_text fs (name_of w (current_file_index w + 1)) (seed w)).
Proof.
  intros [Hi _ _ _ _]. unfold next_file, _init_new_file, seed. simpl.
  destruct (header w) as [[|c h]|]; simpl; try reflexivity.
  set_cmp (1 <? current_file_index w + 1) true. reflexivity.
Qed.

(** [next_file] adds one file, seeded, and leaves the others alone. *)
Lemma files_content_next_file (w : FileWriter) (fs : FS) :
  wf w → Utils.split_size w ≠ 0 →
  files_content (next_file w fs).1 (next_file w fs).2
  = files_content w fs ++ [utf8_encode (seed w)].
Proof.
  intros Hw H0. rewrite next_file_unfold by done.
  unfold files_content, write_text. simpl. rewrite fmap_app. simpl.
  rewrite content_insert_notin by by apply next_name_fresh.
  by rewrite content_insert_eq.
Qed.

Lemma next_file_current (w : FileWriter) (fs : FS) :
  wf w →
  content (next_file w fs).2 (current_file (next_file w fs).1)
  = utf8_encode (seed w).
Proof.
  intros Hw. rewrite next_file_unfold by done. simpl. apply content_insert_eq.
Qed.

(** ** The inner loop *)

Lemma find_split_spec (fuel : nat) (rb : bytes) (a : Z) :
  (Z.to_nat a ≤ fuel)%nat →
  match find_split fuel rb a with
  | (c, Some ch) =>
    ∃ chunk, 0 < c ≤ a ∧ utf8_decode (take (Z.to_nat c) rb) = Some chunk
             ∧ ch = cut_at_newline chunk
  | (c, None) => c = Z.min a 0
  end.
Proof.
  revert a. induction fuel as [|fuel IH]; intros a Ha; simpl.
  { lia. }
  destruct (Z.ltb_spec 0 a) as [Hpos|Hneg]; [|lia].
  destruct (utf8_decode (take (Z.to_nat a) rb)) as [chunk|] eqn:Hd.
  - exists chunk. split; [lia|done].
  - specialize (IH (a - 1)). destruct (find_split fuel rb (a - 1)) as [c [ch|]].
    + destruct IH as (chunk & ? & ? & ?); [lia|]. exists chunk. split; [lia|done].
    + lia.
Qed.

Lemma cut_at_newline_take (chunk : str) :
  ∃ m, (1 ≤ m)%nat ∧ cut_at_newline chunk = take m chunk.
Proof.
  unfold cut_at_newline. destruct (Z.ltb_spec 0 (rfind chunk 10)).
  - exists (Z.to_nat (rfind chunk 10 + 1)). split; [lia|done].
  - exists (S (length chunk)). split; [lia|]. by rewrite take_ge by lia.
Qed.

Lemma encodable_take (n : nat) (s : str) : encodable s → encodable (take n s).
Proof. apply Forall_take. Qed.

Lemma encodable_drop (n : nat) (s : str) : encodable s → encodable (drop n s).
Proof. apply Forall_drop. Qed.

Lemma encodable_app (s t : str) : encodable s → encodable t → encodable (s ++ t).
Proof. apply Forall_app_2. Qed.

Lemma utf8_encode_take_le (n : nat) (s : str) :
  len (utf8_encode (take n s)) ≤ len (utf8_encode s).
Proof.
  rewrite <- (take_drop n s) at 2. rewrite utf8_encode_app.
  unfold len. rewrite length_app. lia.
Qed.

(** The chunk the inner loop settles on is a non-empty prefix of the text
    that fits what is available. *)
Lemma find_split_chunk (remaining : str) (a : Z) (c : Z) (ch : str) :
  encodable remaining →
  a < len (utf8_encode remaining) →
  find_split (Z.to_nat a) (utf8_encode remaining) a = (c, Some ch) →
  ∃ n, (1 ≤ n ≤ length remaining)%nat ∧ ch = take n remaining
       ∧ len (utf8_encode ch) ≤ a ∧ 0 < a.
Proof.
  intros Henc Hlong Hfind.
  pose proof (find_split_spec (Z.to_nat a) (utf8_encode remaining) a) as Hs.
  rewrite Hfind in Hs. destruct Hs as (chunk & Hc & Hdec & ->); [lia|].
  destruct (utf8_decode_take_encode _ _ _ Henc Hdec) as [Hpre Hbytes].
  assert (Hlen : length (utf8_encode chunk) = Z.to_nat c).
  { rewrite <- Hbytes, length_take. unfold len in Hlong. lia. }
  assert (Hne : (1 ≤ length chunk)%nat).
  { destruct chunk; simpl in *; [lia|lia]. }
  assert (Hle : (length chunk ≤ length remaining)%nat).
  { rewrite Hpre, length_take. lia. }
  destruct (cut_at_newline_take chunk) as (m & Hm & ->).
  exists (m `min` length chunk)%nat. split; [lia|]. split.
  - rewrite Hpre at 1. by rewrite take_take.
  - split; [|lia]. pose proof (utf8_encode_take_le m chunk). unfold len in *. lia.
Qed.

(** ** One pass *)

Ltac split_let :=
  match goal with
  | |- context [let '(_, _) := ?p in _] => destruct p
  end; reflexivity.

Definition Break' (st : FileWriter * FS) : pass := Break st.1 st.2.
Definition Continue' (st : FileWriter * FS) (remaining : str) : pass :=
  Continue st.1 st.2 remaining.

(** The state after the roll-over test at the top of the loop body. *)
Definition rolled (w : FileWriter) (fs : FS) : FileWriter * FS :=
  if Z.max 0 (Utils.split_size w - current_size w) =? 0
  then next_file w fs else (w, fs).

Definition available (st : FileWriter * FS) : Z :=
  Utils.split_size st.1 - current_size st.1.

Definition put (st : FileWriter * FS) (chunk : str) : FileWriter * FS :=
  _write_chunk st.1 st.2 chunk.

Definition roll (st : FileWriter * FS) : FileWriter * FS :=
  next_file st.1 st.2.

(** How a pass ends. *)
Inductive pass_kind (w : FileWriter) (fs : FS) (remaining : str) : pass → Prop :=
  | pass_fits :
      len (utf8_encode remaining) ≤ available (rolled w fs) →
      pass_kind w fs remaining (Break' (put (rolled w fs) remaining))
  | pass_split (n : nat) :
      available (rolled w fs) < len (utf8_encode remaining) →
      (1 ≤ n ≤ length remaining)%nat →
      0 < available (rolled w fs) →
      len (utf8_encode (take n remaining)) ≤ available (rolled w fs) →
      pass_kind w fs remaining
        (Continue' (roll (put (rolled w fs) (take n remaining))) (drop n remaining))
  | pass_forced :
      available (rolled w fs) < len (utf8_encode remaining) →
      0 ≤ available (rolled w fs) →
      pass_kind w fs remaining
        (Continue' (roll (put (rolled w fs) (take 100 remaining))) (drop 100 remaining))
  | pass_stuck :
      available (rolled w fs) < 0 →
      pass_kind w fs remaining (Continue' (rolled w fs) remaining).

Lemma available_rolled_pos (w : FileWriter) (fs : FS) :
  Z.max 0 (Utils.split_size w - current_size w) ≠ 0 →
  rolled w fs = (w, fs) ∧ 0 < available (w, fs).
Proof.
  intros H. unfold rolled, available.
  destruct (Z.eqb_spec (Z.max 0 (Utils.split_size w - current_size w)) 0); [done|].
  simpl. split; [done|lia].
Qed.

Lemma write_pass_kind (w : FileWriter) (fs : FS) (remaining : str) :
  encodable remaining →
  pass_kind w fs remaining (write_pass w fs remaining).
Proof.
  intros Henc.
  assert (Hshape : ∃ st a, rolled w fs = st ∧ available st = a ∧
    write_pass w fs remaining =
      if len (utf8_encode remaining) <=? a
      then Break' (put st remaining)
      else
        match find_split (Z.to_nat a) (utf8_encode remaining) a with
        | (_, Some chunk) =>
          Continue' (roll (put st chunk)) (drop (length chunk) remaining)
        | (c, None) =>
          if c =? 0
          then Continue' (roll (put st (take 100 remaining))) (drop 100 remaining)
          else Continue' st remaining
        end).
  { unfold write_pass, rolled, available, Break', Continue', put, roll.
    destruct (Z.eqb_spec (Z.max 0 (Utils.split_size w - current_size w)) 0) as [Hz|Hz].
    - destruct (next_file w fs) as [w1 fs1] eqn:Hn. simpl.
      exists (w1, fs1), (Utils.split_size w1 - current_size w1).
      split; [done|]. split; [done|]. simpl.
      destruct (len (utf8_encode remaining) <=? Utils.split_size w1 - current_size w1);
        [reflexivity|].
      destruct (find_split _ _ _) as [c [chunk|]].
      + unfold _write_chunk. simpl. split_let.
      + destruct (c =? 0); [|reflexivity].
        unfold _write_chunk. simpl. split_let.
    - simpl. exists (w, fs), (Utils.split_size w - current_size w).
      split; [done|]. split; [done|]. simpl.
      replace (Z.max 0 (Utils.split_size w - current_size w))
        with (Utils.split_size w - current_size w) by lia.
      destruct (len (utf8_encode remaining) <=? Utils.split_size w - current_size w);
        [reflexivity|].
      destruct (find_split _ _ _) as [c [chunk|]].
      + unfold _write_chunk. simpl. split_let.
      + destruct (c =? 0); [|reflexivity].
        unfold _write_chunk. simpl. split_let. }
  destruct Hshape as (st & a & Hst & Ha & ->). subst st a.
  destruct (Z.leb_spec (len (utf8_encode remaining)) (available (rolled w fs)))
    as [Hfit|Hlong].
  { by apply pass_fits. }
  destruct (find_split _ _ _) as [c [chunk|]] eqn:Hfind.
  - destruct (find_split_chunk _ _ _ _ Henc Hlong Hfind) as (n & Hn & -> & Hsz & Hpos).
    rewrite length_take. replace (n `min` length remaining)%nat with n by lia.
    by apply (pass_split _ _ _ n).
  - pose proof (find_split_spec (Z.to_nat (available (rolled w fs)))
                  (utf8_encode remaining) (available (rolled w fs))) as Hs.
    rewrite Hfind in Hs. specialize (Hs ltac:(lia)).
    destruct (Z.eqb_spec c 0).
    + apply pass_forced; [done|lia].
    + apply pass_stuck. lia.
Qed.

(* ================================================================== *)
(** * The writer seen through its files *)
(* ================================================================== *)

(** What the claims about the writer speak of: the bytes of the generated
    files in creation order, the size the writer believes the current file
    has, the header and the budget. *)
Record view := mkView {
  v_files : list bytes;
  v_size : Z;
  v_header : option str;
  v_budget : Z;
}.

Definition view_of (st : FileWriter * FS) : view :=
  mkView (files_content st.1 st.2) (current_size st.1) (header st.1)
         (Utils.split_size st.1).

(** Append to the last file of a list. *)
Fixpoint app_last (l : list bytes) (x : bytes) : list bytes :=
  match l with
  | [] => [x]
  | [c] => [c ++ x]
  | c :: l' => c :: app_last l' x
  end.

Definition v_put (chunk : str) (v : view) : view :=
  mkView (app_last (v_files v) (utf8_encode chunk))
         (v_size v + len (utf8_encode chunk)) (v_header v) (v_budget v).

Definition v_seed (v : view) : str := default [] (v_header v).

Definition v_roll (v : view) : view :=
  mkView (v_files v ++ [utf8_encode (v_seed v)]) (len (utf8_encode (v_seed v)))
         (v_header v) (v_budget v).

Definition v_available (v : view) : Z := v_budget v - v_size v.

Definition v_rolled (v : view) : view :=
  if Z.max 0 (v_available v) =? 0 then v_roll v else v.

Lemma app_last_snoc (l : list bytes) (c x : bytes) :
  app_last (l ++ [c]) x = l ++ [c ++ x].
Proof.
  induction l as [|d l IH]; [done|]. simpl. rewrite IH.
  destruct l; reflexivity.
Qed.

Lemma view_put (st : FileWriter * FS) (chunk : str) :
  wf st.1 → view_of (put st chunk) = v_put chunk (view_of st).
Proof.
  destruct st as [w fs]. simpl. intros Hw. unfold view_of, put, v_put. simpl.
  f_equal. rewrite (files_content_split w fs Hw), app_last_snoc.
  apply (files_content_write_chunk w fs chunk Hw).
Qed.

Lemma view_roll (st : FileWriter * FS) :
  wf st.1 → Utils.split_size st.1 ≠ 0 → view_of (roll st) = v_roll (view_of st).
Proof.
  destruct st as [w fs]. simpl. intros Hw H0. unfold view_of, roll, v_roll. simpl.
  rewrite files_content_next_file by done.
  rewrite next_file_unfold by done. reflexivity.
Qed.

Lemma wf_put (st : FileWriter * FS) (chunk : str) : wf st.1 → wf (put st chunk).1.
Proof. apply wf_write_chunk. Qed.

Lemma wf_roll (st : FileWriter * FS) :
  wf st.1 → Utils.split_size st.1 ≠ 0 → wf (roll st).1.
Proof. apply wf_next_file. Qed.

Lemma budget_put (st : FileWriter * FS) (chunk : str) :
  Utils.split_size (put st chunk).1 = Utils.split_size st.1.
Proof. reflexivity. Qed.

Lemma budget_roll (st : FileWriter * FS) :
  Utils.split_size (roll st).1 = Utils.split_size st.1.
Proof.
  unfold roll, next_file.
  destruct (init_new_file_fst
              (set_current_file_index st.1 (current_file_index st.1 + 1)) st.2)
    as [n ->].
  reflexivity.
Qed.

Lemma wf_rolled (w : FileWriter) (fs : FS) :
  wf w → Utils.split_size w ≠ 0 → wf (rolled w fs).1.
Proof.
  intros Hw H0. unfold rolled. case_match; [|done]. by apply wf_next_file.
Qed.

Lemma budget_rolled (w : FileWriter) (fs : FS) :
  Utils.split_size (rolled w fs).1 = Utils.split_size w.
Proof. unfold rolled. case_match; [|done]. apply (budget_roll (w, fs)). Qed.

Lemma view_rolled (w : FileWriter) (fs : FS) :
  wf w → Utils.split_size w ≠ 0 →
  view_of (rolled w fs) = v_rolled (view_of (w, fs)).
Proof.
  intros Hw H0. unfold rolled, v_rolled, v_available. simpl.
  case_match; [|done]. by apply (view_roll (w, fs)).
Qed.

Lemma available_view (st : FileWriter * FS) :
  available st = v_available (view_of st).
Proof. reflexivity. Qed.

(** One pass of the loop, on views.  The flag says whether the loop goes on. *)
Inductive view_pass (v : view) (r : str) : view → str → bool → Prop :=
  | vp_fits :
      len (utf8_encode r) ≤ v_available (v_rolled v) →
      view_pass v r (v_put r (v_rolled v)) [] false
  | vp_split (n : nat) :
      v_available (v_rolled v) < len (utf8_encode r) →
      (1 ≤ n ≤ length r)%nat →
      0 < v_available (v_rolled v) →
      len (utf8_encode (take n r)) ≤ v_available (v_rolled v) →
      view_pass v r (v_roll (v_put (take n r) (v_rolled v))) (drop n r) true
  | vp_forced :
      v_available (v_rolled v) < len (utf8_encode r) →
      0 ≤ v_available (v_rolled v) →
      view_pass v r (v_roll (v_put (take 100 r) (v_rolled v))) (drop 100 r) true
  | vp_stuck :
      v_available (v_rolled v) < 0 →
      view_pass v r (v_rolled v) r true.

Definition pass_state (p : pass) : FileWriter * FS :=
  match p with
  | Break w fs => (w, fs)
  | Continue w fs _ => (w, fs)
  end.

Definition pass_remaining (p : pass) : str :=
  match p with
  | Break _ _ => []
  | Continue _ _ r => r
  end.

Definition pass_continues (p : pass) : bool :=
  match p with
  | Break _ _ => false
  | Continue _ _ _ => true
  end.

Lemma pass_state_Break' st : pass_state (Break' st) = st.
Proof. by destruct st. Qed.
Lemma pass_state_Continue' st r : pass_state (Continue' st r) = st.
Proof. by destruct st. Qed.

Lemma write_pass_view (w : FileWriter) (fs : FS) (r : str) :
  wf w → Utils.split_size w ≠ 0 → encodable r →
  let p := write_pass w fs r in
  wf (pass_state p).1
  ∧ Utils.split_size (pass_state p).1 = Utils.split_size w
  ∧ view_pass (view_of (w, fs)) r (view_of (pass_state p)) (pass_remaining p)
      (pass_continues p).
Proof.
  intros Hw H0 Henc. cbv zeta.
  pose proof (wf_rolled w fs Hw H0) as Hw1.
  pose proof (budget_rolled w fs) as HB1.
  pose proof (view_rolled w fs Hw H0) as Hv1.
  assert (H01 : Utils.split_size (rolled w fs).1 ≠ 0) by congruence.
  destruct (write_pass_kind w fs r Henc) as [Hfit|n Hlong Hn Hpos Hsz|Hlong Hpos|Hneg];
    rewrite ?pass_state_Break', ?pass_state_Continue'.
  - split; [by apply wf_put|]. split; [by rewrite budget_put|].
    rewrite view_put, Hv1 by done.
    apply vp_fits. by rewrite <- Hv1, <- available_view.
  - split; [apply wf_roll; [by apply wf_put|by rewrite budget_put]|].
    split; [by rewrite budget_roll, budget_put|].
    rewrite view_roll, view_put, Hv1;
      [|done|by apply wf_put|by rewrite budget_put].
    apply vp_split; rewrite <- ?Hv1, <- ?available_view; done.
  - split; [apply wf_roll; [by apply wf_put|by rewrite budget_put]|].
    split; [by rewrite budget_roll, budget_put|].
    rewrite view_roll, view_put, Hv1;
      [|done|by apply wf_put|by rewrite budget_put].
    apply vp_forced; rewrite <- ?Hv1, <- ?available_view; done.
  - split; [done|]. split; [done|].
    rewrite Hv1. apply vp_stuck.
    by rewrite <- Hv1, <- available_view.
Qed.

(* ================================================================== *)
(** * The writer: invariants of the loop and of a sequence of writes *)
(* ================================================================== *)

Definition outcome_state (o : outcome) : FileWriter * FS :=
  match o with
  | Returned w fs => (w, fs)
  | OutOfFuel w fs _ => (w, fs)
  end.

Definition outcome_remaining (o : outcome) : str :=
  match o with
  | Returned _ _ => []
  | OutOfFuel _ _ r => r
  end.

Definition returned (o : outcome) : Prop :=
  match o with
  | Returned _ _ => True
  | OutOfFuel _ _ _ => False
  end.

(** The header assignment at the top of [write]. *)
Definition capture (w : FileWriter) (content : str) : FileWriter :=
  if negb (truthy (header w)) && startswith content (text "# ")
  then set_header w (Some content) else w.

Definition v_capture (content : str) (v : view) : view :=
  if negb (truthy (v_header v)) && startswith content (text "# ")
  then mkView (v_files v) (v_size v) (Some content) (v_budget v) else v.

Lemma write_unfold (fuel : nat) (w : FileWriter) (fs : FS) (content : str) :
  write fuel w fs content
  = if Utils.split_size w =? 0
    then Returned (put (capture w content, fs) content).1
                  (put (capture w content, fs) content).2
    else write_loop fuel (capture w content) fs content.
Proof.
  unfold write, capture.
  destruct (negb (truthy (header w)) && startswith content (text "# ")); reflexivity.
Qed.

Lemma wf_capture (w : FileWriter) (content : str) : wf w → wf (capture w content).
Proof. unfold capture. case_match; [apply wf_set_header|done]. Qed.

Lemma budget_capture (w : FileWriter) (content : str) :
  Utils.split_size (capture w content) = Utils.split_size w.
Proof. unfold capture. by case_match. Qed.

Lemma view_capture (w : FileWriter) (fs : FS) (content : str) :
  view_of (capture w content, fs) = v_capture content (view_of (w, fs)).
Proof. unfold capture, v_capture, view_of. simpl. by case_match. Qed.

(** ** Well-formedness needs nothing of the text *)

Lemma write_pass_shape (w : FileWriter) (fs : FS) (remaining : str) :
  write_pass w fs remaining =
    if len (utf8_encode remaining) <=? available (rolled w fs)
    then Break' (put (rolled w fs) remaining)
    else
      match find_split (Z.to_nat (available (rolled w fs)))
              (utf8_encode remaining) (available (rolled w fs)) with
      | (_, Some chunk) =>
        Continue' (roll (put (rolled w fs) chunk)) (drop (length chunk) remaining)
      | (c, None) =>
        if c =? 0
        then Continue' (roll (put (rolled w fs) (take 100 remaining)))
                       (drop 100 remaining)
        else Continue' (rolled w fs) remaining
      end.
Proof.
  unfold write_pass, rolled, available, Break', Continue', put, roll.
  destruct (Z.eqb_spec (Z.max 0 (Utils.split_size w - current_size w)) 0) as [Hz|Hz].
  - destruct (next_file w fs) as [w1 fs1] eqn:Hn. simpl.
    destruct (len (utf8_encode remaining) <=? Utils.split_size w1 - current_size w1);
      [reflexivity|].
    destruct (find_split _ _ _) as [c [chunk|]].
    + unfold _write_chunk. simpl. split_let.
    + destruct (c =? 0); [|reflexivity].
      unfold _write_chunk. simpl. split_let.
  - simpl.
    replace (Z.max 0 (Utils.split_size w - current_size w))
      with (Utils.split_size w - current_size w) by lia.
    destruct (len (utf8_encode remaining) <=? Utils.split_size w - current_size w);
      [reflexivity|].
    destruct (find_split _ _ _) as [c [chunk|]].
    + unfold _write_chunk. simpl. split_let.
    + destruct (c =? 0); [|reflexivity].
      unfold _write_chunk. simpl. split_let.
Qed.

Lemma write_pass_wf (w : FileWriter) (fs : FS) (r : str) :
  wf w → Utils.split_size w ≠ 0 →
  wf (pass_state (write_pass w fs r)).1
  ∧ Utils.split_size (pass_state (write_pass w fs r)).1 = Utils.split_size w.
Proof.
  intros Hw H0. rewrite write_pass_shape.
  pose proof (wf_rolled w fs Hw H0) as Hw1.
  pose proof (budget_rolled w fs) as HB1.
  assert (H01 : Utils.split_size (rolled w fs).1 ≠ 0) by congruence.
  assert (Hrp : ∀ chunk,
    wf (roll (put (rolled w fs) chunk)).1
    ∧ Utils.split_size (roll (put (rolled w fs) chunk)).1 = Utils.split_size w).
  { intros chunk. split.
    - apply wf_roll; [by apply wf_put|by rewrite budget_put].
    - by rewrite budget_roll, budget_put. }
  repeat case_match; rewrite ?pass_state_Break', ?pass_state_Continue'; auto.
  split; [by apply wf_put|by rewrite budget_put].
Qed.

Lemma write_loop_wf (fuel : nat) (w : FileWriter) (fs : FS) (r : str) :
  wf w → Utils.split_size w ≠ 0 →
  wf (outcome_state (write_loop fuel w fs r)).1
  ∧ Utils.split_size (outcome_state (write_loop fuel w fs r)).1 = Utils.split_size w.
Proof.
  revert w fs r. induction fuel as [|fuel IH]; intros w fs r Hw H0.
  { destruct r; simpl; auto. }
  destruct r as [|c r]; [simpl; auto|]. cbn [write_loop].
  destruct (write_pass_wf w fs (c :: r) Hw H0) as [Hw' HB'].
  destruct (write_pass w fs (c :: r)) as [w' fs'|w' fs' r']; simpl in *; [auto|].
  destruct (IH w' fs' r' Hw') as [? ?]; [congruence|]. split; [done|congruence].
Qed.

Lemma write_wf (fuel : nat) (w : FileWriter) (fs : FS) (content : str) :
  wf w →
  wf (outcome_state (write fuel w fs content)).1
  ∧ Utils.split_size (outcome_state (write fuel w fs content)).1 = Utils.split_size w.
Proof.
  intros Hw. rewrite write_unfold.
  destruct (Z.eqb_spec (Utils.split_size w) 0) as [H0|H0].
  - simpl. split; [|apply budget_capture].
    apply (wf_put (capture w content, fs)). by apply wf_capture.
  - rewrite <- (budget_capture w content) in H0 |- *.
    apply write_loop_wf; [by apply wf_capture|done].
Qed.

Lemma write_each_wf (fuel : nat) (w : FileWriter) (fs : FS) (contents : list str) :
  wf w →
  wf (outcome_state (write_each fuel w fs contents)).1
  ∧ Utils.split_size (outcome_state (write_each fuel w fs contents)).1
    = Utils.split_size w.
Proof.
  revert w fs. induction contents as [|c cs IH]; intros w fs Hw; [simpl; auto|].
  cbn [write_each]. destruct (write_wf fuel w fs c Hw) as [Hw' HB'].
  destruct (write fuel w fs c) as [w' fs'|w' fs' r']; simpl in *; [|auto].
  destruct (IH w' fs' Hw') as [? ?]. split; [done|congruence].
Qed.

Lemma view_pass_encodable (v : view) (r : str) (v' : view) (r' : str) (b : bool) :
  view_pass v r v' r' b → encodable r → encodable r'.
Proof.
  intros [Hfit|n Hlong Hn Hpos Hsz|Hlong Hpos|Hneg] H;
    try done; try (by apply encodable_drop). constructor.
Qed.

(** ** Invariants kept by every chunk written and every file opened *)

Section view_invariant.
Context (P : view → str → Prop).
Hypothesis P_roll : ∀ v r, P v r → P (v_roll v) r.
Hypothesis P_put : ∀ v r n, P v r → P (v_put (take n r) v) (drop n r).

Lemma P_rolled (v : view) (r : str) : P v r → P (v_rolled v) r.
Proof. intros H. unfold v_rolled. case_match; auto. Qed.

Lemma P_put_all (v : view) (r : str) : P v r → P (v_put r v) [].
Proof.
  intros H. pose proof (P_put v r (length r) H) as H'.
  by rewrite take_ge, drop_ge in H' by lia.
Qed.

Lemma view_pass_invariant (v : view) (r : str) (v' : view) (r' : str) (b : bool) :
  view_pass v r v' r' b → P v r → P v' r'.
Proof.
  intros [Hfit|n Hlong Hn Hpos Hsz|Hlong Hpos|Hneg] H.
  - by apply P_put_all, P_rolled.
  - by apply P_roll, P_put, P_rolled.
  - by apply P_roll, P_put, P_rolled.
  - by apply P_rolled.
Qed.

Lemma write_loop_invariant (fuel : nat) (w : FileWriter) (fs : FS) (r : str) :
  wf w → Utils.split_size w ≠ 0 → encodable r →
  P (view_of (w, fs)) r →
  P (view_of (outcome_state (write_loop fuel w fs r)))
    (outcome_remaining (write_loop fuel w fs r)).
Proof.
  revert w fs r. induction fuel as [|fuel IH]; intros w fs r Hw H0 Henc HP.
  { by destruct r. }
  destruct r as [|c r]; [done|]. cbn [write_loop].
  destruct (write_pass_view w fs (c :: r) Hw H0 Henc) as (Hw' & HB' & Hvp).
  pose proof (view_pass_invariant _ _ _ _ _ Hvp HP) as HP'.
  pose proof (view_pass_encodable _ _ _ _ _ Hvp Henc) as Henc'.
  destruct (write_pass w fs (c :: r)) as [w' fs'|w' fs' r']; simpl in *; [done|].
  apply IH; try done. congruence.
Qed.

Lemma write_invariant (fuel : nat) (w : FileWriter) (fs : FS) (content : str) :
  wf w → encodable content →
  P (v_capture content (view_of (w, fs))) content →
  P (view_of (outcome_state (write fuel w fs content)))
    (outcome_remaining (write fuel w fs content)).
Proof.
  intros Hw Henc HP. rewrite write_unfold. rewrite <- view_capture in HP.
  pose proof (wf_capture w content Hw) as Hw'.
  destruct (Z.eqb_spec (Utils.split_size w) 0) as [H0|H0].
  - cbn [outcome_state outcome_remaining]. rewrite <- surjective_pairing.
    rewrite view_put by done. by apply P_put_all.
  - apply write_loop_invariant; try done. by rewrite budget_capture.
Qed.

End view_invariant.

(** ** What no chunk and no new file changes *)

Definition frame (w : FileWriter) : Path * Z * bool * option str :=
  (base_filename w, Utils.split_size w, Utils.force_overwrite w, header w).

Lemma frame_put (st : FileWriter * FS) (chunk : str) :
  frame (put st chunk).1 = frame st.1.
Proof. reflexivity. Qed.

Lemma frame_roll (st : FileWriter * FS) : frame (roll st).1 = frame st.1.
Proof.
  unfold roll, next_file.
  destruct (init_new_file_fst
              (set_current_file_index st.1 (current_file_index st.1 + 1)) st.2)
    as [n ->].
  reflexivity.
Qed.

Lemma frame_rolled (w : FileWriter) (fs : FS) : frame (rolled w fs).1 = frame w.
Proof. unfold rolled. case_match; [|done]. apply (frame_roll (w, fs)). Qed.

Lemma write_pass_frame (w : FileWriter) (fs : FS) (r : str) :
  frame (pass_state (write_pass w fs r)).1 = frame w.
Proof.
  rewrite write_pass_shape.
  repeat case_match; rewrite ?pass_state_Break', ?pass_state_Continue';
    rewrite ?frame_roll, ?frame_put; apply frame_rolled.
Qed.

Lemma write_loop_frame (fuel : nat) (w : FileWriter) (fs : FS) (r : str) :
  frame (outcome_state (write_loop fuel w fs r)).1 = frame w.
Proof.
  revert w fs r. induction fuel as [|fuel IH]; intros w fs r.
  { by destruct r. }
  destruct r as [|c r]; [done|]. cbn [write_loop].
  pose proof (write_pass_frame w fs (c :: r)) as Hf.
  destruct (write_pass w fs (c :: r)) as [w' fs'|w' fs' r']; simpl in *; [done|].
  by rewrite IH.
Qed.

Lemma write_frame (fuel : nat) (w : FileWriter) (fs : FS) (content : str) :
  frame (outcome_state (write fuel w fs content)).1 = frame (capture w content).
Proof.
  rewrite write_unfold. case_match; [reflexivity|]. apply write_loop_frame.
Qed.

Lemma frame_capture_base (w : FileWriter) (content : str) :
  base_filename (capture w content) = base_filename w.
Proof. unfold capture. by case_match. Qed.

Lemma write_each_base (fuel : nat) (w : FileWriter) (fs : FS) (contents : list str) :
  base_filename (outcome_state (write_each fuel w fs contents)).1 = base_filename w.
Proof.
  revert w fs. induction contents as [|c cs IH]; intros w fs; [done|].
  cbn [write_each]. pose proof (write_frame fuel w fs c) as Hf.
  destruct (write fuel w fs c) as [w' fs'|w' fs' r']; simpl in *.
  - rewrite IH. injection Hf as -> _ _ _. apply frame_capture_base.
  - injection Hf as -> _ _ _. apply frame_capture_base.
Qed.

(** ** The first state of a session *)

Definition budget_of (split_kb : Z) : Z :=
  if 0 <? split_kb then split_kb * 1024 else 0.

Lemma init_unfold (base : Path) (k : Z) (force : bool) (fs : FS) :
  FileWriter_init base k force fs
  = (mkFileWriter base (budget_of k) force 1
       (if budget_of k =? 0 then base
        else with_name base (stem base +:+ "_" +:+ pretty 1 +:+ suffix base))
       0 None
       [if budget_of k =? 0 then base
        else with_name base (stem base +:+ "_" +:+ pretty 1 +:+ suffix base)],
     write_text fs
       (if budget_of k =? 0 then base
        else with_name base (stem base +:+ "_" +:+ pretty 1 +:+ suffix base)) []).
Proof. reflexivity. Qed.

Lemma view_init (base : Path) (k : Z) (force : bool) (fs : FS) :
  view_of (FileWriter_init base k force fs) = mkView [[]] 0 None (budget_of k).
Proof.
  rewrite init_unfold. unfold view_of, files_content, write_text. simpl.
  by rewrite content_insert_eq.
Qed.

Lemma budget_of_nonneg (k : Z) : 0 ≤ budget_of k.
Proof. unfold budget_of. case_match; lia. Qed.

Lemma init_split_size (base : Path) (k : Z) (force : bool) (fs : FS) :
  Utils.split_size (FileWriter_init base k force fs).1 = budget_of k.
Proof. by rewrite init_unfold. Qed.

Lemma init_header (base : Path) (k : Z) (force : bool) (fs : FS) :
  header (FileWriter_init base k force fs).1 = None.
Proof. by rewrite init_unfold. Qed.


(** ** Invariants of a sequence of writes *)

Section session_invariant.
(** [Q done v]: what holds between two writes, after the texts [done];
    [P done v r]: what holds inside the write of the last text of [done],
    with [r] still to be written; [ok done c]: what is asked of the next
    text [c]. *)
Context (Q : list str → view → Prop).
Context (P : list str → view → str → Prop).
Context (ok : list str → str → Prop).
Hypothesis P_roll : ∀ h v r, P h v r → P h (v_roll v) r.
Hypothesis P_put : ∀ h v r n, P h v r → P h (v_put (take n r) v) (drop n r).
Hypothesis Q_start : ∀ h v c, Q h v → ok h c → P (h ++ [c]) (v_capture c v) c.
Hypothesis Q_end : ∀ h v, P h v [] → Q h v.

Fixpoint all_ok (h : list str) (contents : list str) : Prop :=
  match contents with
  | [] => True
  | c :: rest => encodable c ∧ ok h c ∧ all_ok (h ++ [c]) rest
  end.

Definition holds_at (h : list str) (contents : list str) (o : outcome) : Prop :=
  match o with
  | Returned w fs => Q (h ++ contents) (view_of (w, fs))
  | OutOfFuel w fs r =>
    ∃ before c after, contents = before ++ c :: after
                      ∧ P (h ++ before ++ [c]) (view_of (w, fs)) r
  end.

Lemma write_each_invariant (fuel : nat) (w : FileWriter) (fs : FS)
    (h contents : list str) :
  wf w → all_ok h contents → Q h (view_of (w, fs)) →
  holds_at h contents (write_each fuel w fs contents).
Proof.
  revert w fs h. induction contents as [|c cs IH]; intros w fs h Hw Hok HQ.
  { simpl. by rewrite app_nil_r. }
  destruct Hok as (Henc & Hc & Hrest). cbn [write_each].
  pose proof (write_invariant (P (h ++ [c])) (P_roll _) (P_put _) fuel w fs c Hw Henc
                (Q_start _ _ _ HQ Hc)) as HP.
  destruct (write_wf fuel w fs c Hw) as [Hw' _].
  destruct (write fuel w fs c) as [w' fs'|w' fs' r']; simpl in *.
  - specialize (IH w' fs' (h ++ [c]) Hw' Hrest (Q_end _ _ HP)).
    destruct (write_each fuel w' fs' cs) as [w2 fs2|w2 fs2 r2]; simpl in *.
    + by rewrite <- app_assoc in IH.
    + destruct IH as (before & c' & after & -> & HP').
      exists (c :: before), c', after. split; [done|].
      by rewrite <- app_assoc in HP'.
  - exists [], c, cs. by split.
Qed.

End session_invariant.

(* ================================================================== *)
(** * When a write returns *)
(* ================================================================== *)

(** The header fits the budget: a new file then starts with room left, or
    exactly full. *)
Definition header_fits (v : view) : Prop :=
  len (utf8_encode (v_seed v)) ≤ v_budget v.

Lemma header_fits_rolled_available (v : view) :
  header_fits v → 0 ≤ v_available (v_rolled v).
Proof.
  unfold header_fits, v_rolled, v_available. intros H.
  destruct (Z.eqb_spec (Z.max 0 (v_budget v - v_size v)) 0); simpl; lia.
Qed.

(** A pass that does not end the loop consumes at least one character. *)
Lemma view_pass_shrinks (v : view) (r : str) (v' : view) (r' : str) :
  r ≠ [] → header_fits v → view_pass v r v' r' true →
  (length r' < length r)%nat.
Proof.
  intros Hr Hfit Hp. pose proof (header_fits_rolled_available v Hfit) as Ha.
  assert (Hlen : (0 < length r)%nat) by (destruct r; simpl; [done|lia]).
  remember true as b eqn:Hb.
  destruct Hp as [Hf|n Hlong Hn Hpos Hsz|Hlong Hpos|Hneg]; try discriminate.
  - rewrite length_drop. lia.
  - rewrite length_drop. lia.
  - lia.
Qed.

Lemma header_fits_pass (v : view) (r : str) (v' : view) (r' : str) (b : bool) :
  view_pass v r v' r' b → header_fits v → header_fits v'.
Proof.
  intros Hp. apply (view_pass_invariant (λ v _, header_fits v)) with r r' b; auto.
Qed.

Lemma write_loop_returns (fuel : nat) (w : FileWriter) (fs : FS) (r : str) :
  wf w → Utils.split_size w ≠ 0 → encodable r →
  header_fits (view_of (w, fs)) → (length r ≤ fuel)%nat →
  returned (write_loop fuel w fs r).
Proof.
  revert w fs r. induction fuel as [|fuel IH]; intros w fs r Hw H0 Henc Hfit Hlen.
  { destruct r; simpl in *; [done|lia]. }
  destruct r as [|c r]; [done|]. cbn [write_loop].
  destruct (write_pass_view w fs (c :: r) Hw H0 Henc) as (Hw' & HB' & Hvp).
  pose proof (view_pass_encodable _ _ _ _ _ Hvp Henc) as Henc'.
  pose proof (header_fits_pass _ _ _ _ _ Hvp Hfit) as Hfit'.
  destruct (write_pass w fs (c :: r)) as [w' fs'|w' fs' r']; simpl in *; [done|].
  apply IH; try done; [congruence|].
  assert (Hne : c :: r ≠ []) by (intros ?; discriminate).
  pose proof (view_pass_shrinks _ _ _ _ Hne Hfit Hvp). simpl in *. lia.
Qed.

Lemma write_returns (fuel : nat) (w : FileWriter) (fs : FS) (content : str) :
  wf w → encodable content →
  (Utils.split_size w ≠ 0 → header_fits (v_capture content (view_of (w, fs)))) →
  (length content ≤ fuel)%nat →
  returned (write fuel w fs content).
Proof.
  intros Hw Henc Hfit Hlen. rewrite write_unfold.
  destruct (Z.eqb_spec (Utils.split_size w) 0) as [H0|H0]; [done|].
  apply write_loop_returns; try done.
  - by apply wf_capture.
  - by rewrite budget_capture.
  - rewrite view_capture. auto.
Qed.

(** ** The header a sequence of writes ends with *)

Definition capture_header (ho : option str) (c : str) : option str :=
  if negb (truthy ho) && startswith c (text "# ") then Some c else ho.

(** [first_header contents]: the first of the texts that begins with the
    two characters of a top-level heading, if there is one. *)
Definition first_header (contents : list str) : option str :=
  fold_left capture_header contents None.

Lemma header_capture (w : FileWriter) (c : str) :
  header (capture w c) = capture_header (header w) c.
Proof. unfold capture, capture_header. by case_match. Qed.

Lemma v_header_capture (v : view) (c : str) :
  v_header (v_capture c v) = capture_header (v_header v) c.
Proof. unfold v_capture, capture_header. by case_match. Qed.

Lemma v_capture_files (v : view) (c : str) : v_files (v_capture c v) = v_files v.
Proof. unfold v_capture. by case_match. Qed.

Lemma v_capture_budget (v : view) (c : str) : v_budget (v_capture c v) = v_budget v.
Proof. unfold v_capture. by case_match. Qed.

Lemma v_capture_size (v : view) (c : str) : v_size (v_capture c v) = v_size v.
Proof. unfold v_capture. by case_match. Qed.

Lemma first_header_snoc (h : list str) (c : str) :
  first_header (h ++ [c]) = capture_header (first_header h) c.
Proof. unfold first_header. by rewrite fold_left_app. Qed.

Lemma startswith_nonempty (c : str) : startswith c (text "# ") = true → c ≠ [].
Proof. by destruct c. Qed.

Lemma capture_header_truthy (ho : option str) (c : str) :
  truthy ho = true → capture_header ho c = ho.
Proof. intros H. unfold capture_header. by rewrite H. Qed.

Lemma fold_capture_truthy (ho : option str) (cs : list str) :
  truthy ho = true → fold_left capture_header cs ho = ho.
Proof.
  intros H. induction cs as [|c cs IH]; [done|]. simpl.
  by rewrite capture_header_truthy.
Qed.

(** A header that is not there takes no room. *)
Lemma falsy_seed (ho : option str) : truthy ho = false → default [] ho = [].
Proof. by destruct ho as [[|]|]. Qed.

Definition fits (budget : Z) (ho : option str) : Prop :=
  len (utf8_encode (default [] ho)) ≤ budget.

Lemma fits_fold_back (budget : Z) (ho : option str) (cs : list str) :
  0 ≤ budget → fits budget (fold_left capture_header cs ho) → fits budget ho.
Proof.
  intros HB. revert ho. induction cs as [|c cs IH]; intros ho H; [done|].
  simpl in H. apply IH in H. unfold capture_header in H.
  destruct (truthy ho) eqn:Ht; simpl in H; [done|].
  unfold fits. rewrite falsy_seed by done. simpl. unfold len. simpl. lia.
Qed.

Lemma write_each_returns (fuel : nat) (w : FileWriter) (fs : FS)
    (contents : list str) :
  wf w → Forall encodable contents →
  (Utils.split_size w ≠ 0 →
   fits (Utils.split_size w) (fold_left capture_header contents (header w))) →
  Forall (λ c, (length c ≤ fuel)%nat) contents →
  returned (write_each fuel w fs contents).
Proof.
  revert w fs. induction contents as [|c cs IH]; intros w fs Hw Henc Hfit Hlen.
  { done. }
  apply Forall_cons in Henc as [Hc Hcs]. apply Forall_cons in Hlen as [Hlc Hlcs].
  cbn [write_each]. simpl in Hfit.
  assert (Hret : returned (write fuel w fs c)).
  { apply write_returns; try done. intros H0.
    unfold header_fits, v_seed. rewrite v_header_capture, v_capture_budget. simpl.
    apply (fits_fold_back _ _ cs); [by destruct Hw; lia|auto]. }
  destruct (write_wf fuel w fs c Hw) as [Hw' HB'].
  pose proof (write_frame fuel w fs c) as Hfr.
  destruct (write fuel w fs c) as [w' fs'|w' fs' r']; simpl in *; [|done].
  apply IH; try done. intros H0. rewrite HB'. injection Hfr as _ _ _ ->.
  rewrite header_capture. apply Hfit. congruence.
Qed.

(** For examples: a list of concrete texts encodes, and is short enough. *)
Lemma encodable_check (s : str) : forallb is_scalar s = true → encodable s.
Proof.
  induction s as [|c s IH]; simpl; [constructor|].
  intros [Hc Hs]%andb_prop. constructor; [exact Hc|exact (IH Hs)].
Qed.

Ltac all_encodable :=
  repeat (apply Forall_cons_2; [apply encodable_check; vm_compute; reflexivity|]);
  apply Forall_nil_2.

Ltac all_short :=
  repeat (apply Forall_cons_2; [apply Nat.leb_le; vm_compute; reflexivity|]);
  apply Forall_nil_2.

(* ================================================================== *)
(** * The size of the generated files *)
(* ================================================================== *)

Section pass_invariant.
(** Invariants that need to know how a pass ended. *)
Context (P : view → str → Prop).
Hypothesis P_pass : ∀ v r v' r' b, view_pass v r v' r' b → P v r → P v' r'.

Lemma write_loop_invariant_pass (fuel : nat) (w : FileWriter) (fs : FS) (r : str) :
  wf w → Utils.split_size w ≠ 0 → encodable r →
  P (view_of (w, fs)) r →
  P (view_of (outcome_state (write_loop fuel w fs r)))
    (outcome_remaining (write_loop fuel w fs r)).
Proof.
  revert w fs r. induction fuel as [|fuel IH]; intros w fs r Hw H0 Henc HP.
  { by destruct r. }
  destruct r as [|c r]; [done|]. cbn [write_loop].
  destruct (write_pass_view w fs (c :: r) Hw H0 Henc) as (Hw' & HB' & Hvp).
  pose proof (P_pass _ _ _ _ _ Hvp HP) as HP'.
  pose proof (view_pass_encodable _ _ _ _ _ Hvp Henc) as Henc'.
  destruct (write_pass w fs (c :: r)) as [w' fs'|w' fs' r']; simpl in *; [done|].
  apply IH; try done. congruence.
Qed.

End pass_invariant.

(** A file within the budget but for one forced chunk of at most 100
    characters at its end. *)
Definition bounded (budget : Z) (c : bytes) : Prop :=
  ∃ pre chunk, c = pre ++ utf8_encode chunk ∧ len pre ≤ budget
               ∧ (length chunk ≤ 100)%nat.

Lemma bounded_small (budget : Z) (c : bytes) : len c ≤ budget → bounded budget c.
Proof.
  intros H. exists c, []. split; [by rewrite app_nil_r|]. split; [done|simpl; lia].
Qed.

Lemma bounded_length (budget : Z) (c : bytes) :
  bounded budget c → len c ≤ budget + 400.
Proof.
  intros (pre & chunk & -> & Hp & Hc). unfold len in *. rewrite length_app.
  pose proof (utf8_encode_length_le chunk). lia.
Qed.

(** Between two passes: the header fits, the current file is within the
    budget and as long as the writer believes, and the files before it are
    bounded. *)
Definition size_inv (v : view) : Prop :=
  header_fits v ∧ 0 ≤ v_size v ≤ v_budget v
  ∧ ∃ olds cur, v_files v = olds ++ [cur] ∧ len cur = v_size v
                ∧ Forall (bounded (v_budget v)) olds.

Lemma len_app {A} (l1 l2 : list A) : len (l1 ++ l2) = len l1 + len l2.
Proof. unfold len. rewrite length_app. lia. Qed.

Lemma len_nonneg {A} (l : list A) : 0 ≤ len l.
Proof. unfold len. lia. Qed.

Lemma size_roll (v : view) (olds : list bytes) (cur : bytes) :
  header_fits v → v_files v = olds ++ [cur] →
  Forall (bounded (v_budget v)) olds → bounded (v_budget v) cur →
  size_inv (v_roll v).
Proof.
  intros Hfit Hf Holds Hcur. split; [done|]. simpl. split.
  - split; [apply len_nonneg|done].
  - exists (olds ++ [cur]), (utf8_encode (v_seed v)). rewrite Hf.
    split; [done|]. split; [done|].
    rewrite Forall_app, Forall_singleton. done.
Qed.

Lemma size_rolled (v : view) : size_inv v → size_inv (v_rolled v).
Proof.
  intros Hs. pose proof Hs as (Hfit & Hsz & olds & cur & Hf & Hlen & Holds).
  unfold v_rolled. case_match; [|done].
  apply (size_roll v olds cur); try done. apply bounded_small. lia.
Qed.

Lemma size_pass (v : view) (r : str) (v' : view) (r' : str) (b : bool) :
  view_pass v r v' r' b → size_inv v → size_inv v'.
Proof.
  intros Hp Hs. apply size_rolled in Hs.
  destruct Hs as (Hfit & Hsz & olds & cur & Hf & Hlen & Holds).
  destruct Hp as [Hfits|n Hlong Hn Hpos Hszn|Hlong Hpos|Hneg];
    unfold v_available in *.
  - split; [done|]. simpl. pose proof (len_nonneg (utf8_encode r)).
    split; [lia|]. exists olds, (cur ++ utf8_encode r).
    rewrite Hf, app_last_snoc, len_app. split; [done|]. split; [lia|done].
  - apply (size_roll _ olds (cur ++ utf8_encode (take n r))); try done.
    + simpl. by rewrite Hf, app_last_snoc.
    + apply bounded_small. rewrite len_app. simpl. lia.
  - apply (size_roll _ olds (cur ++ utf8_encode (take 100 r))); try done.
    + simpl. by rewrite Hf, app_last_snoc.
    + exists cur, (take 100 r). split; [done|]. simpl. split; [lia|].
      rewrite length_take. lia.
  - split; [done|]. split; [done|]. by exists olds, cur.
Qed.

Lemma size_inv_all (v : view) :
  size_inv v → Forall (bounded (v_budget v)) (v_files v).
Proof.
  intros (Hfit & Hsz & olds & cur & -> & Hlen & Holds).
  rewrite Forall_app, Forall_singleton. split; [done|].
  apply bounded_small. lia.
Qed.

Lemma size_capture (v : view) (c : str) :
  size_inv v → fits (v_budget v) (capture_header (v_header v) c) →
  size_inv (v_capture c v).
Proof.
  intros (Hfit & Hsz & Hfiles) Hc. split; [|split].
  - unfold header_fits, v_seed. by rewrite v_header_capture, v_capture_budget.
  - by rewrite v_capture_size, v_capture_budget.
  - by rewrite v_capture_files, v_capture_size, v_capture_budget.
Qed.

Lemma write_size (fuel : nat) (w : FileWriter) (fs : FS) (c : str) :
  wf w → Utils.split_size w ≠ 0 → encodable c →
  size_inv (view_of (w, fs)) →
  fits (Utils.split_size w) (capture_header (header w) c) →
  size_inv (view_of (outcome_state (write fuel w fs c))).
Proof.
  intros Hw H0 Henc Hs Hfit. rewrite write_unfold.
  destruct (Z.eqb_spec (Utils.split_size w) 0) as [|_]; [done|].
  apply (write_loop_invariant_pass (λ v _, size_inv v)); try done.
  - intros v r v' r' b. apply size_pass.
  - by apply wf_capture.
  - by rewrite budget_capture.
  - rewrite view_capture. by apply size_capture.
Qed.

Lemma write_each_size (fuel : nat) (w : FileWriter) (fs : FS) (contents : list str) :
  wf w → Utils.split_size w ≠ 0 → Forall encodable contents →
  size_inv (view_of (w, fs)) →
  fits (Utils.split_size w) (fold_left capture_header contents (header w)) →
  size_inv (view_of (outcome_state (write_each fuel w fs contents))).
Proof.
  revert w fs. induction contents as [|c cs IH]; intros w fs Hw H0 Henc Hs Hfit.
  { done. }
  apply Forall_cons in Henc as [Hc Hcs]. cbn [write_each]. simpl in Hfit.
  assert (Hfc : fits (Utils.split_size w) (capture_header (header w) c)).
  { apply (fits_fold_back _ _ cs); [by destruct Hw|done]. }
  pose proof (write_size fuel w fs c Hw H0 Hc Hs Hfc) as Hs'.
  destruct (write_wf fuel w fs c Hw) as [Hw' HB'].
  pose proof (write_frame fuel w fs c) as Hfr.
  destruct (write fuel w fs c) as [w' fs'|w' fs' r']; simpl in *; [|done].
  apply IH; try done; [congruence|]. rewrite HB'. injection Hfr as _ _ _ ->.
  by rewrite header_capture.
Qed.

(** X1.  With a split size above 0, texts that encode and a header (the
    first text that begins like a heading, if any) that fits the budget,
    every generated file is within the budget, except that it may end with
    one forced chunk of at most 100 characters; so no file exceeds the
    budget by more than 400 bytes.  The header counts: a file created with
    it starts at the header's length.  This holds in every state a session
    reaches. *)
Theorem X1_files_within_budget (fuel : nat) (base : Path) (k : Z) (force : bool)
    (fs : FS) (contents : list str) :
  0 < k → Forall encodable contents →
  len (utf8_encode (default [] (first_header contents))) ≤ k * 1024 →
  let st := outcome_state (session fuel base k force fs contents) in
  Forall (λ file,
            (∃ pre chunk, content st.2 file = pre ++ utf8_encode chunk
                          ∧ len pre ≤ k * 1024 ∧ (length chunk ≤ 100)%nat)
            ∧ len (content st.2 file) ≤ k * 1024 + 400)
         (generated_files st.1).
Proof.
  intros Hk Henc Hfit. cbv zeta. unfold session.
  set (w0 := (FileWriter_init base k force fs).1).
  set (fs0 := (FileWriter_init base k force fs).2).
  assert (HB0 : Utils.split_size w0 = k * 1024).
  { unfold w0. rewrite init_split_size. unfold budget_of.
    destruct (Z.ltb_spec 0 k); [done|lia]. }
  assert (Hv0 : view_of (w0, fs0) = mkView [[]] 0 None (k * 1024)).
  { unfold w0, fs0. rewrite <- surjective_pairing, view_init. unfold budget_of.
    destruct (Z.ltb_spec 0 k); [done|lia]. }
  assert (Hs0 : size_inv (view_of (w0, fs0))).
  { rewrite Hv0. split; [unfold header_fits, len; simpl; lia|].
    split; [simpl; lia|]. exists [], []. simpl.
    split; [done|]. split; [done|constructor]. }
  assert (Hh0 : header w0 = None) by apply init_header.
  pose proof (write_each_size fuel w0 fs0 contents (wf_init base k force fs)
                ltac:(lia) Henc Hs0) as Hs.
  rewrite HB0, Hh0 in Hs. specialize (Hs Hfit).
  apply size_inv_all in Hs.
  destruct (write_each_wf fuel w0 fs0 contents (wf_init base k force fs)) as [_ HB].
  unfold view_of, files_content in Hs. simpl in Hs. rewrite HB, HB0 in Hs.
  rewrite Forall_fmap in Hs. eapply Forall_impl; [exact Hs|].
  intros file Hb. simpl in Hb. split; [exact Hb|]. by apply bounded_length.
Qed.

Lemma X1_witness :
  let contents := [text "# T" ++ [10]; replicate 1021 120; replicate 300 233] in
  let st := outcome_state (session 400 (mkPath false ["out.md"]) 1 false ∅ contents) in
  Forall (λ file,
            (∃ pre chunk, content st.2 file = pre ++ utf8_encode chunk
                          ∧ len pre ≤ 1 * 1024 ∧ (length chunk ≤ 100)%nat)
            ∧ len (content st.2 file) ≤ 1 * 1024 + 400)
         (generated_files st.1).
Proof.
  apply X1_files_within_budget.
  - lia.
  - all_encodable.
  - vm_compute. discriminate.
Defined.

(* ================================================================== *)
(** * Names of the generated files *)
(* ================================================================== *)

Lemma session_wf (fuel : nat) (base : Path) (k : Z) (force : bool) (fs : FS)
    (contents : list str) :
  let w := (outcome_state (session fuel base k force fs contents)).1 in
  wf w ∧ Utils.split_size w = budget_of k ∧ base_filename w = base.
Proof.
  cbv zeta. unfold session.
  destruct (write_each_wf fuel (FileWriter_init base k force fs).1
              (FileWriter_init base k force fs).2 contents (wf_init base k force fs))
    as [Hw HB].
  split; [done|]. split.
  - rewrite HB. reflexivity.
  - rewrite write_each_base. reflexivity.
Qed.

(** C9.  However a session goes (all writes returned, or the loop was still
    running when the fuel ran out), the files generated so far are numbered
    1, 2, 3, ... without a gap, listed in creation order: with a split size
    above 0 the i-th is named stem_i suffix beside the base name; with
    split size 0 there is exactly one file, the base name itself. *)
Theorem C9_generated_file_names (fuel : nat) (base : Path) (k : Z) (force : bool)
    (fs : FS) (contents : list str) :
  let w := (outcome_state (session fuel base k force fs contents)).1 in
  1 ≤ current_file_index w
  ∧ get_generated_files w =
      (if 0 <? k
       then (λ i, with_name base (stem base +:+ "_" +:+ pretty i +:+ suffix base))
              <$> seqZ 1 (current_file_index w)
       else [base])
  ∧ last (get_generated_files w) = Some (current_file w).
Proof.
  cbv zeta.
  destruct (session_wf fuel base k force fs contents) as (Hw & HB & Hbase).
  set (w := (outcome_state (session fuel base k force fs contents)).1) in *.
  pose proof Hw as [Hi Hnn H1 Hf Hc]. split; [done|]. split.
  - unfold get_generated_files. rewrite Hf. unfold budget_of in HB.
    destruct (Z.ltb_spec 0 k) as [Hk|Hk].
    + apply list_fmap_ext. intros _ i _. unfold name_of, _get_filename. simpl.
      rewrite HB, Hbase. destruct (Z.eqb_spec (k * 1024) 0); [lia|reflexivity].
    + rewrite (H1 HB). rewrite seqZ_cons, seqZ_nil by lia. simpl.
      unfold name_of, _get_filename. simpl. rewrite HB, Hbase. reflexivity.
  - unfold get_generated_files. rewrite (generated_split w Hw).
    apply last_snoc.
Qed.

(* ================================================================== *)
(** * Every generated file is well-formed UTF-8 *)
(* ================================================================== *)

(** The bytes are the encoding of some text that encodes. *)
Definition is_text (c : bytes) : Prop := ∃ s, encodable s ∧ c = utf8_encode s.

Definition valid_view (v : view) : Prop :=
  Forall is_text (v_files v) ∧ encodable (v_seed v).

Lemma is_text_app (c : bytes) (s : str) :
  is_text c → encodable s → is_text (c ++ utf8_encode s).
Proof.
  intros (t & Ht & ->) Hs. exists (t ++ s). split; [by apply encodable_app|].
  by rewrite utf8_encode_app.
Qed.

Lemma is_text_encode (s : str) : encodable s → is_text (utf8_encode s).
Proof. intros Hs. by exists s. Qed.

Lemma Forall_is_text_app_last (l : list bytes) (s : str) :
  Forall is_text l → encodable s → Forall is_text (app_last l (utf8_encode s)).
Proof.
  intros Hl Hs. induction Hl as [|c l Hc Hl IH]; simpl.
  { constructor; [by apply is_text_encode|constructor]. }
  destruct l as [|d l].
  - constructor; [by apply is_text_app|constructor].
  - constructor; [done|]. apply IH.
Qed.

Lemma valid_roll (v : view) : valid_view v → valid_view (v_roll v).
Proof.
  intros [Hf Hs]. split; [|done]. simpl. apply Forall_app. split; [done|].
  constructor; [by apply is_text_encode|constructor].
Qed.

Lemma valid_put (v : view) (s : str) :
  valid_view v → encodable s → valid_view (v_put s v).
Proof.
  intros [Hf Hs] Henc. split; [|done]. simpl. by apply Forall_is_text_app_last.
Qed.

Lemma valid_capture (v : view) (c : str) :
  valid_view v → encodable c → valid_view (v_capture c v).
Proof. intros [Hf Hs] Hc. unfold v_capture. case_match; by split. Qed.

Lemma valid_init (base : Path) (k : Z) (force : bool) (fs : FS) :
  valid_view (view_of (FileWriter_init base k force fs)).
Proof.
  rewrite view_init. split; simpl.
  - constructor; [|constructor]. exists []. split; [constructor|done].
  - constructor.
Qed.

Lemma all_ok_encodable (h contents : list str) :
  Forall encodable contents → all_ok (λ _ c, encodable c) h contents.
Proof.
  intros H. revert h. induction H as [|c cs Hc Hcs IH]; intros h; simpl; auto.
Qed.

Lemma session_valid (fuel : nat) (base : Path) (k : Z) (force : bool) (fs : FS)
    (contents : list str) :
  Forall encodable contents →
  valid_view (view_of (outcome_state (session fuel base k force fs contents))).
Proof.
  intros Henc.
  pose proof (write_each_invariant
    (λ _ v, valid_view v) (λ _ v r, valid_view v ∧ encodable r)
    (λ _ c, encodable c)) as Hinv.
  unfold session.
  specialize (Hinv
    ltac:(intros h v r [? ?]; split; [by apply valid_roll|done])
    ltac:(intros h v r n [? ?]; split;
            [by apply valid_put, encodable_take|by apply encodable_drop])
    ltac:(intros h v c ? ?; split; [by apply valid_capture|done])
    ltac:(by intros h v [? ?])
    fuel _ _ [] contents (wf_init base k force fs)
    (all_ok_encodable [] contents Henc) (valid_init base k force fs)).
  destruct (write_each _ _ _ _) as [w' fs'|w' fs' r']; simpl in *; [done|].
  by destruct Hinv as (? & ? & ? & ? & ? & ?).
Qed.

(** C2.  Texts that encode are written so that every generated file holds
    the UTF-8 encoding of a text: decoding it strictly succeeds, so no file
    starts or ends inside a multi-byte sequence.  This holds in every state
    a session reaches, also one where the loop is still running. *)
Theorem C2_generated_files_decode (fuel : nat) (base : Path) (k : Z)
    (force : bool) (fs : FS) (contents : list str) :
  Forall encodable contents →
  let st := outcome_state (session fuel base k force fs contents) in
  Forall (λ file, ∃ s, encodable s ∧ utf8_decode (content st.2 file) = Some s)
         (generated_files st.1).
Proof.
  intros Henc. cbv zeta.
  destruct (session_valid fuel base k force fs contents Henc) as [Hf _].
  unfold view_of, files_content in Hf. simpl in Hf.
  rewrite Forall_fmap in Hf. eapply Forall_impl; [exact Hf|].
  intros file (s & Hs & Heq). simpl in Heq. exists s. split; [done|].
  rewrite Heq. by apply utf8_decode_encode.
Qed.

(** A 1 KB budget, 1023 one-byte characters, then 300 two-byte characters:
    the first file ends with a forced chunk, the second holds the rest. *)
Lemma C2_witness :
  Forall encodable [replicate 1023 120; replicate 300 233]
  ∧ (let st := outcome_state
                 (session 400 (mkPath false ["out.md"]) 1 false ∅
                    [replicate 1023 120; replicate 300 233]) in
     Forall (λ file, ∃ s, encodable s ∧ utf8_decode (content st.2 file) = Some s)
            (generated_files st.1)).
Proof.
  assert (H : Forall encodable [replicate 1023 120; replicate 300 233]).
  { all_encodable. }
  split; [exact H|].
  exact (C2_generated_files_decode 400 (mkPath false ["out.md"]) 1 false ∅ _ H).
Defined.

(* ================================================================== *)
(** * The files, put end to end, are the text written *)
(* ================================================================== *)

(** A file that was seeded with the header [hd] and then received [b]. *)
Definition seeded (hd b : str) : bytes := utf8_encode hd ++ utf8_encode b.

(** The first file is never seeded; every later one is. *)
Definition stream_files (hd b0 : str) (bs : list str) : list bytes :=
  utf8_encode b0 :: (seeded hd <$> bs).

Definition stream_inv (hd total : str) (v : view) (r : str) : Prop :=
  ∃ b0 bs, v_files v = stream_files hd b0 bs ∧ concat (b0 :: bs) ++ r = total.

Lemma stream_files_snoc (hd b0 : str) (bs : list str) (b : str) :
  stream_files hd b0 (bs ++ [b]) = stream_files hd b0 bs ++ [seeded hd b].
Proof. unfold stream_files. by rewrite fmap_app. Qed.

Lemma stream_files_put (hd b0 : str) (bs : list str) (s : str) :
  ∃ b0' bs', app_last (stream_files hd b0 bs) (utf8_encode s) = stream_files hd b0' bs'
             ∧ concat (b0' :: bs') = concat (b0 :: bs) ++ s.
Proof.
  destruct bs as [|b bs _] using rev_ind.
  - exists (b0 ++ s), []. split.
    + unfold stream_files. simpl. by rewrite utf8_encode_app.
    + simpl. by rewrite !app_nil_r.
  - exists b0, (bs ++ [b ++ s]). split.
    + rewrite !stream_files_snoc, app_last_snoc. do 2 f_equal.
      unfold seeded. by rewrite utf8_encode_app, app_assoc.
    + simpl. rewrite !concat_app. simpl. by rewrite !app_nil_r, !app_assoc.
Qed.

Lemma stream_put (hd total : str) (v : view) (r : str) (n : nat) :
  stream_inv hd total v r → stream_inv hd total (v_put (take n r) v) (drop n r).
Proof.
  intros (b0 & bs & Hf & Hc). unfold stream_inv, v_put. cbn [v_files]. rewrite Hf.
  destruct (stream_files_put hd b0 bs (take n r)) as (b0' & bs' & -> & Hc').
  exists b0', bs'. split; [done|].
  rewrite Hc', <- app_assoc, take_drop. done.
Qed.

Lemma stream_roll (hd total : str) (v : view) (r : str) :
  v_seed v = hd → stream_inv hd total v r → stream_inv hd total (v_roll v) r.
Proof.
  intros Hs (b0 & bs & Hf & Hc). exists b0, (bs ++ [[]]). split.
  - simpl. rewrite Hf, Hs. unfold stream_files. rewrite fmap_app. simpl.
    unfold seeded. simpl. by rewrite app_nil_r.
  - rewrite <- Hc. simpl. rewrite concat_app. simpl. by rewrite !app_nil_r.
Qed.

(** Only the first text may begin like a header. *)
Definition later_plain (h : list str) (c : str) : Prop :=
  h ≠ [] → startswith c (text "# ") = false.

Definition stream_P (h : list str) (v : view) (r : str) : Prop :=
  v_header v = first_header h
  ∧ stream_inv (default [] (first_header h)) (concat h) v r
  ∧ h ≠ [].

Definition stream_Q (h : list str) (v : view) : Prop :=
  v_header v = first_header h
  ∧ stream_inv (default [] (first_header h)) (concat h) v []
  ∧ (h = [] → v_files v = [[]]).

Lemma capture_header_plain (ho : option str) (c : str) :
  startswith c (text "# ") = false → capture_header ho c = ho.
Proof. intros H. unfold capture_header. by rewrite H, andb_false_r. Qed.

Lemma stream_start (h : list str) (v : view) (c : str) :
  stream_Q h v → later_plain h c → stream_P (h ++ [c]) (v_capture c v) c.
Proof.
  intros (Hh & Hs & H0) Hc. split; [|split].
  - by rewrite v_header_capture, first_header_snoc, Hh.
  - destruct (decide (h = [])) as [->|Hne].
    + exists [], []. rewrite v_capture_files, (H0 eq_refl). split; [done|].
      simpl. by rewrite app_nil_r.
    + rewrite first_header_snoc, capture_header_plain by auto.
      destruct Hs as (b0 & bs & Hf & Hcat). exists b0, bs.
      rewrite v_capture_files. split; [done|].
      rewrite concat_app. simpl. rewrite app_nil_r in Hcat. simpl in Hcat.
      by rewrite app_nil_r, Hcat.
  - by destruct h.
Qed.

Lemma session_stream (fuel : nat) (w : FileWriter) (fs : FS) (contents : list str) :
  wf w → view_of (w, fs) = mkView [[]] 0 None (Utils.split_size w) →
  Forall encodable contents →
  Forall (λ c, startswith c (text "# ") = false) (tail contents) →
  holds_at stream_Q stream_P [] contents (write_each fuel w fs contents).
Proof.
  intros Hw Hv Henc Hplain.
  apply (write_each_invariant stream_Q stream_P later_plain); try done.
  - intros h v r (Hh & Hs & Hne). split; [done|]. split; [|done].
    apply stream_roll; [|done]. unfold v_seed. by rewrite Hh.
  - intros h v r n (Hh & Hs & Hne). split; [done|]. split; [|done].
    by apply stream_put.
  - apply stream_start.
  - intros h v (Hh & Hs & Hne). by split.
  - assert (Hgen : ∀ h cs, Forall encodable cs →
      (h = [] → Forall (λ c, startswith c (text "# ") = false) (tail cs)) →
      (h ≠ [] → Forall (λ c, startswith c (text "# ") = false) cs) →
      all_ok later_plain h cs).
    { intros h cs. revert h. induction cs as [|c cs IH]; intros h Hen H1 H2; [done|].
      apply Forall_cons in Hen as [Hc Hcs]. simpl. split; [done|]. split.
      - intros Hne. specialize (H2 Hne). by apply Forall_cons in H2 as [? _].
      - apply IH; [done|by destruct h|]. intros _.
        destruct (decide (h = [])) as [->|Hne]; [by apply H1|].
        specialize (H2 Hne). by apply Forall_cons in H2 as [_ ?]. }
    apply Hgen; [done|done|done].
  - rewrite Hv. split; [done|]. split; [|done]. exists [], []. by split.
Qed.






Lemma utf8_encode_concat (l : list str) :
  utf8_encode (concat l) = concat (utf8_encode <$> l).
Proof.
  induction l as [|s l IH]; [done|]. simpl. by rewrite utf8_encode_app, IH.
Qed.


Lemma first_header_plain (cs : list str) (ho : option str) :
  Forall (λ c, startswith c (text "# ") = false) cs →
  fold_left capture_header cs ho = ho.
Proof.
  intros H. revert ho. induction H as [|c cs Hc Hcs IH]; intros ho; [done|].
  simpl. by rewrite capture_header_plain, IH.
Qed.


Lemma session_returns (fuel : nat) (base : Path) (k : Z) (force : bool) (fs : FS)
    (contents : list str) :
  Forall encodable contents →
  (0 < k → fits (k * 1024) (first_header contents)) →
  Forall (λ c, (length c ≤ fuel)%nat) contents →
  returned (session fuel base k force fs contents).
Proof.
  intros Henc Hfit Hlen. unfold session.
  apply write_each_returns; try done; [apply wf_init|].
  rewrite init_split_size, init_header. unfold budget_of.
  destruct (Z.ltb_spec 0 k); [auto|done].
Qed.



(* ================================================================== *)
(** * The header and the files seeded with it *)
(* ================================================================== *)

Lemma write_each_app (fuel : nat) (w : FileWriter) (fs : FS) (a b : list str) :
  write_each fuel w fs (a ++ b)
  = match write_each fuel w fs a with
    | Returned w' fs' => write_each fuel w' fs' b
    | OutOfFuel w' fs' r => OutOfFuel w' fs' r
    end.
Proof.
  revert w fs. induction a as [|c a IH]; intros w fs; [done|].
  simpl. destruct (write fuel w fs c); [apply IH|done].
Qed.

Lemma length_app_last (l : list bytes) (x : bytes) :
  l ≠ [] → length (app_last l x) = length l.
Proof.
  induction l as [|c l IH]; [done|]. intros _. simpl.
  destruct l as [|d l]; [done|]. simpl in *. f_equal. by apply IH.
Qed.

Lemma Forall_prefix_drop_app_last (hb : bytes) (n : nat) (l : list bytes) (x : bytes) :
  l ≠ [] → Forall (prefix hb) (drop n l) → Forall (prefix hb) (drop n (app_last l x)).
Proof.
  intros Hne H. destruct l as [|c l _] using rev_ind; [done|].
  rewrite app_last_snoc. destruct (decide (n ≤ length l)%nat) as [Hle|Hgt].
  - rewrite drop_app_le in H by done. rewrite drop_app_le by done.
    rewrite Forall_app in H. destruct H as [H1 H2].
    rewrite Forall_singleton in H2.
    rewrite Forall_app, Forall_singleton. split; [done|]. by apply prefix_app_r.
  - rewrite drop_ge; [constructor|]. rewrite length_app. simpl. lia.
Qed.

Section seeded_from.
(** [count] files existed when the header [c] was captured. *)
Context (c : str) (count : nat).

Definition seeded_P (h : list str) (v : view) (r : str) : Prop :=
  h ≠ [] ∧ v_header v = Some c
  ∧ (1 ≤ count ≤ length (v_files v))%nat
  ∧ Forall (prefix (utf8_encode c)) (drop count (v_files v)).

Definition seeded_Q (h : list str) (v : view) : Prop :=
  (1 ≤ count ≤ length (v_files v))%nat
  ∧ (h = [] → v_header v = None ∧ length (v_files v) = count)
  ∧ (h ≠ [] → v_header v = Some c
              ∧ Forall (prefix (utf8_encode c)) (drop count (v_files v))).

Definition first_is_header (h : list str) (x : str) : Prop := h = [] → x = c.

Lemma seeded_invariant (fuel : nat) (w : FileWriter) (fs : FS) (after : list str) :
  wf w → startswith c (text "# ") = true →
  Forall encodable (c :: after) →
  header w = None → length (files_content w fs) = count →
  holds_at seeded_Q seeded_P [] (c :: after) (write_each fuel w fs (c :: after)).
Proof.
  intros Hw Hc Henc Hh Hn.
  assert (Htr : truthy (Some c) = true).
  { pose proof (startswith_nonempty c Hc) as Hne. clear -Hne. by destruct c. }
  assert (Hpos : (1 ≤ count)%nat).
  { rewrite <- Hn, (files_content_split w fs Hw), length_app. simpl. lia. }
  apply (write_each_invariant seeded_Q seeded_P first_is_header); try done.
  - intros h v r (Hne & Hv & Hcnt & Hpre). split; [done|]. split; [done|].
    simpl. rewrite length_app. simpl. split; [lia|].
    rewrite drop_app_le by lia. rewrite Forall_app, Forall_singleton.
    split; [done|]. unfold v_seed. by rewrite Hv.
  - intros h v r n (Hne & Hv & Hcnt & Hpre).
    assert (Hnil : v_files v ≠ []) by (destruct (v_files v); simpl in *; [lia|done]).
    split; [done|]. split; [done|]. simpl.
    rewrite length_app_last by done. split; [done|].
    by apply Forall_prefix_drop_app_last.
  - intros h v x (Hcnt & Hnil & Hcons) Hx.
    split; [by destruct h|]. rewrite v_header_capture, v_capture_files.
    destruct (decide (h = [])) as [->|Hne].
    + rewrite (Hx eq_refl). destruct (Hnil eq_refl) as [Hv Hl].
      rewrite Hv. unfold capture_header. simpl. rewrite Hc.
      split; [done|]. split; [lia|]. rewrite drop_ge by lia. constructor.
    + destruct (Hcons Hne) as [Hv Hpre]. rewrite Hv.
      rewrite capture_header_truthy by done. by split.
  - intros h v (Hne & Hv & Hcnt & Hpre). split; [done|]. by split.
  - clear Hh Hn. apply Forall_cons in Henc as [Hec Hea].
    simpl. split; [done|]. split; [done|].
    assert (Hgen : ∀ h, h ≠ [] → all_ok first_is_header h after).
    { clear -Hea. induction Hea as [|x xs Hx Hxs IH]; intros h Hne; [done|].
      simpl. split; [done|]. split; [by intros ->|]. apply IH. by destruct h. }
    by apply Hgen.
  - split; [simpl; lia|]. split; [by intros _|done].
Qed.

End seeded_from.

Lemma name_of_ext (w w' : FileWriter) (i : Z) :
  base_filename w' = base_filename w → Utils.split_size w' = Utils.split_size w →
  name_of w' i = name_of w i.
Proof.
  intros Hb Hs. unfold name_of, _get_filename. simpl. by rewrite Hb, Hs.
Qed.

Lemma generated_take (w1 w : FileWriter) :
  wf w1 → wf w →
  base_filename w = base_filename w1 → Utils.split_size w = Utils.split_size w1 →
  (length (generated_files w1) ≤ length (generated_files w))%nat →
  take (length (generated_files w1)) (generated_files w) = generated_files w1.
Proof.
  intros [Hi1 _ _ Hf1 _] [Hi _ _ Hf _] Hb Hs Hlen.
  rewrite Hf1, Hf in *. rewrite !length_fmap, !length_seqZ in *.
  replace (current_file_index w)
    with (current_file_index w1 + (current_file_index w - current_file_index w1))
    by lia.
  rewrite seqZ_app, fmap_app by lia.
  rewrite take_app_length'; [|by rewrite length_fmap, length_seqZ].
  apply list_fmap_ext. intros _ i _. by apply name_of_ext.
Qed.

(* ================================================================== *)
(** * A header that is captured late *)
(* ================================================================== *)

Lemma app_last_nil_r (l : list bytes) : l ≠ [] → app_last l [] = l.
Proof.
  intros Hne. destruct l as [|c l _] using rev_ind; [done|].
  by rewrite app_last_snoc, app_nil_r.
Qed.

Lemma app_last_twice (l : list bytes) (a b : bytes) :
  l ≠ [] → app_last (app_last l a) b = app_last l (a ++ b).
Proof.
  intros Hne. destruct l as [|c l _] using rev_ind; [done|].
  by rewrite !app_last_snoc, app_assoc.
Qed.

Lemma app_last_app (l k : list bytes) (x : bytes) :
  k ≠ [] → app_last (l ++ k) x = l ++ app_last k x.
Proof.
  intros Hne. destruct k as [|c k _] using rev_ind; [done|].
  by rewrite app_assoc, !app_last_snoc, app_assoc.
Qed.

Section late_from.
(** The header [c] is captured when the files hold [us]. *)
Context (c : str) (us : list bytes).
Hypothesis us_nonempty : us ≠ [].

(** From the capture on: the files that existed hold what they held, the
    last of them with the text [x] after it; every later file holds the
    header and then a piece of text; [x], the pieces and what is still to be
    written, in this order, are the texts written since the capture. *)
Definition late_P (h : list str) (v : view) (r : str) : Prop :=
  h ≠ [] ∧ v_header v = Some c
  ∧ ∃ x ss, v_files v = app_last us (utf8_encode x) ++ (seeded c <$> ss)
            ∧ x ++ concat ss ++ r = concat h.

Definition late_Q (h : list str) (v : view) : Prop :=
  (h = [] → v_header v = None ∧ v_files v = us)
  ∧ (h ≠ [] → late_P h v []).

Lemma late_roll (h : list str) (v : view) (r : str) :
  late_P h v r → late_P h (v_roll v) r.
Proof.
  intros (Hne & Hv & x & ss & Hf & Hc). split; [done|]. split; [done|].
  exists x, (ss ++ [[]]). split.
  - simpl. rewrite Hf, fmap_app, app_assoc. f_equal. unfold v_seed. rewrite Hv.
    simpl. unfold seeded. simpl. by rewrite app_nil_r.
  - rewrite concat_app. simpl. by rewrite app_nil_r.
Qed.

Lemma late_put (h : list str) (v : view) (r : str) (n : nat) :
  late_P h v r → late_P h (v_put (take n r) v) (drop n r).
Proof.
  intros (Hne & Hv & x & ss & Hf & Hc). split; [done|]. split; [done|].
  destruct ss as [|s ss _] using rev_ind.
  - exists (x ++ take n r), []. split.
    + simpl. rewrite Hf. simpl. rewrite !app_nil_r.
      by rewrite app_last_twice, utf8_encode_app.
    + simpl in *. rewrite <- Hc, <- !app_assoc. by rewrite take_drop.
  - exists x, (ss ++ [s ++ take n r]). split.
    + simpl. rewrite Hf, !fmap_app. simpl.
      rewrite app_assoc, app_last_snoc, <- app_assoc. do 3 f_equal.
      unfold seeded. by rewrite utf8_encode_app, app_assoc.
    + rewrite <- Hc, !concat_app. simpl. rewrite !app_nil_r, <- !app_assoc.
      by rewrite take_drop.
Qed.

Lemma late_session (fuel : nat) (w : FileWriter) (fs : FS) (after : list str) :
  wf w → startswith c (text "# ") = true →
  Forall encodable (c :: after) →
  header w = None → files_content w fs = us →
  holds_at late_Q late_P [] (c :: after) (write_each fuel w fs (c :: after)).
Proof.
  intros Hw Hc Henc Hh Hus.
  assert (Htr : truthy (Some c) = true).
  { pose proof (startswith_nonempty c Hc) as Hne. clear -Hne. by destruct c. }
  apply (write_each_invariant late_Q late_P (first_is_header c)); try done.
  - apply late_roll.
  - apply late_put.
  - intros h v x [Hnil Hcons] Hx.
    destruct (decide (h = [])) as [->|Hne].
    + rewrite (Hx eq_refl). destruct (Hnil eq_refl) as [Hv Hf].
      split; [done|]. rewrite v_header_capture, v_capture_files, Hv.
      split; [unfold capture_header; simpl; by rewrite Hc|].
      exists [], []. rewrite Hf. simpl. split; [|by rewrite app_nil_r].
      by rewrite app_nil_r, app_last_nil_r.
    + destruct (Hcons Hne) as (_ & Hv & y & ss & Hf & Hcat).
      split; [by destruct h|]. rewrite v_header_capture, v_capture_files, Hv.
      split; [by rewrite capture_header_truthy|].
      exists y, ss. split; [done|].
      rewrite app_nil_r in Hcat. rewrite concat_app. simpl.
      by rewrite app_nil_r, app_assoc, Hcat.
  - intros h v HP. pose proof HP as (Hne & _). by split.
  - apply Forall_cons in Henc as [Hec Hea].
    simpl. split; [done|]. split; [done|].
    assert (Hgen : ∀ h, h ≠ [] → all_ok (first_is_header c) h after).
    { clear -Hea. induction Hea as [|x xs Hx Hxs IH]; intros h Hne; [done|].
      simpl. split; [done|]. split; [by intros ->|]. apply IH. by destruct h. }
    by apply Hgen.
Qed.

End late_from.

Lemma concat_stream_files_plain (b0 : str) (bs : list str) :
  concat (stream_files [] b0 bs) = utf8_encode (concat (b0 :: bs)).
Proof.
  change (stream_files [] b0 bs) with (utf8_encode <$> (b0 :: bs)).
  symmetry. apply utf8_encode_concat.
Qed.

Lemma first_header_here (before : list str) (c : str) (after : list str) :
  Forall (λ x, startswith x (text "# ") = false) before →
  startswith c (text "# ") = true →
  first_header (before ++ c :: after) = Some c.
Proof.
  intros Hb Hc. unfold first_header. rewrite fold_left_app.
  rewrite (first_header_plain before) by done. simpl.
  unfold capture_header at 2. simpl. rewrite Hc.
  apply fold_capture_truthy. pose proof (startswith_nonempty c Hc). by destruct c.
Qed.

(** The writes up to the first heading, and all the writes: what the files
    hold when the header is captured, and what they hold in the end. *)
Lemma session_late (fuel : nat) (base : Path) (k : Z)
    (force : bool) (fs : FS) (before : list str) (c : str) (after : list str) :
  Forall encodable (before ++ c :: after) →
  Forall (λ x, startswith x (text "# ") = false) before →
  startswith c (text "# ") = true →
  (0 < k → len (utf8_encode c) ≤ k * 1024) →
  Forall (λ x, (length x ≤ fuel)%nat) (before ++ c :: after) →
  ∃ w1 fs1 w fs' pieces x ss,
    session fuel base k force fs before = Returned w1 fs1
    ∧ header w1 = None
    ∧ pieces ≠ []
    ∧ files_content w1 fs1 = utf8_encode <$> pieces
    ∧ concat pieces = concat before
    ∧ session fuel base k force fs (before ++ c :: after) = Returned w fs'
    ∧ header w = Some c
    ∧ files_content w fs'
      = app_last (utf8_encode <$> pieces) (utf8_encode x) ++ (seeded c <$> ss)
    ∧ x ++ concat ss = concat (c :: after)
    ∧ take (length (generated_files w1)) (generated_files w) = generated_files w1.
Proof.
  intros Henc Hplain Hc Hfit Hlen.
  apply Forall_app in Henc as [Henc1 Henc2]. apply Forall_app in Hlen as [Hlen1 Hlen2].
  (* the writes before the header *)
  assert (Hnone : first_header before = None) by (by apply first_header_plain).
  assert (Hret1 : returned (session fuel base k force fs before)).
  { apply session_returns; try done. intros Hk. rewrite Hnone.
    unfold fits, len. simpl. lia. }
  pose proof (session_wf fuel base k force fs before) as (Hw1 & HB1 & Hbase1).
  pose proof (session_stream fuel _ _ before (wf_init base k force fs)
                ltac:(rewrite <- surjective_pairing, view_init, init_split_size; done)
                Henc1 ltac:(by destruct before as [|? ?]; [|apply Forall_cons in Hplain as [_ ?]]))
    as Hst1.
  (* all the writes *)
  assert (Hret : returned (session fuel base k force fs (before ++ c :: after))).
  { apply session_returns; try done; [by apply Forall_app|..|by apply Forall_app].
    intros Hk. rewrite first_header_here by done. by apply Hfit. }
  pose proof (session_wf fuel base k force fs (before ++ c :: after))
    as (Hw & HB & Hbase).
  unfold session in *. rewrite write_each_app in *.
  destruct (write_each fuel _ _ before) as [w1 fs1|] eqn:H1; [|done].
  simpl in Hw1, HB1, Hbase1.
  destruct Hst1 as (Hh1 & (b0 & bs & Hf1 & Hcat1) & _). simpl in Hh1, Hf1.
  rewrite Hnone in Hh1, Hf1. simpl in Hf1. rewrite app_nil_r in Hcat1.
  change (stream_files [] b0 bs) with (utf8_encode <$> (b0 :: bs)) in Hf1.
  assert (Hne : b0 :: bs ≠ []) by done.
  generalize dependent (b0 :: bs). intros pieces Hf1 Hcat1 Hne.
  assert (Hus : utf8_encode <$> pieces ≠ []) by (by destruct pieces).
  pose proof (late_session c (utf8_encode <$> pieces) Hus fuel w1 fs1 after
                Hw1 Hc Henc2 Hh1 Hf1) as Hlate.
  destruct (write_each fuel w1 fs1 (c :: after)) as [w fs'|] eqn:H2; [|done].
  destruct Hlate as [_ Hcons]. destruct Hcons as (_ & Hh & x & ss & Hf & Hcat); [done|].
  simpl in Hw, HB, Hbase, Hh, Hf. rewrite app_nil_r in Hcat.
  exists w1, fs1, w, fs', pieces, x, ss.
  do 9 (split; [done|]).
  assert (Hn : length (generated_files w1) = length (utf8_encode <$> pieces)).
  { rewrite <- Hf1. unfold files_content. by rewrite length_fmap. }
  apply generated_take; try done; [congruence|congruence|].
  apply (f_equal length) in Hf. unfold files_content in Hf.
  rewrite length_fmap, length_app, length_app_last in Hf by done. lia.
Qed.

(** C6, as the code has it.  The header is the first text written that
    begins with the two characters of a heading, wherever it comes in the
    sequence: while no such text has been written there is no header and the
    files hold the written text and nothing else; once it has been written
    (and fits the budget) it is the header for good, the files that existed
    then are still the first ones generated, and every file created later
    starts with the header.  The files that existed then are given no
    header afterwards: in the end they hold what they held at the capture,
    the last of them with text [x] appended, and the files created later
    hold the header followed by the pieces [ss], where [x] and the pieces,
    end to end, are the texts written from the header on. *)
Theorem C6_header_capture_and_seeding (fuel : nat) (base : Path) (k : Z)
    (force : bool) (fs : FS) (before : list str) (c : str) (after : list str) :
  Forall encodable (before ++ c :: after) →
  Forall (λ x, startswith x (text "# ") = false) before →
  startswith c (text "# ") = true →
  (0 < k → len (utf8_encode c) ≤ k * 1024) →
  Forall (λ x, (length x ≤ fuel)%nat) (before ++ c :: after) →
  ∃ w1 fs1 w fs' x ss,
    session fuel base k force fs before = Returned w1 fs1
    ∧ header w1 = None
    ∧ concat (files_content w1 fs1) = utf8_encode (concat before)
    ∧ session fuel base k force fs (before ++ c :: after) = Returned w fs'
    ∧ header w = Some c
    ∧ take (length (generated_files w1)) (generated_files w) = generated_files w1
    ∧ Forall (λ file, utf8_encode c `prefix_of` content fs' file)
             (drop (length (generated_files w1)) (generated_files w))
    ∧ x ++ concat ss = concat (c :: after)
    ∧ content fs' <$> generated_files w1
      = app_last (files_content w1 fs1) (utf8_encode x)
    ∧ content fs' <$> drop (length (generated_files w1)) (generated_files w)
      = (λ s, utf8_encode c ++ utf8_encode s) <$> ss.
Proof.
  intros Henc Hplain Hc Hfit Hlen.
  destruct (session_late fuel base k force fs before c after Henc Hplain Hc Hfit Hlen)
    as (w1 & fs1 & w & fs' & pieces & x & ss & H1 & Hh1 & Hne & Hf1 & Hcat1 & H2 & Hh
        & Hf & Hcat & Htake).
  exists w1, fs1, w, fs', x, ss.
  assert (Hn : length (generated_files w1) = length (app_last (utf8_encode <$> pieces)
                                                             (utf8_encode x))).
  { rewrite length_app_last by (by destruct pieces). rewrite <- Hf1.
    unfold files_content. by rewrite length_fmap. }
  assert (Hdrop : content fs' <$> drop (length (generated_files w1)) (generated_files w)
                  = seeded c <$> ss).
  { rewrite fmap_drop. fold (files_content w fs'). rewrite Hf, Hn.
    by rewrite drop_app_length. }
  do 2 (split; [done|]). split; [by rewrite Hf1, <- utf8_encode_concat, Hcat1|].
  do 3 (split; [done|]). split.
  { assert (Hall : Forall (prefix (utf8_encode c))
                      (content fs' <$> drop (length (generated_files w1))
                                            (generated_files w))).
    { rewrite Hdrop. apply Forall_fmap, Forall_forall. intros s _.
      by exists (utf8_encode s). }
    rewrite Forall_fmap in Hall. exact Hall. }
  split; [done|]. split; [|done].
  rewrite <- Htake at 1. rewrite fmap_take. fold (files_content w fs').
  rewrite Hf, Hn, take_app_length. by rewrite Hf1.
Qed.

Lemma C6_witness :
  let before := [text "intro" ++ [10]] in
  let c := text "# Title" ++ [10] in
  let after := [replicate 1100 120; replicate 1100 121] in
  let out := mkPath false ["out.md"] in
  ∃ w1 fs1 w fs' x ss,
    session 1100 out 1 false ∅ before = Returned w1 fs1
    ∧ header w1 = None
    ∧ concat (files_content w1 fs1) = utf8_encode (concat before)
    ∧ session 1100 out 1 false ∅ (before ++ c :: after) = Returned w fs'
    ∧ header w = Some c
    ∧ take (length (generated_files w1)) (generated_files w) = generated_files w1
    ∧ Forall (λ file, utf8_encode c `prefix_of` content fs' file)
             (drop (length (generated_files w1)) (generated_files w))
    ∧ x ++ concat ss = concat (c :: after)
    ∧ content fs' <$> generated_files w1
      = app_last (files_content w1 fs1) (utf8_encode x)
    ∧ content fs' <$> drop (length (generated_files w1)) (generated_files w)
      = (λ s, utf8_encode c ++ utf8_encode s) <$> ss.
Proof.
  apply C6_header_capture_and_seeding.
  - all_encodable.
  - repeat constructor.
  - reflexivity.
  - intros _. vm_compute. discriminate.
  - all_short.
Defined.

(** C6 as stated fails: the first write does not begin like a heading, yet
    the second write, which does, is captured as the header, and the third
    write, too long for the first file, finds that header at the top of the
    second file. *)
Lemma C6_counterexample :
  let contents := [text "abc"; text "# h"; replicate 1030 120] in
  let out := mkPath false ["out.md"] in
  ∃ w fs', session 1030 out 1 false ∅ contents = Returned w fs'
           ∧ startswith (text "abc") (text "# ") = false
           ∧ header w = Some (text "# h")
           ∧ files_content w fs'
             = [utf8_encode (text "abc# h" ++ replicate 1018 120);
                utf8_encode (text "# h" ++ replicate 12 120)].
Proof.
  cbv zeta. eexists _, _. split; [vm_compute; reflexivity|].
  split; [reflexivity|]. split; vm_compute; reflexivity.
Qed.

(* ================================================================== *)
(** * C10: the files put end to end *)
(* ================================================================== *)











(* ================================================================== *)
(** * A header longer than the budget *)
(* ================================================================== *)

(** Once the header is longer than the budget and the current file is full,
    each pass opens one more file holding the header, writes nothing of the
    text and goes round again. *)
Lemma stuck_pass (w : FileWriter) (fs : FS) (r : str) :
  wf w → r ≠ [] →
  Utils.split_size w < len (utf8_encode (seed w)) →
  Utils.split_size w ≤ current_size w →
  write_pass w fs r = Continue' (next_file w fs) r.
Proof.
  intros Hw Hr Hbig Hfull. rewrite write_pass_shape.
  assert (Hroll : rolled w fs = next_file w fs).
  { unfold rolled. destruct (Z.eqb_spec (Z.max 0 (Utils.split_size w - current_size w)) 0);
      [done|lia]. }
  rewrite Hroll.
  assert (Hav : available (next_file w fs) < 0).
  { unfold available. rewrite next_file_unfold by done. simpl. lia. }
  assert (Hlen : 0 < len (utf8_encode r)).
  { pose proof (utf8_encode_length_ge r). unfold len.
    destruct r; [done|simpl in *; lia]. }
  destruct (Z.leb_spec (len (utf8_encode r)) (available (next_file w fs))); [lia|].
  replace (Z.to_nat (available (next_file w fs))) with 0%nat by lia. simpl.
  destruct (Z.eqb_spec (available (next_file w fs)) 0); [lia|done].
Qed.

Lemma next_file_fields (w : FileWriter) (fs : FS) :
  wf w →
  Utils.split_size (next_file w fs).1 = Utils.split_size w
  ∧ seed (next_file w fs).1 = seed w
  ∧ current_size (next_file w fs).1 = len (utf8_encode (seed w)).
Proof. intros Hw. by rewrite next_file_unfold. Qed.

Lemma stuck_loop (fuel : nat) (w : FileWriter) (fs : FS) (r : str) :
  wf w → r ≠ [] → 0 < Utils.split_size w →
  Utils.split_size w < len (utf8_encode (seed w)) →
  Utils.split_size w ≤ current_size w →
  ∃ w' fs', write_loop fuel w fs r = OutOfFuel w' fs' r
            ∧ files_content w' fs'
              = files_content w fs ++ replicate fuel (utf8_encode (seed w)).
Proof.
  revert w fs. induction fuel as [|fuel IH]; intros w fs Hw Hr HB Hbig Hfull.
  { exists w, fs. destruct r; [done|]. simpl. by rewrite app_nil_r. }
  destruct r as [|c r]; [done|]. cbn [write_loop].
  rewrite stuck_pass by done. unfold Continue'.
  destruct (IH (next_file w fs).1 (next_file w fs).2) as (w' & fs' & Hloop & Hfiles).
  - apply wf_next_file; [done|lia].
  - done.
  - destruct (next_file_fields w fs Hw) as (-> & _ & _). done.
  - destruct (next_file_fields w fs Hw) as (-> & -> & _). done.
  - destruct (next_file_fields w fs Hw) as (-> & _ & ->). lia.
  - exists w', fs'. split; [done|]. rewrite Hfiles.
    destruct (next_file_fields w fs Hw) as (_ & -> & _).
    rewrite files_content_next_file by (done || lia).
    by rewrite <- app_assoc.
Qed.

(** C1 fails on the code.  Budget 1 KB; the one text written begins like a
    heading and is 1102 bytes long.  It becomes the header; file 1 takes its
    first 1024 bytes; every further pass of the loop creates one more file
    that holds the 1102 bytes of the header and nothing else, and leaves the
    78 characters still to be written where they are.  Whatever the fuel,
    the call has not returned, and every file after the first is over the
    budget without holding a forced chunk. *)
Theorem C1_header_over_budget_never_returns (fuel : nat) :
  let hdr := text "# " ++ replicate 1100 120 in
  ∃ w fs', session (S fuel) (mkPath false ["out.md"]) 1 false ∅ [hdr]
           = OutOfFuel w fs' (drop 1024 hdr)
           ∧ files_content w fs'
             = utf8_encode (take 1024 hdr) :: replicate (S fuel) (utf8_encode hdr)
           ∧ len (utf8_encode hdr) = 1102.
Proof.
  cbv zeta. set (hdr := text "# " ++ replicate 1100 120).
  set (w0 := (FileWriter_init (mkPath false ["out.md"]) 1 false ∅).1).
  set (fs0 := (FileWriter_init (mkPath false ["out.md"]) 1 false ∅).2).
  assert (Hw0 : wf (capture w0 hdr)) by apply wf_capture, wf_init.
  destruct (write_pass_wf (capture w0 hdr) fs0 hdr Hw0 ltac:(vm_compute; discriminate))
    as [Hw1 HB1].
  set (p := write_pass (capture w0 hdr) fs0 hdr) in *.
  assert (Hp : p = Continue (pass_state p).1 (pass_state p).2 (drop 1024 hdr)).
  { vm_compute. reflexivity. }
  destruct (stuck_loop fuel (pass_state p).1 (pass_state p).2 (drop 1024 hdr) Hw1)
    as (w & fs' & Hloop & Hfiles).
  - vm_compute. discriminate.
  - rewrite HB1. vm_compute. reflexivity.
  - vm_compute. reflexivity.
  - vm_compute. discriminate.
  - exists w, fs'. split; [|split].
    + unfold session. fold w0 fs0. cbn [write_each]. rewrite write_unfold.
      replace (Utils.split_size w0 =? 0) with false by (vm_compute; reflexivity).
      assert (Hh : hdr = 35 :: (32 :: replicate 1100 120)) by reflexivity.
      rewrite Hh at 3. cbn [write_loop]. rewrite <- Hh. fold p.
      rewrite Hp. rewrite Hloop. reflexivity.
    + rewrite Hfiles. vm_compute. reflexivity.
    + vm_compute. reflexivity.
Qed.

(* ================================================================== *)
(** * The blocks of the merged files in the output *)
(* ================================================================== *)













Lemma markdown_content_plain (relative_path : Path) (lang : string) (content : str) :
  startswith (Merger.markdown_content relative_path lang content) (text "# ") = false.
Proof. reflexivity. Qed.

Lemma markdown_content_nonempty (relative_path : Path) (lang : string) (content : str) :
  Merger.markdown_content relative_path lang content ≠ [].
Proof. discriminate. Qed.

Section blocks.
Context (gb18030_decode : bytes → option str).


(** What [process_file] hands to the writer for one path, read from [fs]:
    nothing if the file is empty. *)
Definition block_of (m : Merger.CodesMerger) (fs : FS) (file_path : Path)
  : option str :=
  match relative_to file_path (Merger.source_dir m),
        get_file_content gb18030_decode fs file_path with
  | Ok relative_path, Ok content =>
    if Merger.is_empty content then None
    else Some (Merger.markdown_content relative_path
                 (get_language_by_extension file_path) content)
  | _, _ => None
  end.




Lemma block_of_nonempty (m : Merger.CodesMerger) (fs : FS) (p : Path) (b : str) :
  block_of m fs p = Some b → b ≠ [].
Proof.
  unfold block_of. repeat case_match; try done. intros [= <-].
  apply markdown_content_nonempty.
Qed.

End blocks.

(* ================================================================== *)
(** * The pool of worker threads *)
(* ================================================================== *)





Section pool.
Context (gb18030_decode : bytes → option str).
(** The run: the merger, the file system it starts from, the writer as the
    main thread leaves it, the document header, the blocks of the files
    queued and the number of threads. *)
Context (m : Merger.CodesMerger) (fs0 : FS) (w1 : FileWriter) (title : str).
Context (blocks : list str) (n : nat).
Hypothesis title_nonempty : title ≠ [].
Hypothesis title_fits :
  Utils.split_size w1 ≠ 0 → len (utf8_encode title) ≤ Utils.split_size w1.
Hypothesis header_w1 : header w1 = Some title.
























(** ** The threads come to an end *)







(** ** What the files hold *)




End pool.

(* ================================================================== *)
(** * C3: the blocks in the output of a run *)
(* ================================================================== *)

Section run.
Context (gb18030_decode : bytes → option str).
Context (fnmatch : string → string → bool).
Context (rglob : Path → list Path) (is_file : Path → bool).
Context (now : string).






End run.

(* ================================================================== *)
(** * The language tag of a fenced block *)
(* ================================================================== *)

Lemma lower_css : lower ".css" = ".css".
Proof. reflexivity. Qed.

(** C7 as stated fails: a file named style.css gets the tag html. *)
Lemma C7_counterexample :
  suffix (mkPath false ["style.css"]) = ".css"
  ∧ get_language_by_extension (mkPath false ["style.css"]) = "html"
  ∧ get_language_by_extension (mkPath false ["style.css"]) ≠ "css".
Proof.
  split; [vm_compute; reflexivity|]. split; [vm_compute; reflexivity|].
  vm_compute. discriminate.
Qed.

(** C7, as the code has it.  For every file whose extension, lower-cased,
    is .css the tag is html, the language the table files that extension
    under; for every file whose lower-cased extension is not a key of the
    table the tag is plaintext. *)
Theorem C7_language_tag (file_path : Path) :
  (lower (suffix file_path) = ".css" →
   get_language_by_extension file_path = "html")
  ∧ (lower (suffix file_path) ∉ dom FILE_EXTENSION_LANGUAGE_MAP →
     get_language_by_extension file_path = "plaintext").
Proof.
  unfold get_language_by_extension. split.
  - intros ->. reflexivity.
  - intros H. apply not_elem_of_dom in H. by rewrite H.
Qed.

Lemma C7_witness :
  lower (suffix (mkPath false ["src"; "Site.CSS"])) = ".css"
  ∧ get_language_by_extension (mkPath false ["src"; "Site.CSS"]) = "html"
  ∧ (lower (suffix (mkPath false ["notes.txt"])) ∉ dom FILE_EXTENSION_LANGUAGE_MAP)
  ∧ get_language_by_extension (mkPath false ["notes.txt"]) = "plaintext".
Proof.
  assert (H1 : lower (suffix (mkPath false ["src"; "Site.CSS"])) = ".css")
    by (vm_compute; reflexivity).
  assert (H2 : lower (suffix (mkPath false ["notes.txt"]))
               ∉ dom FILE_EXTENSION_LANGUAGE_MAP).
  { apply not_elem_of_dom. vm_compute. reflexivity. }
  split; [exact H1|]. split.
  - exact (proj1 (C7_language_tag (mkPath false ["src"; "Site.CSS"])) H1).
  - split; [exact H2|].
    exact (proj2 (C7_language_tag (mkPath false ["notes.txt"])) H2).
Defined.

(* ================================================================== *)
(** * Reading a file *)
(* ================================================================== *)

(** C8 holds for a path that is no file: the empty string comes back. *)
Lemma get_file_content_missing (gb : bytes → option str) (fs : FS) (p : Path) :
  fs !! p = None → get_file_content gb fs p = Ok [].
Proof. intros H. unfold get_file_content, read_text. by rewrite H. Qed.

(** Bytes written by ['Hello World'.encode('utf-16')] (byte order mark, then
    little-endian code units) are read back as the text. *)
Lemma get_file_content_utf16 (gb : bytes → option str) :
  get_file_content gb
    {[ mkPath false ["test1.py"] :=
         [0xFF; 0xFE; 72; 0; 101; 0; 108; 0; 108; 0; 111; 0; 32; 0;
          87; 0; 111; 0; 114; 0; 108; 0; 100; 0] ]}
    (mkPath false ["test1.py"])
  = Ok (text "Hello World").
Proof. vm_compute. reflexivity. Qed.

(** C8 fails on the code.  The file holds the four bytes of the word cafe
    with an acute accent in Latin-1.  They are not UTF-8; the next attempt,
    UTF-16, finds no byte order mark and raises UnicodeError, which the
    handler for UnicodeDecodeError does not catch: the exception leaves
    [get_file_content], and Latin-1, which reads the file, is never tried. *)
Theorem C8_latin1_file_raises (gb18030_decode : bytes → option str) :
  let file_path := mkPath false ["menu.txt"] in
  let fs : FS := {[ file_path := [99; 97; 102; 233] ]} in
  read_text gb18030_decode fs file_path UTF_8 = Raise UnicodeDecodeError
  ∧ read_text gb18030_decode fs file_path UTF_16 = Raise UnicodeError
  ∧ read_text gb18030_decode fs file_path LATIN_1 = Ok [99; 97; 102; 233]
  ∧ get_file_content gb18030_decode fs file_path = Raise UnicodeError.
Proof. cbv zeta. repeat split; vm_compute; reflexivity. Qed.

(* ================================================================== *)
(** * Constructing the writer on a path that holds a file *)
(* ================================================================== *)

(** C4 fails on the code.  The path holds a file and overwriting is not
    forced: the constructor returns a writer all the same (the model of the
    constructor has no way to raise, as the code has no raise), and the file
    is empty afterwards. *)
Theorem C4_existing_file_is_truncated (base : Path) (original : bytes)
    (split_size : Z) :
  let fs : FS := {[ base := original ]} in
  let st := FileWriter_init base split_size false fs in
  exists_ fs base = true
  ∧ Utils.force_overwrite st.1 = false
  ∧ generated_files st.1 = [current_file st.1]
  ∧ content st.2 (current_file st.1) = []
  ∧ (split_size ≤ 0 → current_file st.1 = base ∧ st.2 !! base = Some []).
Proof.
  cbv zeta. rewrite init_unfold. simpl. unfold write_text.
  split; [unfold exists_; by rewrite lookup_singleton_eq|].
  split; [done|]. split; [done|]. split; [by rewrite content_insert_eq|].
  intros Hk. unfold budget_of. destruct (Z.ltb_spec 0 split_size); [lia|].
  simpl. split; [done|]. by rewrite lookup_insert_eq.
Qed.

(* ================================================================== *)
(** * Which files are found *)
(* ================================================================== *)

Section inclusion.
Context (fnmatch : string → string → bool).
Context (is_dir : Path → bool) (rglob : Path → list Path) (is_file : Path → bool).

(** The words of the specification. *)

(** A pattern matches a path when it matches its name or its full text. *)
Definition glob_matches (path : Path) (pattern : string) : Prop :=
  fnmatch (name path) pattern = true ∨ fnmatch (to_str path) pattern = true.

(** The file itself or one of its ancestors matches an ignore pattern. *)
Definition ignored (ignore_patterns : list string) (file : Path) : Prop :=
  ∃ path pattern, (path = file ∨ path ∈ parents file)
                  ∧ pattern ∈ ignore_patterns ∧ glob_matches path pattern.

Definition matches_a_pattern (file_patterns : list string) (file : Path) : Prop :=
  ∃ pattern, pattern ∈ file_patterns ∧ glob_matches file pattern.

Definition extension_of_a_language (languages : list string) (file : Path) : Prop :=
  ∃ lang exts, lang ∈ languages ∧ SUPPORTED_LANGUAGES !! lang = Some exts
               ∧ suffix file ∈ exts.

(** The code against them. *)

Lemma any_pattern_matches_spec (n s : string) (patterns : list string) :
  Utils.any_pattern_matches fnmatch n s patterns = true
  ↔ ∃ pattern, pattern ∈ patterns
               ∧ (fnmatch n pattern = true ∨ fnmatch s pattern = true).
Proof.
  induction patterns as [|p ps IH]; simpl.
  { split; [done|]. intros (? & []%elem_of_nil & _). }
  destruct (fnmatch n p || fnmatch s p) eqn:Hp.
  - split; [|done]. intros _. exists p. split; [left|].
    by apply orb_true_iff in Hp.
  - rewrite IH. apply orb_false_iff in Hp as [Hn Hs]. split.
    + intros (q & Hq & Hm). exists q. split; [by right|done].
    + intros (q & Hq & Hm). apply elem_of_cons in Hq as [-> | Hq].
      * destruct Hm; congruence.
      * by exists q.
Qed.

Lemma matches_pattern_spec (file : Path) (patterns : list string) :
  matches_pattern fnmatch file patterns = true ↔ matches_a_pattern patterns file.
Proof.
  unfold matches_pattern, matches_a_pattern, glob_matches.
  destruct patterns as [|p ps].
  - split; [done|]. intros (? & []%elem_of_nil & _).
  - apply any_pattern_matches_spec.
Qed.

Lemma any_ignore_matches_spec (n s : string) (patterns : list string) :
  Merger.any_ignore_matches fnmatch n s patterns = true
  ↔ ∃ pattern, pattern ∈ patterns
               ∧ (fnmatch n pattern = true ∨ fnmatch s pattern = true).
Proof.
  induction patterns as [|p ps IH]; simpl.
  { split; [done|]. intros (? & []%elem_of_nil & _). }
  destruct (fnmatch n p || fnmatch s p) eqn:Hp.
  - split; [|done]. intros _. exists p. split; [left|].
    by apply orb_true_iff in Hp.
  - rewrite IH. apply orb_false_iff in Hp as [Hn Hs]. split.
    + intros (q & Hq & Hm). exists q. split; [by right|done].
    + intros (q & Hq & Hm). apply elem_of_cons in Hq as [-> | Hq].
      * destruct Hm; congruence.
      * by exists q.
Qed.

Lemma should_ignore_chain_spec (m : Merger.CodesMerger) (file : Path) :
  Merger._should_ignore fnmatch m file
  || existsb (Merger._should_ignore fnmatch m) (parents file) = true
  ↔ ignored (Merger.ignore_patterns m) file.
Proof.
  unfold ignored, glob_matches, Merger._should_ignore.
  rewrite orb_true_iff, existsb_exists, any_ignore_matches_spec. split.
  - intros [(p & Hp & Hm)|(q & Hq & Hm)].
    + exists file, p. auto.
    + apply any_ignore_matches_spec in Hm as (p & Hp & Hm).
      exists q, p. split; [right; by apply list_elem_of_In|done].
  - intros (q & p & [-> | Hq] & Hp & Hm).
    + left. by exists p.
    + right. exists q. split; [by apply list_elem_of_In|].
      apply any_ignore_matches_spec. by exists p.
Qed.

Lemma collect_extensions_spec (languages : list string) (acc exts : gset string) :
  Merger.collect_extensions languages acc = Ok exts →
  ∀ e, e ∈ exts ↔ e ∈ acc ∨ ∃ lang s, lang ∈ languages
                                     ∧ SUPPORTED_LANGUAGES !! lang = Some s ∧ e ∈ s.
Proof.
  revert acc. induction languages as [|l ls IH]; intros acc H e; simpl in H.
  { injection H as <-. split; [auto|]. intros [? | (? & ? & []%elem_of_nil & _)]. done. }
  destruct (SUPPORTED_LANGUAGES !! l) as [s|] eqn:Hl; [|done].
  rewrite (IH _ H e), elem_of_union. split.
  - intros [[? | ?] | (lang & s' & ? & ? & ?)]; [by left|..].
    + right. exists l, s. split; [left|done].
    + right. exists lang, s'. split; [by right|done].
  - intros [? | (lang & s' & [-> | ?]%elem_of_cons & Hs & ?)]; [by left; left|..].
    + left. right. congruence.
    + right. by exists lang, s'.
Qed.

Lemma is_empty_true {A} (l : list A) : Merger.is_empty l = true ↔ l = [].
Proof. by destruct l. Qed.

Lemma should_include_spec (m : Merger.CodesMerger) (file : Path) :
  (∀ e, e ∈ Merger.extensions m
        ↔ ∃ lang s, lang ∈ Merger.languages m
                    ∧ SUPPORTED_LANGUAGES !! lang = Some s ∧ e ∈ s) →
  Merger._should_include fnmatch m file = true
  ↔ matches_a_pattern (Merger.file_patterns m) file
    ∨ extension_of_a_language (Merger.languages m) file.
Proof.
  intros Hext. unfold Merger._should_include, extension_of_a_language.
  rewrite <- (Hext (suffix file)), <- matches_pattern_spec.
  assert (H1 : Merger.is_empty (Merger.file_patterns m) = true →
               matches_pattern fnmatch file (Merger.file_patterns m) = false).
  { intros Hp%is_empty_true. by rewrite Hp. }
  assert (H2 : Merger.is_empty (Merger.languages m) = true →
               suffix file ∉ Merger.extensions m).
  { intros Hl%is_empty_true He. apply Hext in He as (? & ? & He & _).
    rewrite Hl in He. by apply elem_of_nil in He. }
  destruct (Merger.is_empty (Merger.languages m));
    destruct (Merger.is_empty (Merger.file_patterns m));
    destruct (matches_pattern fnmatch file (Merger.file_patterns m));
    simpl; rewrite ?bool_decide_eq_true;
    try specialize (H1 eq_refl); try specialize (H2 eq_refl);
    try (by intuition congruence).
  all: destruct (bool_decide_reflect (suffix file ∈ Merger.extensions m));
    intuition congruence.
Qed.

Lemma scan_spec (m : Merger.CodesMerger) (listing found : list Path) (file : Path) :
  file ∈ Merger.scan fnmatch is_file m listing found
  ↔ file ∈ found
    ∨ (file ∈ listing ∧ is_file file = true
       ∧ (Merger._should_ignore fnmatch m file
          || existsb (Merger._should_ignore fnmatch m) (parents file) = false)
       ∧ Merger._should_include fnmatch m file = true).
Proof.
  revert found. induction listing as [|p ps IH]; intros found; simpl.
  { split; [auto|]. intros [? | ([]%elem_of_nil & _)]. done. }
  destruct (is_file p) eqn:Hf; simpl.
  2: { rewrite IH. split; intros [? | (Hin & Hfile & ?)]; auto.
       - right. split; [by right|done].
       - apply elem_of_cons in Hin as [-> | ?]; [congruence|auto]. }
  destruct (Merger._should_ignore fnmatch m p
            || existsb (Merger._should_ignore fnmatch m) (parents p)) eqn:Hi.
  { rewrite IH. split; intros [? | (Hin & Hfile & Hig & ?)]; auto.
    - right. split; [by right|done].
    - apply elem_of_cons in Hin as [-> | ?]; [congruence|auto]. }
  destruct (Merger._should_include fnmatch m p) eqn:Hinc.
  - rewrite IH, elem_of_app, list_elem_of_singleton. split.
    + intros [[? | ->] | (Hin & ?)]; [by left|..].
      * right. split; [left|done].
      * right. split; [by right|done].
    + intros [? | (Hin & ? & ? & ?)]; [by left; left|].
      apply elem_of_cons in Hin as [-> | ?]; [by left; right|by right].
  - rewrite IH. split; intros [? | (Hin & Hfile & Hig & ?)]; auto.
    + right. split; [by right|done].
    + apply elem_of_cons in Hin as [-> | ?]; [congruence|auto].
Qed.

(** C5.  For a merger built by its constructor, a path is among the files
    found exactly when the listing of the source directory yields it, it is
    a file, neither it nor any of its ancestors matches an ignore pattern,
    and it matches a file pattern or its extension belongs to one of the
    chosen languages.  With no language and no pattern nothing is found. *)
Theorem C5_found_files (source_dir output_file : Path)
    (languages file_patterns : list string) (split_size n_threads : Z)
    (ignore_patterns : list string) (force_overwrite : bool)
    (m : Merger.CodesMerger) :
  Merger.CodesMerger_init is_dir source_dir output_file languages file_patterns
    split_size n_threads ignore_patterns force_overwrite = Ok m →
  (∀ file,
     file ∈ Merger.find_files fnmatch rglob is_file m
     ↔ file ∈ rglob source_dir ∧ is_file file = true
       ∧ ¬ ignored ignore_patterns file
       ∧ (matches_a_pattern file_patterns file
          ∨ extension_of_a_language languages file))
  ∧ (languages = [] → file_patterns = [] →
     Merger.find_files fnmatch rglob is_file m = []).
Proof.
  unfold Merger.CodesMerger_init. intros Hinit.
  destruct (is_dir source_dir); simpl in Hinit; [|done].
  destruct (Merger.collect_extensions languages ∅) as [exts|] eqn:Hexts; [|done].
  injection Hinit as <-.
  pose proof (collect_extensions_spec languages ∅ exts Hexts) as Hspec.
  set (m := Merger.mkCodesMerger _ _ _ _ _ _ _ _ _).
  assert (Hext : ∀ e, e ∈ Merger.extensions m
                      ↔ ∃ lang s, lang ∈ Merger.languages m
                                  ∧ SUPPORTED_LANGUAGES !! lang = Some s ∧ e ∈ s).
  { intros e. simpl. rewrite Hspec. split; [|auto]. intros [[]%elem_of_empty|?]. done. }
  assert (Hall : ∀ file,
     file ∈ Merger.find_files fnmatch rglob is_file m
     ↔ file ∈ rglob source_dir ∧ is_file file = true
       ∧ ¬ ignored ignore_patterns file
       ∧ (matches_a_pattern file_patterns file
          ∨ extension_of_a_language languages file)).
  { intros file. unfold Merger.find_files. rewrite scan_spec.
    pose proof (should_include_spec m file Hext) as Hinc.
    pose proof (should_ignore_chain_spec m file) as Hig.
    change (Merger.ignore_patterns m) with ignore_patterns in Hig.
    change (Merger.languages m) with languages in Hinc.
    change (Merger.file_patterns m) with file_patterns in Hinc.
    change (Merger.source_dir m) with source_dir.
    rewrite Hinc, <- Hig, not_true_iff_false. split.
    - intros [[]%elem_of_nil | ?]. done.
    - auto. }
  split; [exact Hall|].
  intros -> ->. apply elem_of_nil_inv. intros file Hin.
  apply Hall in Hin as (_ & _ & _ & [(? & []%elem_of_nil & _)|(? & ? & []%elem_of_nil & _)]).
Qed.

End inclusion.

(** For the example: a matcher for patterns made of literal characters,
    [?] and [*], as [fnmatch] reads them. *)
Fixpoint wildcard (pattern : string) : string → bool :=
  match pattern with
  | EmptyString => λ s, match s with EmptyString => true | _ => false end
  | String c pattern' =>
    if Ascii.eqb c "*" then
      fix star (s : string) : bool :=
        wildcard pattern' s
        || match s with
           | EmptyString => false
           | String _ s' => star s'
           end
    else λ s,
      match s with
      | EmptyString => false
      | String d s' => (Ascii.eqb c "?" || Ascii.eqb c d) && wildcard pattern' s'
      end
  end.

Definition example_listing : list Path :=
  [mkPath true ["proj"; "a.py"]; mkPath true ["proj"; "venv"];
   mkPath true ["proj"; "venv"; "b.py"]; mkPath true ["proj"; "style.css"];
   mkPath true ["proj"; "notes.txt"]].

Definition example_fnmatch (name pattern : string) : bool := wildcard pattern name.
Definition example_is_dir (p : Path) : bool :=
  bool_decide (p = mkPath true ["proj"] ∨ p = mkPath true ["proj"; "venv"]).
Definition example_rglob (_ : Path) : list Path := example_listing.
Definition example_is_file (p : Path) : bool := negb (example_is_dir p).

Lemma C5_witness :
  match Merger.CodesMerger_init example_is_dir (mkPath true ["proj"])
          (mkPath false ["out.md"]) ["python"] ["*.txt"] 0 4 ["venv"] false with
  | Raise _ => False
  | Ok m =>
    Merger.find_files example_fnmatch example_rglob example_is_file m
    = [mkPath true ["proj"; "a.py"]; mkPath true ["proj"; "notes.txt"]]
    ∧ (∀ file,
         file ∈ Merger.find_files example_fnmatch example_rglob example_is_file m
         ↔ file ∈ example_rglob (mkPath true ["proj"])
           ∧ example_is_file file = true
           ∧ ¬ ignored example_fnmatch ["venv"] file
           ∧ (matches_a_pattern example_fnmatch ["*.txt"] file
              ∨ extension_of_a_language ["python"] file))
    ∧ (["python"] = [] → ["*.txt"] = [] →
       Merger.find_files example_fnmatch example_rglob example_is_file m = [])
  end.
Proof.
  destruct (Merger.CodesMerger_init example_is_dir (mkPath true ["proj"])
              (mkPath false ["out.md"]) ["python"] ["*.txt"] 0 4 ["venv"] false)
    as [m|e] eqn:H.
  - split.
    + pose proof H as H'. vm_compute in H'. injection H' as <-.
      vm_compute. reflexivity.
    + exact (C5_found_files example_fnmatch example_is_dir example_rglob
               example_is_file _ _ _ _ _ _ _ _ m H).
  - vm_compute in H. discriminate.
Defined.

(* ================================================================== *)
(** * Two runs of the merger *)
(* ================================================================== *)











(* ================================================================== *)
(** * Invariants of the writer's state *)
(* ================================================================== *)

(** A property of the writer and the file system that each chunk written,
    each new file and each change of the header keeps is kept by a pass of
    the loop, by [write], and by any number of writes, whether or not the
    loop comes to an end.  No assumption is made on the text written. *)
Section state_invariant.
Context (I : FileWriter * FS → Prop).
Hypothesis I_put : ∀ st chunk, wf st.1 → I st → I (put st chunk).
Hypothesis I_roll :
  ∀ st, wf st.1 → Utils.split_size st.1 ≠ 0 → I st → I (roll st).
Hypothesis I_header : ∀ w fs h, I (w, fs) → I (set_header w h, fs).

Lemma I_rolled (w : FileWriter) (fs : FS) :
  wf w → Utils.split_size w ≠ 0 → I (w, fs) → I (rolled w fs).
Proof.
  intros Hw H0 HI. unfold rolled. case_match; [|done]. by apply (I_roll (w, fs)).
Qed.

Lemma I_capture (w : FileWriter) (fs : FS) (c : str) :
  I (w, fs) → I (capture w c, fs).
Proof. intros HI. unfold capture. case_match; [by apply I_header|done]. Qed.

Lemma write_pass_state (w : FileWriter) (fs : FS) (r : str) :
  wf w → Utils.split_size w ≠ 0 → I (w, fs) → I (pass_state (write_pass w fs r)).
Proof.
  intros Hw H0 HI. rewrite write_pass_shape.
  pose proof (wf_rolled w fs Hw H0) as Hw1.
  pose proof (budget_rolled w fs) as HB1.
  pose proof (I_rolled w fs Hw H0 HI) as HI1.
  assert (Hput : ∀ chunk, I (put (rolled w fs) chunk)) by (intros; by apply I_put).
  assert (Hrp : ∀ chunk, I (roll (put (rolled w fs) chunk))).
  { intros chunk. apply I_roll; [by apply wf_put| |done].
    rewrite budget_put. congruence. }
  repeat case_match; rewrite ?pass_state_Break', ?pass_state_Continue'; auto.
Qed.

Lemma write_loop_state (fuel : nat) (w : FileWriter) (fs : FS) (r : str) :
  wf w → Utils.split_size w ≠ 0 → I (w, fs) →
  I (outcome_state (write_loop fuel w fs r)).
Proof.
  revert w fs r. induction fuel as [|fuel IH]; intros w fs r Hw H0 HI.
  { by destruct r. }
  destruct r as [|c r]; [done|]. cbn [write_loop].
  pose proof (write_pass_state w fs (c :: r) Hw H0 HI) as HI'.
  destruct (write_pass_wf w fs (c :: r) Hw H0) as [Hw' HB'].
  destruct (write_pass w fs (c :: r)) as [w' fs'|w' fs' r']; simpl in *; [done|].
  apply IH; [done|congruence|done].
Qed.

Lemma write_state (fuel : nat) (w : FileWriter) (fs : FS) (content : str) :
  wf w → I (w, fs) → I (outcome_state (write fuel w fs content)).
Proof.
  intros Hw HI. rewrite write_unfold.
  pose proof (wf_capture w content Hw) as Hw'.
  pose proof (I_capture w fs content HI) as HI'.
  destruct (Z.eqb_spec (Utils.split_size w) 0) as [H0|H0].
  - cbn [outcome_state].
    pose proof (I_put (capture w content, fs) content Hw' HI') as HI''.
    by destruct (put (capture w content, fs) content).
  - apply write_loop_state; [done| |done]. by rewrite budget_capture.
Qed.

Lemma write_each_state (fuel : nat) (w : FileWriter) (fs : FS)
    (contents : list str) :
  wf w → I (w, fs) → I (outcome_state (write_each fuel w fs contents)).
Proof.
  revert w fs. induction contents as [|c cs IH]; intros w fs Hw HI; [done|].
  cbn [write_each]. pose proof (write_state fuel w fs c Hw HI) as HI'.
  destruct (write_wf fuel w fs c Hw) as [Hw' _].
  destruct (write fuel w fs c) as [w' fs'|w' fs' r']; simpl in *; [|done].
  by apply IH.
Qed.

Lemma session_state (fuel : nat) (base : Path) (k : Z) (force : bool) (fs : FS)
    (contents : list str) :
  I (FileWriter_init base k force fs) →
  I (outcome_state (session fuel base k force fs contents)).
Proof.
  intros HI. unfold session. apply write_each_state; [apply wf_init|].
  by rewrite <- surjective_pairing.
Qed.

End state_invariant.

(* ================================================================== *)
(** * Without a split size: one file *)
(* ================================================================== *)

Lemma write_each_no_split (fuel : nat) (contents : list str) (w : FileWriter)
    (fs : FS) (c0 : bytes) :
  Utils.split_size w = 0 → fs !! current_file w = Some c0 →
  ∃ w', write_each fuel w fs contents
        = Returned w' (<[current_file w := c0 ++ utf8_encode (concat contents)]> fs)
      ∧ Utils.split_size w' = 0
      ∧ current_file w' = current_file w
      ∧ generated_files w' = generated_files w
      ∧ current_size w' = current_size w + len (utf8_encode (concat contents))
      ∧ header w' = fold_left capture_header contents (header w).
Proof.
  revert w fs c0. induction contents as [|c cs IH]; intros w fs c0 H0 Hc.
  { exists w. cbn [write_each concat]. change (utf8_encode []) with (@nil Z).
    rewrite app_nil_r, insert_id by done. unfold len. simpl.
    repeat split; try done. lia. }
  cbn [write_each]. rewrite write_unfold, H0. cbn [Z.eqb].
  unfold put, _write_chunk, append_text. cbn [fst snd].
  assert (Hcur : current_file (capture w c) = current_file w).
  { unfold capture. by case_match. }
  assert (Hsz : current_size (capture w c) = current_size w).
  { unfold capture. by case_match. }
  assert (Hgen : generated_files (capture w c) = generated_files w).
  { unfold capture. by case_match. }
  rewrite Hcur, Hsz. unfold bytes in *. rewrite Hc. cbn [default].
  destruct (IH (set_current_size (capture w c)
                  (current_size w + len (utf8_encode c)))
              (<[current_file w := c0 ++ utf8_encode c]> fs)
              (c0 ++ utf8_encode c))
    as (w' & Hrun & HB & Hf & Hg & Hs & Hh).
  { simpl. by rewrite budget_capture. }
  { simpl. by rewrite Hcur, lookup_insert_eq. }
  simpl in Hrun, Hf, Hg, Hs, Hh. rewrite Hcur in Hrun, Hf.
  exists w'. cbn [concat fold_left]. rewrite utf8_encode_app, len_app.
  split.
  { etrans; [exact Hrun|]. f_equal. rewrite insert_insert_eq.
    by rewrite <- app_assoc. }
  rewrite Hg, Hgen, Hh, header_capture. repeat split; try done. lia.
Qed.

(** X2.  Split size 0 or below: whatever texts that encode are written,
    and however much, every write returns and the one output file, the base
    name, holds the texts end to end, also when a later text begins like a
    heading; the size the writer keeps is its length in bytes.  A file that
    was at the base name before is replaced, the others are as they were. *)
Theorem X2_no_split_one_file (fuel : nat) (base : Path) (k : Z) (force : bool)
    (fs : FS) (contents : list str) :
  k ≤ 0 → Forall encodable contents →
  ∃ w, session fuel base k force fs contents
       = Returned w (<[base := utf8_encode (concat contents)]> fs)
     ∧ get_generated_files w = [base]
     ∧ current_file w = base
     ∧ current_size w = len (utf8_encode (concat contents))
     ∧ header w = first_header contents.
Proof.
  intros Hk _. unfold session. rewrite init_unfold. cbn [fst snd].
  assert (HB : budget_of k = 0).
  { unfold budget_of. destruct (Z.ltb_spec 0 k); [lia|done]. }
  rewrite HB. cbn [Z.eqb]. unfold write_text. change (utf8_encode []) with (@nil Z).
  destruct (write_each_no_split fuel contents
              (mkFileWriter base 0 force 1 base 0 None [base])
              (<[base := []]> fs) [])
    as (w & Hrun & _ & Hf & Hg & Hs & Hh); [done|apply lookup_insert_eq|].
  simpl in Hrun, Hf, Hg, Hs, Hh. rewrite insert_insert_eq in Hrun.
  exists w. split; [exact Hrun|done].
Qed.

Lemma X2_witness :
  ∃ w, session 0 (mkPath false ["out.md"]) 0 false
         {[ mkPath false ["out.md"] := [1; 2; 3] ]}
         [text "# a"; text "b"; text "# c"]
       = Returned w {[ mkPath false ["out.md"] := utf8_encode (text "# ab# c") ]}
     ∧ get_generated_files w = [mkPath false ["out.md"]]
     ∧ current_file w = mkPath false ["out.md"]
     ∧ current_size w = 7
     ∧ header w = Some (text "# a").
Proof.
  destruct (X2_no_split_one_file 0 (mkPath false ["out.md"]) 0 false
              {[ mkPath false ["out.md"] := [1; 2; 3] ]}
              [text "# a"; text "b"; text "# c"] ltac:(lia) ltac:(all_encodable))
    as (w & Hrun & Hrest).
  exists w. split; [|exact Hrest].
  rewrite Hrun. f_equal.
Defined.

(* ================================================================== *)
(** * The size the writer keeps is the size of its current file *)
(* ================================================================== *)

Definition sized (st : FileWriter * FS) : Prop :=
  ∃ c, st.2 !! current_file st.1 = Some c ∧ current_size st.1 = len c.

Lemma sized_put (st : FileWriter * FS) (chunk : str) : sized st → sized (put st chunk).
Proof.
  intros (c & Hc & Hs). exists (c ++ utf8_encode chunk).
  unfold put, _write_chunk, append_text. cbn [fst snd set_current_size current_file
    current_size]. rewrite Hc, lookup_insert_eq, len_app, Hs. done.
Qed.

Lemma sized_roll (st : FileWriter * FS) : wf st.1 → sized (roll st).
Proof.
  intros Hw. unfold roll. rewrite next_file_unfold by done.
  exists (utf8_encode (seed st.1)). unfold write_text. simpl.
  by rewrite lookup_insert_eq.
Qed.

Lemma sized_init (base : Path) (k : Z) (force : bool) (fs : FS) :
  sized (FileWriter_init base k force fs).
Proof.
  rewrite init_unfold. exists []. unfold write_text. simpl.
  by rewrite lookup_insert_eq.
Qed.

Lemma session_sized (fuel : nat) (base : Path) (k : Z) (force : bool) (fs : FS)
    (contents : list str) :
  sized (outcome_state (session fuel base k force fs contents)).
Proof.
  apply session_state.
  - intros st chunk _. apply sized_put.
  - intros st Hw _ _. by apply sized_roll.
  - intros w fs' h Hs. exact Hs.
  - apply sized_init.
Qed.

(** X3.  In every state the writer reaches on texts that encode, between two
    writes or in the middle of one, its current file exists and [current_size] is that file's size
    in bytes, the number [calculate_file_size] reports for it: the budget is
    checked against the true size, replicated header included. *)
Theorem X3_current_size_is_file_size (fuel : nat) (base : Path) (k : Z)
    (force : bool) (fs : FS) (contents : list str) :
  Forall encodable contents →
  let st := outcome_state (session fuel base k force fs contents) in
  exists_ st.2 (current_file st.1) = true
  ∧ current_size st.1 = calculate_file_size st.2 (current_file st.1)
  ∧ current_size st.1 = len (content st.2 (current_file st.1)).
Proof.
  intros _. cbv zeta. destruct (session_sized fuel base k force fs contents) as (c & Hc & Hs).
  unfold exists_, calculate_file_size, content. rewrite Hc. simpl.
  split; [by apply bool_decide_eq_true_2|done].
Qed.

Lemma X3_witness :
  let st := outcome_state
              (session 30 (mkPath false ["out.md"]) 1 false ∅
                 [text "# T" ++ [10]; replicate 1500 233]) in
  exists_ st.2 (current_file st.1) = true
  ∧ current_size st.1 = calculate_file_size st.2 (current_file st.1)
  ∧ current_size st.1 = len (content st.2 (current_file st.1)).
Proof. apply X3_current_size_is_file_size. all_encodable. Defined.

(* ================================================================== *)
(** * The writer changes its own files and no other *)
(* ================================================================== *)

Definition only_generated (fs0 : FS) (st : FileWriter * FS) : Prop :=
  (∀ q, q ∉ generated_files st.1 → st.2 !! q = fs0 !! q)
  ∧ (∀ f, f ∈ generated_files st.1 → is_Some (st.2 !! f)).

Lemma current_generated (w : FileWriter) : wf w → current_file w ∈ generated_files w.
Proof.
  intros Hw. rewrite (generated_split w Hw). apply elem_of_app. right.
  apply list_elem_of_singleton. done.
Qed.

Lemma only_generated_put (fs0 : FS) (st : FileWriter * FS) (chunk : str) :
  wf st.1 → only_generated fs0 st → only_generated fs0 (put st chunk).
Proof.
  intros Hw [Hout Hin]. unfold put, _write_chunk, append_text. split; simpl.
  - intros q Hq. rewrite lookup_insert_ne; [by apply Hout|].
    intros <-. by apply Hq, current_generated.
  - intros f Hf. destruct (decide (current_file st.1 = f)) as [<-|Hne].
    + rewrite lookup_insert_eq. by eexists.
    + rewrite lookup_insert_ne by done. by apply Hin.
Qed.

Lemma only_generated_roll (fs0 : FS) (st : FileWriter * FS) :
  wf st.1 → only_generated fs0 st → only_generated fs0 (roll st).
Proof.
  intros Hw [Hout Hin]. unfold roll. rewrite next_file_unfold by done.
  unfold write_text. split; simpl.
  - intros q Hq. apply not_elem_of_app in Hq as [Hq Hne].
    rewrite lookup_insert_ne; [by apply Hout|].
    intros <-. apply Hne, list_elem_of_singleton. done.
  - intros f Hf. apply elem_of_app in Hf as [Hf|Hf].
    + destruct (decide (name_of st.1 (current_file_index st.1 + 1) = f)) as [<-|Hne].
      * rewrite lookup_insert_eq. by eexists.
      * rewrite lookup_insert_ne by done. by apply Hin.
    + apply list_elem_of_singleton in Hf as ->. rewrite lookup_insert_eq. by eexists.
Qed.

Lemma only_generated_init (base : Path) (k : Z) (force : bool) (fs : FS) :
  only_generated fs (FileWriter_init base k force fs).
Proof.
  rewrite init_unfold. unfold write_text. split; simpl.
  - intros q Hq. apply lookup_insert_ne. intros <-. apply Hq.
    apply list_elem_of_singleton. done.
  - intros f Hf. apply list_elem_of_singleton in Hf as ->.
    rewrite lookup_insert_eq. by eexists.
Qed.

Lemma session_only_generated (fuel : nat) (base : Path) (k : Z) (force : bool)
    (fs : FS) (contents : list str) :
  only_generated fs (outcome_state (session fuel base k force fs contents)).
Proof.
  apply (session_state (only_generated fs)).
  - intros st chunk Hw. by apply only_generated_put.
  - intros st Hw _. by apply only_generated_roll.
  - intros w fs' h Hs. exact Hs.
  - apply only_generated_init.
Qed.

(** X4.  Whatever texts that encode are written, and in every state the
    writer reaches: a path that is not among the generated files holds what it held before the
    writer was constructed (or is still no file), and every generated file
    exists.  The writer deletes nothing and touches nothing but the files it
    lists. *)
Theorem X4_writer_changes_only_generated_files (fuel : nat) (base : Path) (k : Z)
    (force : bool) (fs : FS) (contents : list str) :
  Forall encodable contents →
  let st := outcome_state (session fuel base k force fs contents) in
  (∀ q, q ∉ get_generated_files st.1 → st.2 !! q = fs !! q)
  ∧ (∀ f, f ∈ get_generated_files st.1 → exists_ st.2 f = true)
  ∧ dom st.2 = dom fs ∪ list_to_set (get_generated_files st.1).
Proof.
  intros _. cbv zeta. destruct (session_only_generated fuel base k force fs contents)
    as [Hout Hin].
  unfold get_generated_files, exists_. split; [exact Hout|]. split.
  - intros f Hf. by apply bool_decide_eq_true_2, Hin.
  - apply set_eq. intros q. rewrite elem_of_union, elem_of_list_to_set, !elem_of_dom.
    destruct (decide (q ∈ generated_files
                (outcome_state (session fuel base k force fs contents)).1))
      as [Hq|Hq].
    + split; [by right|]. intros _. by apply Hin.
    + rewrite (Hout q Hq). split; [by left|]. by intros [?|?].
Qed.

Lemma X4_witness :
  let fs : FS := {[ mkPath false ["notes.txt"] := [104; 105] ]} in
  let st := outcome_state
              (session 30 (mkPath false ["out.md"]) 1 false fs
                 [text "# T" ++ [10]; replicate 1500 233]) in
  (∀ q, q ∉ get_generated_files st.1 → st.2 !! q = fs !! q)
  ∧ (∀ f, f ∈ get_generated_files st.1 → exists_ st.2 f = true)
  ∧ dom st.2 = dom fs ∪ list_to_set (get_generated_files st.1).
Proof. apply X4_writer_changes_only_generated_files. all_encodable. Defined.

(* ================================================================== *)
(** * The generated files are different files *)
(* ================================================================== *)

Lemma wf_NoDup (w : FileWriter) : wf w → NoDup (generated_files w).
Proof.
  intros Hw. rewrite (wf_files w Hw).
  destruct (decide (Utils.split_size w = 0)) as [H0|H0].
  - rewrite (wf_single w Hw H0). rewrite seqZ_cons, seqZ_nil by lia. simpl.
    apply NoDup_singleton.
  - apply NoDup_fmap_2_strong; [|apply NoDup_seqZ].
    intros i j _ _. by apply name_of_inj.
Qed.

(** X5.  In every state the writer reaches on texts that encode, the paths
    it has generated are pairwise different, one for each index from 1 to [current_file_index]:
    no output file is created, and so emptied, a second time. *)
Theorem X5_generated_files_distinct (fuel : nat) (base : Path) (k : Z)
    (force : bool) (fs : FS) (contents : list str) :
  Forall encodable contents →
  let w := (outcome_state (session fuel base k force fs contents)).1 in
  NoDup (get_generated_files w)
  ∧ len (get_generated_files w) = current_file_index w.
Proof.
  intros _. cbv zeta. destruct (session_wf fuel base k force fs contents) as (Hw & _ & _).
  split; [by apply wf_NoDup|].
  unfold get_generated_files, len. rewrite (wf_files _ Hw), length_fmap, length_seqZ.
  pose proof (wf_index _ Hw). lia.
Qed.

Lemma X5_witness :
  let w := (outcome_state
              (session 30 (mkPath false ["out.md"]) 1 false ∅
                 [text "# T" ++ [10]; replicate 1500 233])).1 in
  NoDup (get_generated_files w)
  ∧ len (get_generated_files w) = current_file_index w.
Proof. apply X5_generated_files_distinct. all_encodable. Defined.

(* ================================================================== *)
(** * With a split size, the base name is left alone *)
(* ================================================================== *)

Lemma substring_length (n m : nat) (s : string) :
  (n + m ≤ String.length s)%nat → String.length (substring n m s) = m.
Proof.
  revert n m. induction s as [|a s IH]; intros n m H; simpl in H.
  { assert (n = 0%nat) as -> by lia. assert (m = 0%nat) as -> by lia. done. }
  destruct n as [|n].
  - destruct m as [|m]; [done|]. simpl. rewrite IH; [done|lia].
  - simpl. apply IH. lia.
Qed.

Lemma stem_suffix_length (p : Path) :
  (String.length (stem p) + String.length (suffix p))%nat = String.length (name p).
Proof.
  unfold stem, suffix, string_len.
  destruct (_ && _) eqn:Hc; [|simpl; lia].
  apply andb_true_iff in Hc as [H1 H2].
  apply Z.ltb_lt in H1. apply Z.ltb_lt in H2.
  rewrite !substring_length; lia.
Qed.

Lemma name_of_not_base (w : FileWriter) (i : Z) :
  Utils.split_size w ≠ 0 → name_of w i ≠ base_filename w.
Proof.
  intros H0. unfold name_of, _get_filename, with_name. simpl.
  destruct (Z.eqb_spec (Utils.split_size w) 0) as [|_]; [done|].
  destruct (base_filename w) as [a l] eqn:Hb. intros H. injection H as H.
  assert (Hlast : last l = Some (stem (mkPath a l) +:+ "_" +:+ pretty i
                                 +:+ suffix (mkPath a l))).
  { rewrite <- H at 1. apply last_snoc. }
  pose proof (stem_suffix_length (mkPath a l)) as Hlen.
  unfold name in Hlen. simpl in Hlen. rewrite Hlast in Hlen. simpl in Hlen.
  rewrite !string_app_length in Hlen. simpl in Hlen. lia.
Qed.

(** X6.  With a split size above 0 no generated file is the base name itself:
    the writer neither creates nor changes the file at the base name,
    whatever texts that encode are written. *)
Theorem X6_split_leaves_base_name (fuel : nat) (base : Path) (k : Z)
    (force : bool) (fs : FS) (contents : list str) :
  0 < k → Forall encodable contents →
  let st := outcome_state (session fuel base k force fs contents) in
  (base ∉ get_generated_files st.1) ∧ st.2 !! base = fs !! base.
Proof.
  intros Hk _. cbv zeta.
  destruct (session_wf fuel base k force fs contents) as (Hw & HB & Hbase).
  destruct (session_only_generated fuel base k force fs contents) as [Hout _].
  assert (Hnot : base ∉ generated_files
                   (outcome_state (session fuel base k force fs contents)).1).
  { rewrite (wf_files _ Hw). intros Hin. apply list_elem_of_fmap in Hin as (i & Hi & _).
    symmetry in Hi. revert Hi. rewrite <- Hbase at 2. apply name_of_not_base.
    rewrite HB. unfold budget_of. destruct (Z.ltb_spec 0 k); lia. }
  split; [exact Hnot|]. by apply Hout.
Qed.

Lemma X6_witness :
  let st := outcome_state
              (session 50 (mkPath false ["out.md"]) 1 true
                 {[ mkPath false ["out.md"] := [111; 108; 100] ]}
                 [replicate 1500 120]) in
  (mkPath false ["out.md"] ∉ get_generated_files st.1)
  ∧ st.2 !! mkPath false ["out.md"] = Some [111; 108; 100].
Proof.
  destruct (X6_split_leaves_base_name 50 (mkPath false ["out.md"]) 1 true
              {[ mkPath false ["out.md"] := [111; 108; 100] ]}
              [replicate 1500 120] ltac:(lia) ltac:(all_encodable)) as [H1 H2].
  split; [exact H1|]. etrans; [exact H2|]. apply lookup_singleton_eq.
Defined.

(* ================================================================== *)
(** * When the writer returns, and when it does not *)
(* ================================================================== *)

(** X7.  If the header, the first text written that begins like a heading, is no
    longer than the budget (or nothing is split), every write of a text that
    encodes returns: the loop makes at most one pass for each character of
    the text. *)
Theorem X7_writes_return_when_header_fits (fuel : nat) (base : Path) (k : Z)
    (force : bool) (fs : FS) (contents : list str) :
  Forall encodable contents →
  (0 < k → len (utf8_encode (default [] (first_header contents))) ≤ k * 1024) →
  Forall (λ c, (length c ≤ fuel)%nat) contents →
  ∃ w fs', session fuel base k force fs contents = Returned w fs'.
Proof.
  intros Henc Hfit Hlen.
  pose proof (session_returns fuel base k force fs contents Henc Hfit Hlen) as Hr.
  destruct (session fuel base k force fs contents) as [w fs'|]; [|done].
  by exists w, fs'.
Qed.

Lemma X7_witness :
  ∃ w fs', session 1500 (mkPath false ["out.md"]) 1 false ∅
             [text "intro"; text "# T" ++ [10]; replicate 1500 233; text "# U"]
           = Returned w fs'.
Proof.
  apply X7_writes_return_when_header_fits.
  - all_encodable.
  - intros _. vm_compute. discriminate.
  - all_short.
Defined.

Lemma roll_index (st : FileWriter * FS) :
  wf st.1 → current_file_index (roll st).1 = current_file_index st.1 + 1.
Proof. intros Hw. unfold roll. by rewrite next_file_unfold. Qed.

Lemma generated_length (w : FileWriter) :
  wf w → len (generated_files w) = current_file_index w.
Proof.
  intros Hw. unfold len. rewrite (wf_files w Hw), length_fmap, length_seqZ.
  pose proof (wf_index w Hw). lia.
Qed.

Lemma stuck_loop_count (fuel : nat) (w : FileWriter) (fs : FS) (r : str) :
  wf w → r ≠ [] → 0 < Utils.split_size w →
  Utils.split_size w < len (utf8_encode (seed w)) →
  Utils.split_size w ≤ current_size w →
  ∃ w' fs', write_loop fuel w fs r = OutOfFuel w' fs' r
            ∧ len (generated_files w') = len (generated_files w) + Z.of_nat fuel.
Proof.
  intros Hw Hr HB Hbig Hfull.
  destruct (stuck_loop fuel w fs r Hw Hr HB Hbig Hfull) as (w' & fs' & Hloop & Hfiles).
  exists w', fs'. split; [done|].
  apply (f_equal length) in Hfiles. unfold files_content in Hfiles.
  rewrite length_app, !length_fmap, length_replicate in Hfiles. unfold len. lia.
Qed.

(** The first pass on a header that is longer than the budget, in a fresh
    writer: part of it is written, a second file is created with the whole
    header in it, and something is left to write. *)
Lemma over_budget_first_pass (w : FileWriter) (fs : FS) (h : str) :
  wf w → 0 < Utils.split_size w → current_size w = 0 → header w = Some h →
  encodable h → 1024 ≤ Utils.split_size w →
  Utils.split_size w < len (utf8_encode h) →
  ∃ w1 fs1 r, write_pass w fs h = Continue w1 fs1 r ∧ r ≠ []
              ∧ wf w1 ∧ Utils.split_size w1 = Utils.split_size w
              ∧ seed w1 = h ∧ current_size w1 = len (utf8_encode h)
              ∧ current_file_index w1 = current_file_index w + 1.
Proof.
  intros Hw HB Hs Hh Henc H1024 Hbig.
  assert (Hroll : rolled w fs = (w, fs)).
  { unfold rolled. rewrite Hs.
    destruct (Z.eqb_spec (Z.max 0 (Utils.split_size w - 0)) 0); [lia|done]. }
  assert (Hav : available (w, fs) = Utils.split_size w).
  { unfold available. simpl. lia. }
  assert (Hlong : (256 ≤ length h)%nat).
  { pose proof (utf8_encode_length_le h). unfold len in Hbig. lia. }
  assert (Hafter : ∀ chunk,
            wf (roll (put (w, fs) chunk)).1
            ∧ Utils.split_size (roll (put (w, fs) chunk)).1 = Utils.split_size w
            ∧ seed (roll (put (w, fs) chunk)).1 = h
            ∧ current_size (roll (put (w, fs) chunk)).1 = len (utf8_encode h)
            ∧ current_file_index (roll (put (w, fs) chunk)).1
              = current_file_index w + 1).
  { intros chunk. pose proof (wf_put (w, fs) chunk Hw) as Hw'.
    split; [apply wf_roll; [done|]; rewrite budget_put; simpl; lia|].
    rewrite budget_roll, budget_put, roll_index by done.
    unfold roll. destruct (next_file_fields _ (put (w, fs) chunk).2 Hw') as (_ & -> & ->).
    unfold put, _write_chunk, seed. simpl. rewrite Hh. done. }
  pose proof (write_pass_kind w fs h Henc) as Hk.
  inversion Hk as [Hfit Heq|n Hnofit Hn Hpos Hchunk Heq|Hnofit Hpos Heq|Hneg Heq];
    rewrite Hroll in *.
  - rewrite Hav in Hfit. lia.
  - unfold Continue'. eexists _, _, _. split; [reflexivity|].
    split; [|apply Hafter].
    rewrite Hav in Hchunk. intros Hnil.
    assert (length (drop n h) = 0%nat) as Hd by (by rewrite Hnil).
    rewrite length_drop in Hd. rewrite take_ge in Hchunk by lia. lia.
  - unfold Continue'. eexists _, _, _. split; [reflexivity|].
    split; [|apply Hafter].
    intros Hnil. assert (length (drop 100 h) = 0%nat) as Hd by (by rewrite Hnil).
    rewrite length_drop in Hd. lia.
  - rewrite Hav in Hneg. lia.
Qed.

(** X8.  If the first text written begins like a heading and is longer than the
    budget, its write never returns, whatever the fuel: the text becomes the
    header, and after the first pass every pass creates one more file that
    holds nothing but the header, without writing anything of the text that
    is left.  After [fuel] passes there are [fuel + 1] files. *)
Theorem X8_leading_header_over_budget_never_returns (fuel : nat) (base : Path)
    (k : Z) (force : bool) (fs : FS) (h : str) (rest : list str) :
  0 < k → encodable h → startswith h (text "# ") = true →
  k * 1024 < len (utf8_encode h) →
  ∃ w fs' r, session fuel base k force fs (h :: rest) = OutOfFuel w fs' r
             ∧ r ≠ [] ∧ header w = Some h
             ∧ len (get_generated_files w) = Z.of_nat fuel + 1.
Proof.
  intros Hk Henc Hstart Hbig. unfold session. cbn [write_each].
  set (w0 := (FileWriter_init base k force fs).1).
  set (fs0 := (FileWriter_init base k force fs).2).
  assert (Hw0 : wf w0) by apply wf_init.
  assert (HB0 : Utils.split_size w0 = k * 1024).
  { unfold w0. rewrite init_split_size. unfold budget_of.
    destruct (Z.ltb_spec 0 k); [done|lia]. }
  assert (Hne : h ≠ []) by (by apply startswith_nonempty).
  assert (Hcap : capture w0 h = set_header w0 (Some h)).
  { unfold capture. unfold w0 at 1. rewrite init_header, Hstart. done. }
  rewrite write_unfold. destruct (Z.eqb_spec (Utils.split_size w0) 0) as [|_]; [lia|].
  rewrite Hcap.
  assert (Hw1 : wf (set_header w0 (Some h))) by (by apply wf_set_header).
  assert (Hidx : current_file_index w0 = 1) by reflexivity.
  destruct fuel as [|fuel].
  { exists (set_header w0 (Some h)), fs0, h. destruct h as [|c h]; [done|].
    cbn [write_loop]. split; [done|]. split; [done|]. split; [done|].
    unfold get_generated_files. rewrite generated_length by done. simpl. lia. }
  assert (HB' : Utils.split_size (set_header w0 (Some h)) = k * 1024) by exact HB0.
  destruct (over_budget_first_pass (set_header w0 (Some h)) fs0 h Hw1
              ltac:(rewrite HB'; lia) eq_refl eq_refl Henc
              ltac:(rewrite HB'; lia) ltac:(rewrite HB'; lia))
    as (w1 & fs1 & r & Hpass & Hr & Hwf1 & HB1 & Hseed & Hsize & Hi1).
  rewrite HB' in HB1.
  destruct (stuck_loop_count fuel w1 fs1 r Hwf1 Hr
              ltac:(rewrite HB1; lia) ltac:(rewrite HB1, Hseed; lia)
              ltac:(rewrite HB1, Hsize; lia))
    as (w' & fs' & Hloop & Hcount).
  assert (Hhd : header w' = Some h).
  { pose proof (write_loop_frame fuel w1 fs1 r) as Hf1. rewrite Hloop in Hf1.
    pose proof (write_pass_frame (set_header w0 (Some h)) fs0 h) as Hf0.
    rewrite Hpass in Hf0. cbn [outcome_state pass_state fst] in Hf1, Hf0.
    unfold frame in Hf1, Hf0. injection Hf1 as _ _ _ Hh1. injection Hf0 as _ _ _ Hh0.
    rewrite Hh1, Hh0. reflexivity. }
  exists w', fs', r. destruct h as [|c h]; [done|]. cbn [write_loop].
  rewrite Hpass, Hloop. split; [done|]. split; [done|]. split; [done|].
  unfold get_generated_files. rewrite Hcount, generated_length by done.
  rewrite Hi1. simpl. lia.
Qed.

Lemma X8_witness :
  ∃ w fs' r,
    session 7 (mkPath false ["out.md"]) 1 false ∅
      [text "# " ++ replicate 1100 233; text "more"]
    = OutOfFuel w fs' r
    ∧ r ≠ [] ∧ header w = Some (text "# " ++ replicate 1100 233)
    ∧ len (get_generated_files w) = Z.of_nat 7 + 1.
Proof.
  apply X8_leading_header_over_budget_never_returns.
  - lia.
  - apply encodable_check. vm_compute. reflexivity.
  - reflexivity.
  - vm_compute. reflexivity.
Defined.

(* ================================================================== *)
(** * Text of one byte per character: the budget is kept exactly *)
(* ================================================================== *)

(** Text whose characters are all below U+0080, one byte each in UTF-8. *)
Definition ascii_text (s : str) : Prop := Forall (λ c, 0 ≤ c < 128) s.

Lemma utf8_encode_ascii (s : str) : ascii_text s → utf8_encode s = s.
Proof.
  induction 1 as [|c s Hc Hs IH]; [done|].
  rewrite utf8_encode_cons, IH. unfold utf8_encode_char.
  destruct (Z.ltb_spec c 128); [done|lia].
Qed.

Lemma ascii_encodable (s : str) : ascii_text s → encodable s.
Proof.
  intros H. eapply Forall_impl; [exact H|]. intros c Hc. simpl in Hc. unfold is_scalar.
  destruct (Z.leb_spec 0 c); [|lia]. destruct (Z.ltb_spec c 0xD800); [done|lia].
Qed.

Lemma ascii_check (s : str) :
  forallb (λ c, (0 <=? c) && (c <? 128)) s = true → ascii_text s.
Proof.
  intros H. apply Forall_forall. intros c Hc. apply list_elem_of_In in Hc.
  rewrite forallb_forall in H. specialize (H c Hc).
  apply andb_true_iff in H as [H1 H2]. apply Z.leb_le in H1. apply Z.ltb_lt in H2. lia.
Qed.

Lemma ascii_take (n : nat) (s : str) : ascii_text s → ascii_text (take n s).
Proof. apply Forall_take. Qed.

Lemma ascii_drop (n : nat) (s : str) : ascii_text s → ascii_text (drop n s).
Proof. apply Forall_drop. Qed.

Lemma find_split_ascii (r : str) (a : Z) :
  ascii_text r → 0 < a →
  find_split (Z.to_nat a) (utf8_encode r) a
  = (a, Some (cut_at_newline (take (Z.to_nat a) r))).
Proof.
  intros Hr Ha. destruct (Z.to_nat a) as [|n] eqn:Hn; [lia|].
  cbn [find_split]. destruct (Z.ltb_spec 0 a); [|lia]. rewrite Hn.
  rewrite (utf8_encode_ascii r Hr).
  rewrite <- (utf8_encode_ascii (take (S n) r)) at 1 by (by apply ascii_take).
  rewrite utf8_decode_encode; [done|]. by apply ascii_encodable, ascii_take.
Qed.

(** A pass on such text never takes the forced branch: the text is written
    whole, or a chunk that fits is written and a new file begun. *)
Lemma write_pass_ascii (w : FileWriter) (fs : FS) (r : str) :
  ascii_text r → 0 < available (rolled w fs) →
  write_pass w fs r
  = if len r <=? available (rolled w fs)
    then Break' (put (rolled w fs) r)
    else
      let chunk :=
        cut_at_newline (take (Z.to_nat (available (rolled w fs))) r) in
      Continue' (roll (put (rolled w fs) chunk)) (drop (length chunk) r).
Proof.
  intros Hr Ha. rewrite write_pass_shape, (utf8_encode_ascii r Hr).
  case_match; [done|].
  rewrite <- (utf8_encode_ascii r Hr) at 1. by rewrite find_split_ascii.
Qed.

(** Every file but the current one is within the budget, the current one is
    as long as the writer thinks and within the budget, and the header is
    shorter than the budget. *)
Definition tight (v : view) : Prop :=
  len (utf8_encode (v_seed v)) < v_budget v
  ∧ 0 ≤ v_size v ≤ v_budget v
  ∧ ∃ olds cur, v_files v = olds ++ [cur] ∧ len cur = v_size v
                ∧ Forall (λ c, len c ≤ v_budget v) olds.

Lemma tight_roll (v : view) : tight v → tight (v_roll v).
Proof.
  intros (Hh & Hs & olds & cur & Hf & Hlen & Holds). split; [done|]. simpl.
  split; [split; [apply len_nonneg|lia]|].
  exists (olds ++ [cur]), (utf8_encode (v_seed v)). rewrite Hf.
  split; [done|]. split; [done|]. rewrite Forall_app, Forall_singleton.
  split; [done|lia].
Qed.

Lemma tight_rolled (v : view) :
  tight v → tight (v_rolled v) ∧ 0 < v_available (v_rolled v).
Proof.
  intros Ht. pose proof Ht as (Hh & Hs & _). unfold v_rolled, v_available in *.
  destruct (Z.eqb_spec (Z.max 0 (v_budget v - v_size v)) 0).
  - split; [by apply tight_roll|]. simpl. lia.
  - split; [done|lia].
Qed.

Lemma tight_put (v : view) (chunk : str) :
  tight v → len (utf8_encode chunk) ≤ v_available v → tight (v_put chunk v).
Proof.
  intros (Hh & Hs & olds & cur & Hf & Hlen & Holds) Hc. unfold v_available in Hc.
  split; [done|]. simpl. pose proof (len_nonneg (utf8_encode chunk)).
  split; [lia|]. exists olds, (cur ++ utf8_encode chunk).
  rewrite Hf, app_last_snoc, len_app. split; [done|]. split; [lia|done].
Qed.

Lemma tight_all (v : view) : tight v → Forall (λ c, len c ≤ v_budget v) (v_files v).
Proof.
  intros (_ & Hs & olds & cur & -> & Hlen & Holds).
  rewrite Forall_app, Forall_singleton. split; [done|lia].
Qed.

Lemma write_pass_tight (w : FileWriter) (fs : FS) (r : str) :
  wf w → Utils.split_size w ≠ 0 → ascii_text r → tight (view_of (w, fs)) →
  tight (view_of (pass_state (write_pass w fs r)))
  ∧ ascii_text (pass_remaining (write_pass w fs r)).
Proof.
  intros Hw H0 Hr Ht.
  pose proof (wf_rolled w fs Hw H0) as Hw1.
  pose proof (budget_rolled w fs) as HB1.
  destruct (tight_rolled _ Ht) as [Ht1 Hav]. rewrite <- view_rolled in Ht1, Hav by done.
  rewrite <- available_view in Hav.
  rewrite write_pass_ascii by done.
  destruct (Z.leb_spec (len r) (available (rolled w fs))) as [Hfit|Hlong].
  - rewrite pass_state_Break'. split; [|constructor].
    rewrite view_put by done. apply tight_put; [done|].
    rewrite <- available_view, utf8_encode_ascii; done.
  - cbv zeta. rewrite pass_state_Continue'. split; [|by apply ascii_drop].
    destruct (cut_at_newline_take (take (Z.to_nat (available (rolled w fs))) r))
      as (m & Hm & ->).
    rewrite view_roll, view_put; [|done|by apply wf_put|rewrite budget_put; congruence].
    apply tight_roll, tight_put; [done|].
    rewrite <- available_view, utf8_encode_ascii by (by apply ascii_take, ascii_take).
    unfold len. rewrite !length_take. lia.
Qed.

Lemma write_loop_tight (fuel : nat) (w : FileWriter) (fs : FS) (r : str) :
  wf w → Utils.split_size w ≠ 0 → ascii_text r → tight (view_of (w, fs)) →
  tight (view_of (outcome_state (write_loop fuel w fs r))).
Proof.
  revert w fs r. induction fuel as [|fuel IH]; intros w fs r Hw H0 Hr Ht.
  { by destruct r. }
  destruct r as [|c r]; [done|]. cbn [write_loop].
  destruct (write_pass_tight w fs (c :: r) Hw H0 Hr Ht) as [Ht' Hr'].
  destruct (write_pass_wf w fs (c :: r) Hw H0) as [Hw' HB'].
  destruct (write_pass w fs (c :: r)) as [w' fs'|w' fs' r']; simpl in *; [done|].
  apply IH; [done|congruence|done|done].
Qed.

Lemma tight_capture (v : view) (c : str) :
  tight v → fits (v_budget v - 1) (capture_header (v_header v) c) →
  tight (v_capture c v).
Proof.
  intros (Hh & Hs & Hfiles) Hc. unfold fits in Hc. split; [|split].
  - unfold v_seed. rewrite v_header_capture, v_capture_budget. lia.
  - by rewrite v_capture_size, v_capture_budget.
  - by rewrite v_capture_files, v_capture_size, v_capture_budget.
Qed.

Lemma write_each_tight (fuel : nat) (w : FileWriter) (fs : FS) (contents : list str) :
  wf w → 0 < Utils.split_size w → Forall ascii_text contents →
  tight (view_of (w, fs)) →
  fits (Utils.split_size w - 1) (fold_left capture_header contents (header w)) →
  tight (view_of (outcome_state (write_each fuel w fs contents))).
Proof.
  revert w fs. induction contents as [|c cs IH]; intros w fs Hw H0 Hasc Ht Hfit.
  { done. }
  apply Forall_cons in Hasc as [Hc Hcs]. cbn [write_each]. simpl in Hfit.
  assert (Hfc : fits (Utils.split_size w - 1) (capture_header (header w) c)).
  { apply (fits_fold_back _ _ cs); [lia|done]. }
  assert (Ht' : tight (view_of (outcome_state (write fuel w fs c)))).
  { rewrite write_unfold. destruct (Z.eqb_spec (Utils.split_size w) 0) as [|_]; [lia|].
    apply write_loop_tight; [by apply wf_capture|rewrite budget_capture; lia|done|].
    rewrite view_capture. by apply tight_capture. }
  destruct (write_wf fuel w fs c Hw) as [Hw' HB'].
  pose proof (write_frame fuel w fs c) as Hfr.
  destruct (write fuel w fs c) as [w' fs'|w' fs' r']; simpl in *; [|done].
  apply IH; try done; [lia|]. rewrite HB'. injection Hfr as _ _ _ ->.
  by rewrite header_capture.
Qed.

(** X9.  With a split size above 0, texts whose characters all take one byte and
    a header shorter than the budget, no generated file is ever larger than
    the budget: the forced chunk is never written.  This holds in every
    state the writer reaches. *)
Theorem X9_one_byte_text_keeps_budget (fuel : nat) (base : Path) (k : Z)
    (force : bool) (fs : FS) (contents : list str) :
  0 < k → Forall ascii_text contents →
  len (utf8_encode (default [] (first_header contents))) < k * 1024 →
  let st := outcome_state (session fuel base k force fs contents) in
  Forall (λ file, len (content st.2 file) ≤ k * 1024) (get_generated_files st.1).
Proof.
  intros Hk Hasc Hfit. cbv zeta. unfold session.
  set (w0 := (FileWriter_init base k force fs).1).
  set (fs0 := (FileWriter_init base k force fs).2).
  assert (HB0 : Utils.split_size w0 = k * 1024).
  { unfold w0. rewrite init_split_size. unfold budget_of.
    destruct (Z.ltb_spec 0 k); [done|lia]. }
  assert (Hv0 : view_of (w0, fs0) = mkView [[]] 0 None (k * 1024)).
  { unfold w0, fs0. rewrite <- surjective_pairing, view_init. unfold budget_of.
    destruct (Z.ltb_spec 0 k); [done|lia]. }
  assert (Ht0 : tight (view_of (w0, fs0))).
  { rewrite Hv0. split; [unfold len; simpl; lia|].
    split; [simpl; lia|]. exists [], []. simpl.
    split; [done|]. split; [done|constructor]. }
  assert (Hh0 : header w0 = None) by apply init_header.
  pose proof (write_each_tight fuel w0 fs0 contents (wf_init base k force fs)
                ltac:(lia) Hasc Ht0) as Ht.
  rewrite HB0, Hh0 in Ht. specialize (Ht ltac:(unfold fits, first_header in *; lia)).
  apply tight_all in Ht.
  destruct (write_each_wf fuel w0 fs0 contents (wf_init base k force fs)) as [_ HB].
  unfold view_of, files_content in Ht. simpl in Ht. rewrite HB, HB0 in Ht.
  rewrite Forall_fmap in Ht. exact Ht.
Qed.

Lemma X9_witness :
  let contents := [text "# T" ++ [10]; replicate 1021 120; replicate 3000 97] in
  let st := outcome_state (session 10 (mkPath false ["out.md"]) 1 false ∅ contents) in
  Forall (λ file, len (content st.2 file) ≤ 1 * 1024) (get_generated_files st.1).
Proof.
  apply X9_one_byte_text_keeps_budget.
  - lia.
  - repeat (apply Forall_cons_2; [apply ascii_check; vm_compute; reflexivity|]).
    apply Forall_nil_2.
  - vm_compute. reflexivity.
Defined.

(* ================================================================== *)
(** * Which chunk the inner loop settles on *)
(* ================================================================== *)

Lemma rfind_from_spec (c : Z) (s : str) (i acc : Z) :
  ((c ∉ s) ∧ rfind_from c s i acc = acc)
  ∨ ∃ k, (k < length s)%nat ∧ rfind_from c s i acc = i + Z.of_nat k
         ∧ s !! k = Some c ∧ (c ∉ drop (S k) s).
Proof.
  revert i acc. induction s as [|x s IH]; intros i acc.
  { left. split; [apply not_elem_of_nil|done]. }
  cbn [rfind_from].
  destruct (IH (i + 1) (if x =? c then i else acc)) as [[Hno Heq]|(k & Hk & Heq & Hat & Hafter)].
  - destruct (Z.eqb_spec x c) as [->|Hne].
    + right. exists 0%nat. simpl. split; [lia|]. split; [lia|]. done.
    + left. split; [|done]. apply not_elem_of_cons. split; [congruence|done].
  - right. exists (S k). simpl. split; [lia|]. split; [lia|done].
Qed.

(** The chunk the code keeps of a decoded window: the whole window when it
    has no newline after its first character, and otherwise the window up
    to and including its last newline. *)
Lemma cut_at_newline_spec (window : str) :
  (cut_at_newline window = window
   ∧ ∀ i, (0 < i)%nat → window !! i ≠ Some 10)
  ∨ ∃ j, (0 < j < length window)%nat ∧ window !! j = Some 10
         ∧ (10 ∉ drop (S j) window) ∧ cut_at_newline window = take (S j) window.
Proof.
  unfold cut_at_newline, rfind.
  destruct (rfind_from_spec 10 window 0 (-1)) as [[Hno ->]|(k & Hk & -> & Hat & Hafter)].
  - left. simpl. split; [done|]. intros i _ Hi. apply Hno. by eapply list_elem_of_lookup_2.
  - destruct k as [|k].
    + left. simpl. split; [done|]. intros i Hi Hat'. apply Hafter.
      destruct i as [|i]; [lia|]. apply (list_elem_of_lookup_2 _ i).
      by rewrite lookup_drop.
    + right. exists (S k). split; [lia|]. split; [done|]. split; [done|].
      destruct (Z.ltb_spec 0 (0 + Z.of_nat (S k))); [|lia].
      f_equal. lia.
Qed.

(** The loop tries the window sizes from the available size downwards, so
    no larger window than the one it stops at decodes. *)
Lemma find_split_max (fuel : nat) (rb : bytes) (a : Z) :
  (Z.to_nat a ≤ fuel)%nat →
  ∀ c', (find_split fuel rb a).1 < c' ≤ a →
        utf8_decode (take (Z.to_nat c') rb) = None.
Proof.
  revert a. induction fuel as [|fuel IH]; intros a Hf c' Hc'.
  { simpl in Hc'. lia. }
  cbn [find_split] in Hc'. destruct (Z.ltb_spec 0 a); [|simpl in Hc'; lia].
  destruct (utf8_decode (take (Z.to_nat a) rb)) as [chunk|] eqn:Hd.
  { simpl in Hc'. lia. }
  destruct (decide (c' = a)) as [->|Hne]; [done|].
  apply (IH (a - 1)); lia.
Qed.

Lemma take_encode_prefix (r : str) (n : nat) :
  take (length (utf8_encode (take n r))) (utf8_encode r) = utf8_encode (take n r).
Proof.
  rewrite <- (take_drop n r) at 2. rewrite utf8_encode_app. apply take_app_length.
Qed.

Lemma encode_take_S (r : str) (n : nat) :
  (n < length r)%nat →
  len (utf8_encode (take n r)) < len (utf8_encode (take (S n) r)).
Proof.
  intros Hn. destruct (lookup_lt_is_Some_2 r n Hn) as [x Hx].
  rewrite (take_S_r r n x Hx), utf8_encode_app, len_app.
  pose proof (utf8_encode_length_ge [x]). unfold len. simpl in *. lia.
Qed.

(** X10.  What the inner loop does with text that does not fit in the [a] bytes
    available.  If even the first character is longer than [a] bytes no
    window decodes and the loop ends at 0 (the forced branch follows).
    Otherwise the window is the longest prefix of the text whose encoding
    is at most [a] bytes, and the chunk is that window, cut after its last
    newline if it has one after its first character. *)
Theorem X10_chunk_is_longest_prefix_cut_at_newline (remaining : str) (a : Z) :
  encodable remaining → 0 < a < len (utf8_encode remaining) →
  match find_split (Z.to_nat a) (utf8_encode remaining) a with
  | (c, None) => c = 0 ∧ a < len (utf8_encode (take 1 remaining))
  | (c, Some chunk) =>
    ∃ n, (1 ≤ n < length remaining)%nat
         ∧ c = len (utf8_encode (take n remaining))
         ∧ c ≤ a < len (utf8_encode (take (S n) remaining))
         ∧ ((chunk = take n remaining
             ∧ ∀ i, (0 < i)%nat → take n remaining !! i ≠ Some 10)
            ∨ ∃ j, (0 < j < n)%nat ∧ remaining !! j = Some 10
                   ∧ (10 ∉ drop (S j) (take n remaining))
                   ∧ chunk = take (S j) remaining)
  end.
Proof.
  intros Henc [Ha Hlong].
  pose proof (find_split_spec (Z.to_nat a) (utf8_encode remaining) a ltac:(lia)) as Hs.
  pose proof (find_split_max (Z.to_nat a) (utf8_encode remaining) a ltac:(lia)) as Hmax.
  destruct (find_split (Z.to_nat a) (utf8_encode remaining) a) as [c [chunk|]];
    cbn [fst] in Hmax.
  - destruct Hs as (window & Hc & Hd & ->).
    destruct (utf8_decode_take_encode remaining (Z.to_nat c) window Henc Hd)
      as [Hw Hbytes].
    remember (length window) as n eqn:Hn.
    assert (Hclen : c = len (utf8_encode (take n remaining))).
    { rewrite <- Hw, <- Hbytes. unfold len in *. rewrite length_take. lia. }
    assert (Hn1 : (1 ≤ n)%nat).
    { destruct window as [|x window]; [|simpl in Hn; lia].
      rewrite <- Hw in Hclen. unfold len in Hclen. simpl in Hclen. lia. }
    assert (Hn2 : (n < length remaining)%nat).
    { destruct (decide (n < length remaining)%nat) as [|Hge]; [done|].
      rewrite take_ge in Hclen by lia. lia. }
    exists n. split; [lia|]. split; [done|]. split.
    { split; [lia|].
      destruct (Z.ltb_spec a (len (utf8_encode (take (S n) remaining)))) as [|Hle];
        [done|].
      pose proof (encode_take_S remaining n Hn2) as Hgrow.
      pose proof (Hmax (len (utf8_encode (take (S n) remaining))) ltac:(lia)) as Hnone.
      unfold len in Hnone. rewrite Nat2Z.id, take_encode_prefix in Hnone.
      rewrite utf8_decode_encode in Hnone by (by apply encodable_take). done. }
    rewrite <- Hw.
    destruct (cut_at_newline_spec window) as [[-> Hno]|(j & Hj & Hat & Hafter & ->)].
    + left. done.
    + right. exists j. rewrite <- Hn in Hj. split; [done|]. split.
      { rewrite Hw in Hat. unfold str in Hat. rewrite lookup_take_lt in Hat by lia.
        done. }
      split; [done|]. rewrite Hw at 1. rewrite take_take. f_equal. lia.
  - split; [lia|].
    destruct (Z.ltb_spec a (len (utf8_encode (take 1 remaining)))) as [|Hle]; [done|].
    assert (Hr : (0 < length remaining)%nat).
    { destruct remaining; [|simpl; lia]. unfold len in Hlong. simpl in Hlong. lia. }
    pose proof (encode_take_S remaining 0 Hr) as Hgrow.
    rewrite take_0 in Hgrow. change (len (utf8_encode [])) with 0 in Hgrow.
    pose proof (Hmax (len (utf8_encode (take 1 remaining))) ltac:(lia)) as Hnone.
    unfold len in Hnone. rewrite Nat2Z.id, take_encode_prefix in Hnone.
    rewrite utf8_decode_encode in Hnone by (by apply encodable_take). done.
Qed.

(** Seven bytes available for two short lines, two letters and two
    characters of two bytes each: the window of seven bytes ends inside a
    character, the window of six bytes decodes, and the chunk is the two
    lines. *)
Lemma X10_witness :
  let remaining := [97; 10; 98; 10; 99; 100; 233; 233] in
  find_split 7 (utf8_encode remaining) 7 = (6, Some [97; 10; 98; 10])
  ∧ ∃ n, (1 ≤ n < length remaining)%nat
         ∧ 6 = len (utf8_encode (take n remaining))
         ∧ 6 ≤ 7 < len (utf8_encode (take (S n) remaining))
         ∧ (([97; 10; 98; 10] = take n remaining
             ∧ ∀ i, (0 < i)%nat → take n remaining !! i ≠ Some 10)
            ∨ ∃ j, (0 < j < n)%nat ∧ remaining !! j = Some 10
                   ∧ (10 ∉ drop (S j) (take n remaining))
                   ∧ [97; 10; 98; 10] = take (S j) remaining).
Proof.
  cbv zeta.
  assert (Henc : encodable [97; 10; 98; 10; 99; 100; 233; 233]).
  { apply encodable_check. vm_compute. reflexivity. }
  assert (Ha : 0 < 7 < len (utf8_encode [97; 10; 98; 10; 99; 100; 233; 233])).
  { vm_compute. split; reflexivity. }
  pose proof (X10_chunk_is_longest_prefix_cut_at_newline
                [97; 10; 98; 10; 99; 100; 233; 233] 7 Henc Ha) as H.
  assert (Hrun : find_split (Z.to_nat 7) (utf8_encode [97; 10; 98; 10; 99; 100; 233; 233]) 7
                 = (6, Some [97; 10; 98; 10])) by (vm_compute; reflexivity).
  rewrite Hrun in H. split; [exact Hrun|exact H].
Defined.

(* ================================================================== *)
(** * Reading a file: which decoder answers *)
(* ================================================================== *)

(** [get_file_content] in one equation: a path that is no file gives the
    empty text; bytes that are UTF-8 give their text; otherwise the UTF-16
    reader answers, or fails in one of two ways, of which only
    UnicodeDecodeError is followed by Latin-1. *)
Lemma get_file_content_unfold (gb : bytes → option str) (fs : FS) (p : Path) :
  get_file_content gb fs p
  = match fs !! p with
    | None => Ok []
    | Some bs =>
      match utf8_decode bs with
      | Some s => Ok (universal_newlines s)
      | None =>
        match utf16_stream_decode bs with
        | Ok s => Ok (universal_newlines s)
        | Raise UnicodeDecodeError => Ok (universal_newlines bs)
        | Raise e => Raise e
        end
      end
    end.
Proof.
  unfold get_file_content, try_encodings, read_text, decode, of_decode, latin1_decode.
  destruct (fs !! p) as [bs|]; [|done].
  destruct (utf8_decode bs); [done|].
  by destruct (utf16_stream_decode bs) as [s|[]].
Qed.

(** X11.  The last encoding of the fallback list is never tried: Latin-1,
    which comes before it, reads every file.  What [get_file_content]
    returns does not depend on the GB18030 decoder, and the fallback loop
    gives the same result with GB18030 struck from its list. *)
Theorem X11_gb18030_is_never_tried (gb gb' : bytes → option str) (fs : FS) (p : Path) :
  get_file_content gb fs p = get_file_content gb' fs p
  ∧ try_encodings gb fs p [UTF_16; LATIN_1; GB18030]
    = try_encodings gb fs p [UTF_16; LATIN_1].
Proof.
  split; [by rewrite !get_file_content_unfold|].
  unfold try_encodings, read_text, decode, of_decode, latin1_decode.
  destruct (fs !! p) as [bs|]; [|done].
  by destruct (utf16_stream_decode bs) as [s|[]].
Qed.

(** The first two bytes are a UTF-16 byte order mark. *)
Definition starts_with_bom (bs : bytes) : Prop :=
  take 2 bs = [0xFF; 0xFE] ∨ take 2 bs = [0xFE; 0xFF].

Lemma utf16_stream_decode_raises (bs : bytes) (e : exn) :
  utf16_stream_decode bs = Raise e →
  (e = UnicodeDecodeError
   ∨ (e = UnicodeError ∧ (2 ≤ length bs)%nat ∧ ¬ starts_with_bom bs
      ∧ is_Some (utf16_decode true bs))).
Proof.
  unfold utf16_stream_decode, of_decode, starts_with_bom.
  destruct bs as [|b0 [|b1 r]].
  - intros H. vm_compute in H. discriminate.
  - intros H. vm_compute in H. injection H as <-. by left.
  - destruct (Z.eqb_spec b0 0xFF) as [->|H0]; simpl.
    + destruct (Z.eqb_spec b1 0xFE) as [->|H1]; simpl.
      * destruct (utf16_decode true r); [done|]. intros [= <-]. by left.
      * destruct (utf16_decode true (255 :: b1 :: r)) eqn:Hd; intros [= <-]; [|by left].
        right. split; [done|]. split; [lia|]. split; [|by eexists].
        intros [[=]|[=]]. done.
    + destruct (Z.eqb_spec b0 0xFE) as [->|H2]; simpl.
      * destruct (Z.eqb_spec b1 0xFF) as [->|H1]; simpl.
        -- destruct (utf16_decode false r); [done|]. intros [= <-]. by left.
        -- destruct (utf16_decode true (254 :: b1 :: r)) eqn:Hd; intros [= <-]; [|by left].
           right. split; [done|]. split; [lia|]. split; [|by eexists].
           intros [[=]|[=]]. done.
      * destruct (utf16_decode true (b0 :: b1 :: r)) eqn:Hd; intros [= <-]; [|by left].
        right. split; [done|]. split; [lia|]. split; [|by eexists].
        intros [[=]|[=]]; done.
Qed.

Lemma utf16_stream_decode_no_bom (bs : bytes) :
  (2 ≤ length bs)%nat → ¬ starts_with_bom bs → is_Some (utf16_decode true bs) →
  utf16_stream_decode bs = Raise UnicodeError.
Proof.
  unfold utf16_stream_decode, starts_with_bom.
  destruct bs as [|b0 [|b1 r]]; simpl; [lia|lia|]. intros _ Hbom [s Hs].
  destruct (Z.eqb_spec b0 0xFF) as [->|H0]; simpl.
  - destruct (Z.eqb_spec b1 0xFE) as [->|H1]; simpl.
    + exfalso. apply Hbom. by left.
    + simpl in Hs. by rewrite Hs.
  - destruct (Z.eqb_spec b0 0xFE) as [->|H2]; simpl.
    + destruct (Z.eqb_spec b1 0xFF) as [->|H1]; simpl.
      * exfalso. apply Hbom. by right.
      * simpl in Hs. by rewrite Hs.
    + simpl in Hs. by rewrite Hs.
Qed.

(** X12.  When [get_file_content] raises.  The only exception that leaves it is
    the UnicodeError of the UTF-16 reader, and it does so exactly for a file
    of two bytes or more that is not UTF-8, has no byte order mark and is
    well-formed UTF-16 in the machine's byte order.  In every other case a
    text is returned: the file's text, or the empty text. *)
Theorem X12_get_file_content_raises_iff (gb : bytes → option str) (fs : FS)
    (p : Path) (e : exn) :
  get_file_content gb fs p = Raise e
  ↔ e = UnicodeError
    ∧ ∃ bs, fs !! p = Some bs ∧ utf8_decode bs = None ∧ (2 ≤ length bs)%nat
            ∧ ¬ starts_with_bom bs ∧ is_Some (utf16_decode true bs).
Proof.
  rewrite get_file_content_unfold. split.
  - destruct (fs !! p) as [bs|]; [|done].
    destruct (utf8_decode bs) eqn:H8; [done|].
    destruct (utf16_stream_decode bs) as [s|e'] eqn:H16; [done|].
    destruct (utf16_stream_decode_raises bs e' H16) as [->|(-> & Hlen & Hbom & Hd)];
      [done|].
    intros [= <-]. split; [done|]. by exists bs.
  - intros (-> & bs & -> & -> & Hlen & Hbom & Hd).
    by rewrite utf16_stream_decode_no_bom.
Qed.

(* ================================================================== *)
(** * Reading back what the writer wrote *)
(* ================================================================== *)

Lemma universal_newlines_plain (s : str) :
  13 ∉ s → universal_newlines s = s.
Proof.
  induction s as [|c s IH]; [done|]. intros Hc.
  apply not_elem_of_cons in Hc as [Hne Hs]. cbn [universal_newlines].
  destruct (Z.eqb_spec c 13); [congruence|]. by rewrite IH.
Qed.

Lemma get_file_content_text (gb : bytes → option str) (fs : FS) (p : Path) (s : str) :
  encodable s → fs !! p = Some (utf8_encode s) →
  get_file_content gb fs p = Ok (universal_newlines s).
Proof.
  intros Hs Hp. by rewrite get_file_content_unfold, Hp, utf8_decode_encode.
Qed.

Lemma session_no_split (fuel : nat) (base : Path) (k : Z) (force : bool)
    (fs : FS) (contents : list str) :
  k ≤ 0 →
  (outcome_state (session fuel base k force fs contents)).2
  = <[base := utf8_encode (concat contents)]> fs.
Proof.
  intros Hk. unfold session. rewrite init_unfold. cbn [fst snd].
  assert (HB : budget_of k = 0).
  { unfold budget_of. destruct (Z.ltb_spec 0 k); [lia|done]. }
  rewrite HB. cbn [Z.eqb]. unfold write_text. change (utf8_encode []) with (@nil Z).
  destruct (write_each_no_split fuel contents
              (mkFileWriter base 0 force 1 base 0 None [base])
              (<[base := []]> fs) [])
    as (w & Hrun & _); [done|apply lookup_insert_eq|].
  simpl in Hrun. rewrite insert_insert_eq in Hrun.
  etrans; [exact (f_equal (λ o, (outcome_state o).2) Hrun)|done].
Qed.

(** X13.  What the writer wrote, [get_file_content] reads back.  For texts that
    encode, every generated file, in every state the writer reaches, is
    read without an exception as the text whose encoding it holds, carriage
    returns turned into newlines on the way.  Without a split size the base
    file reads back as the texts written, end to end. *)
Theorem X13_generated_files_read_back (gb : bytes → option str) (fuel : nat)
    (base : Path) (k : Z) (force : bool) (fs : FS) (contents : list str) :
  Forall encodable contents →
  let st := outcome_state (session fuel base k force fs contents) in
  Forall (λ file, ∃ s, st.2 !! file = Some (utf8_encode s)
                       ∧ get_file_content gb st.2 file = Ok (universal_newlines s))
         (get_generated_files st.1)
  ∧ (k ≤ 0 →
     get_file_content gb st.2 base = Ok (universal_newlines (concat contents))
     ∧ ((13 ∉ concat contents) →
        get_file_content gb st.2 base = Ok (concat contents))).
Proof.
  intros Henc. cbv zeta. split.
  - destruct (session_valid fuel base k force fs contents Henc) as [Hf _].
    destruct (session_only_generated fuel base k force fs contents) as [_ Hin].
    unfold view_of, files_content in Hf. simpl in Hf.
    rewrite Forall_fmap in Hf. unfold get_generated_files.
    apply Forall_forall. intros file Hfile.
    rewrite Forall_forall in Hf. destruct (Hf file Hfile) as (s & Hs & Heq).
    destruct (Hin file Hfile) as [bs Hbs]. simpl in Heq.
    unfold content in Heq. unfold bytes in *. rewrite Hbs in Heq.
    simpl in Heq. subst bs.
    exists s. split; [done|]. by apply get_file_content_text.
  - intros Hk.
    assert (Hread : get_file_content gb
                      (outcome_state (session fuel base k force fs contents)).2 base
                    = Ok (universal_newlines (concat contents))).
    { apply get_file_content_text.
      - by apply Forall_concat.
      - rewrite session_no_split by done. apply lookup_insert_eq. }
    split; [done|]. intros Hcr. by rewrite Hread, universal_newlines_plain.
Qed.

Lemma X13_witness :
  let contents := [text "# T" ++ [13; 10]; replicate 1100 233] in
  let st := outcome_state (session 20 (mkPath false ["out.md"]) 1 false ∅ contents) in
  Forall (λ file, ∃ s, st.2 !! file = Some (utf8_encode s)
                       ∧ get_file_content (λ _, None) st.2 file
                         = Ok (universal_newlines s))
         (get_generated_files st.1)
  ∧ (1 ≤ 0 →
     get_file_content (λ _, None) st.2 (mkPath false ["out.md"])
     = Ok (universal_newlines (concat contents))
     ∧ ((13 ∉ concat contents) →
        get_file_content (λ _, None) st.2 (mkPath false ["out.md"])
        = Ok (concat contents))).
Proof.
  apply (X13_generated_files_read_back (λ _, None)). all_encodable.
Defined.

(* ================================================================== *)
(** * A file saved as UTF-16 *)
(* ================================================================== *)

(** [s.encode('utf-16')] on a little-endian machine, after the byte order
    mark: each code unit low byte first, a code point above U+FFFF as a
    surrogate pair. *)
Definition utf16le_unit (u : Z) : bytes := [u mod 256; u / 256].

Definition utf16le_encode_char (c : Z) : bytes :=
  if c <? 0x10000 then utf16le_unit c
  else utf16le_unit (0xD800 + (c - 0x10000) / 1024)
       ++ utf16le_unit (0xDC00 + (c - 0x10000) mod 1024).

Definition utf16_encode (s : str) : bytes :=
  [0xFF; 0xFE] ++ (s ≫= utf16le_encode_char).

Lemma utf16_decode_cons_bmp (c : Z) (rest : bytes) :
  is_scalar c = true → c < 0x10000 →
  utf16_decode true (utf16le_unit c ++ rest) = cons c <$> utf16_decode true rest.
Proof.
  intros Hs Hc. pose proof (is_scalar_range c Hs) as Hr.
  unfold utf16_decode, utf16le_unit. cbn [app utf16_units].
  replace (c mod 256 + 256 * (c / 256)) with c
    by (pose proof (Z.div_mod c 256); lia).
  destruct (utf16_units true rest) as [us|]; [|done]. cbn [fmap option_fmap option_map
    mbind option_bind utf16_pairs].
  unfold is_scalar in Hs.
  destruct (Z.leb_spec 0xD800 c), (Z.ltb_spec c 0xDC00), (Z.leb_spec 0xDC00 c),
    (Z.ltb_spec c 0xE000), (Z.leb_spec 0 c), (Z.ltb_spec c 0xD800),
    (Z.leb_spec 0xE000 c), (Z.leb_spec c 0x10FFFF);
    simpl in *; try lia; try done.
Qed.

Lemma utf16_decode_cons_pair (c : Z) (rest : bytes) :
  0x10000 ≤ c ≤ 0x10FFFF →
  utf16_decode true (utf16le_unit (0xD800 + (c - 0x10000) / 1024)
                     ++ utf16le_unit (0xDC00 + (c - 0x10000) mod 1024) ++ rest)
  = cons c <$> utf16_decode true rest.
Proof.
  intros Hc. unfold utf16_decode, utf16le_unit. cbn [app utf16_units].
  set (hi := 0xD800 + (c - 0x10000) / 1024).
  set (lo := 0xDC00 + (c - 0x10000) mod 1024).
  replace (hi mod 256 + 256 * (hi / 256)) with hi
    by (pose proof (Z.div_mod hi 256); lia).
  replace (lo mod 256 + 256 * (lo / 256)) with lo
    by (pose proof (Z.div_mod lo 256); lia).
  assert (Hhi : 0xD800 ≤ hi < 0xDC00).
  { unfold hi. pose proof (Z.div_mod (c - 0x10000) 1024).
    pose proof (Z.mod_pos_bound (c - 0x10000) 1024). lia. }
  assert (Hlo : 0xDC00 ≤ lo < 0xE000).
  { unfold lo. pose proof (Z.mod_pos_bound (c - 0x10000) 1024). lia. }
  assert (Hback : 0x10000 + (hi - 0xD800) * 1024 + (lo - 0xDC00) = c).
  { unfold hi, lo. pose proof (Z.div_mod (c - 0x10000) 1024). lia. }
  destruct (utf16_units true rest) as [us|]; [|done].
  cbn [fmap option_fmap option_map mbind option_bind utf16_pairs].
  destruct (Z.leb_spec 0xD800 hi); [|lia]. destruct (Z.ltb_spec hi 0xDC00); [|lia].
  destruct (Z.leb_spec 0xDC00 lo); [|lia]. destruct (Z.ltb_spec lo 0xE000); [|lia].
  simpl. rewrite Hback. done.
Qed.

Lemma utf16_decode_encode (s : str) :
  encodable s → utf16_decode true (s ≫= utf16le_encode_char) = Some s.
Proof.
  induction 1 as [|c s Hc Hs IH]; [done|].
  change ((c :: s) ≫= utf16le_encode_char)
    with (utf16le_encode_char c ++ (s ≫= utf16le_encode_char)).
  unfold utf16le_encode_char at 1. pose proof (is_scalar_range c Hc).
  destruct (Z.ltb_spec c 0x10000).
  - rewrite utf16_decode_cons_bmp, IH by done. done.
  - rewrite <- app_assoc, utf16_decode_cons_pair, IH by lia. done.
Qed.

(** X14.  The case the repository's test exercises, for every text: a file that
    holds the UTF-16 encoding of a text, byte order mark first, is not taken
    for UTF-8 and is read back as that text (carriage returns turned into
    newlines) by the first fallback. *)
Theorem X14_utf16_file_is_read_back (gb : bytes → option str) (fs : FS) (p : Path)
    (s : str) :
  encodable s → fs !! p = Some (utf16_encode s) →
  utf8_decode (utf16_encode s) = None
  ∧ get_file_content gb fs p = Ok (universal_newlines s).
Proof.
  intros Hs Hp.
  assert (H8 : utf8_decode (utf16_encode s) = None) by reflexivity.
  split; [done|].
  rewrite get_file_content_unfold, Hp, H8. unfold utf16_encode.
  cbn [app utf16_stream_decode Z.eqb Pos.eqb andb].
  by rewrite utf16_decode_encode.
Qed.

Lemma X14_witness :
  get_file_content (λ _, None)
    {[ mkPath false ["test1.py"] := utf16_encode (text "Hello" ++ [13; 10; 128512]) ]}
    (mkPath false ["test1.py"])
  = Ok (text "Hello" ++ [10; 128512]).
Proof.
  refine (proj2 (X14_utf16_file_is_read_back (λ _, None) _ (mkPath false ["test1.py"])
                   (text "Hello" ++ [13; 10; 128512]) _ _)).
  - apply encodable_check. vm_compute. reflexivity.
  - apply lookup_singleton_eq.
Defined.

(* ================================================================== *)
(** * The constructor of the merger *)
(* ================================================================== *)

Section merger_facts.
Context (gb18030_decode : bytes → option str).
Context (fnmatch : string → string → bool).
Context (is_dir : Path → bool) (rglob : Path → list Path) (is_file : Path → bool).
Context (now : string).

Lemma collect_extensions_raises (languages : list string) (acc : gset string) (e : exn) :
  Merger.collect_extensions languages acc = Raise e →
  e = ValueError ∧ ∃ lang, lang ∈ languages ∧ SUPPORTED_LANGUAGES !! lang = None.
Proof.
  revert acc. induction languages as [|l ls IH]; intros acc H; simpl in H; [done|].
  destruct (SUPPORTED_LANGUAGES !! l) as [s|] eqn:Hl.
  - destruct (IH _ H) as (-> & lang & Hin & Hno). split; [done|].
    exists lang. split; [by right|done].
  - injection H as <-. split; [done|]. exists l. split; [left|done].
Qed.

Lemma collect_extensions_ok (languages : list string) (acc exts : gset string) :
  Merger.collect_extensions languages acc = Ok exts →
  Forall (λ lang, is_Some (SUPPORTED_LANGUAGES !! lang)) languages.
Proof.
  revert acc. induction languages as [|l ls IH]; intros acc H; simpl in H; [done|].
  destruct (SUPPORTED_LANGUAGES !! l) as [s|] eqn:Hl; [|done].
  constructor; [by eexists|]. by eapply IH.
Qed.

(** X15.  The constructor fails, with ValueError, exactly when the source path is
    no directory or a language is named that the table does not have.  When
    it succeeds every argument is stored as given, except the number of
    threads, which is brought into the range 1 to 16, and the extensions are
    those of the named languages and no others. *)
Theorem X15_constructor_checks_and_clamps (source_dir output_file : Path)
    (languages file_patterns : list string) (split_size n_threads : Z)
    (ignore_patterns : list string) (force_overwrite : bool) :
  match Merger.CodesMerger_init is_dir source_dir output_file languages
          file_patterns split_size n_threads ignore_patterns force_overwrite with
  | Ok m =>
    is_dir source_dir = true
    ∧ Forall (λ lang, is_Some (SUPPORTED_LANGUAGES !! lang)) languages
    ∧ (Merger.source_dir m, Merger.output_file m, Merger.languages m,
       Merger.file_patterns m, Merger.split_size m, Merger.ignore_patterns m,
       Merger.force_overwrite m)
      = (source_dir, output_file, languages, file_patterns, split_size,
         ignore_patterns, force_overwrite)
    ∧ 1 ≤ Merger.n_threads m ≤ 16
    ∧ (1 ≤ n_threads ≤ 16 → Merger.n_threads m = n_threads)
    ∧ (∀ e, e ∈ Merger.extensions m
            ↔ ∃ lang exts, lang ∈ languages
                           ∧ SUPPORTED_LANGUAGES !! lang = Some exts ∧ e ∈ exts)
  | Raise e =>
    e = ValueError
    ∧ (is_dir source_dir = false
       ∨ ∃ lang, lang ∈ languages ∧ SUPPORTED_LANGUAGES !! lang = None)
  end.
Proof.
  unfold Merger.CodesMerger_init.
  destruct (is_dir source_dir); simpl; [|by split; [|left]].
  destruct (Merger.collect_extensions languages ∅) as [exts|e] eqn:Hexts.
  - simpl. split; [done|]. split; [by eapply collect_extensions_ok|].
    split; [done|]. split; [lia|]. split; [lia|].
    intros e. rewrite (collect_extensions_spec languages ∅ exts Hexts e).
    split; [|auto]. intros [[]%elem_of_empty|?]. done.
  - destruct (collect_extensions_raises _ _ _ Hexts) as [-> Hl]. split; [done|by right].
Qed.

(* ================================================================== *)
(** * Patterns *)
(* ================================================================== *)

Lemma any_ignore_is_any_pattern (n s : string) (patterns : list string) :
  Merger.any_ignore_matches fnmatch n s patterns
  = Utils.any_pattern_matches fnmatch n s patterns.
Proof. induction patterns as [|p ps IH]; [done|]. simpl. by rewrite IH. Qed.

(** X16.  [matches_pattern] holds exactly when one of the patterns matches the
    file's name or the path written out; an empty list matches nothing, the
    order of the patterns and repetitions do not matter, and more patterns
    match more.  [_should_ignore] is the same test on the ignore patterns. *)
Theorem X16_matches_pattern_is_any_match (m : Merger.CodesMerger) (path : Path)
    (patterns more : list string) :
  (matches_pattern fnmatch path patterns = true
   ↔ ∃ pattern, pattern ∈ patterns
                ∧ (fnmatch (name path) pattern = true
                   ∨ fnmatch (to_str path) pattern = true))
  ∧ matches_pattern fnmatch path [] = false
  ∧ (matches_pattern fnmatch path patterns = true →
     patterns ⊆ more → matches_pattern fnmatch path more = true)
  ∧ Merger._should_ignore fnmatch m path
    = matches_pattern fnmatch path (Merger.ignore_patterns m).
Proof.
  split; [apply (matches_pattern_spec fnmatch)|]. split; [done|]. split.
  - rewrite !(matches_pattern_spec fnmatch). intros (p & Hp & Hm) Hsub.
    exists p. split; [by apply Hsub|done].
  - unfold Merger._should_ignore, matches_pattern.
    rewrite any_ignore_is_any_pattern. by destruct (Merger.ignore_patterns m).
Qed.

(* ================================================================== *)
(** * The files found, in order *)
(* ================================================================== *)

(** The test [find_files] makes on one path of the listing. *)
Definition kept (m : Merger.CodesMerger) (file_path : Path) : bool :=
  is_file file_path
  && negb (Merger._should_ignore fnmatch m file_path
           || existsb (Merger._should_ignore fnmatch m) (parents file_path))
  && Merger._should_include fnmatch m file_path.

Lemma scan_filter (m : Merger.CodesMerger) (listing found : list Path) :
  Merger.scan fnmatch is_file m listing found
  = found ++ List.filter (kept m) listing.
Proof.
  revert found. induction listing as [|p ps IH]; intros found.
  { simpl. by rewrite app_nil_r. }
  cbn [Merger.scan List.filter]. unfold kept at 1.
  destruct (is_file p); simpl; [|apply IH].
  destruct (Merger._should_ignore fnmatch m p
            || existsb (Merger._should_ignore fnmatch m) (parents p)); simpl;
    [apply IH|].
  destruct (Merger._should_include fnmatch m p); [|apply IH].
  by rewrite IH, <- app_assoc.
Qed.

Lemma filter_sublist {A} (f : A → bool) (l : list A) : sublist (List.filter f l) l.
Proof.
  induction l as [|x l IH]; [constructor|]. simpl.
  destruct (f x); by constructor.
Qed.

(** X17.  The files found are the paths of the listing that pass the test, in the
    order of the listing and as often as the listing has them: nothing is
    sorted, added or dropped otherwise.  A listing without repetitions gives
    files without repetitions. *)
Theorem X17_find_files_keeps_listing_order (m : Merger.CodesMerger) :
  Merger.find_files fnmatch rglob is_file m
  = List.filter (kept m) (rglob (Merger.source_dir m))
  ∧ sublist (Merger.find_files fnmatch rglob is_file m)
            (rglob (Merger.source_dir m))
  ∧ (NoDup (rglob (Merger.source_dir m)) →
     NoDup (Merger.find_files fnmatch rglob is_file m)).
Proof.
  unfold Merger.find_files. rewrite scan_filter. simpl.
  split; [done|]. split; [apply filter_sublist|].
  intros Hnd. eapply sublist_NoDup; [exact Hnd|apply filter_sublist].
Qed.

(* ================================================================== *)
(** * Ignore patterns see the directories above the source directory *)
(* ================================================================== *)

Lemma elem_of_parents (q p : Path) :
  q ∈ parents p
  ↔ ∃ k, (k < length (parts p))%nat ∧ q = mkPath (is_absolute p) (take k (parts p)).
Proof.
  unfold parents. rewrite list_elem_of_fmap. split.
  - intros (k & -> & Hk). exists k. split; [|done].
    apply elem_of_reverse, elem_of_seq in Hk. lia.
  - intros (k & Hk & ->). exists k. split; [done|].
    apply elem_of_reverse, elem_of_seq. lia.
Qed.

Lemma parents_trans (r q p : Path) : r ∈ parents q → q ∈ parents p → r ∈ parents p.
Proof.
  rewrite !elem_of_parents. intros (j & Hj & ->) (k & Hk & ->). simpl in *.
  rewrite length_take in Hj. exists j. split; [lia|].
  rewrite take_take. f_equal. f_equal. lia.
Qed.

(** X18.  The ancestors [find_files] tests against the ignore patterns go up to
    the root, past the source directory.  So when an ignore pattern matches
    the source directory itself or a directory above it, by name or by path,
    no file is found, whatever the languages and file patterns.  (The
    listing yields paths below the source directory.) *)
Theorem X18_ignored_source_dir_finds_nothing (m : Merger.CodesMerger)
    (dir : Path) (pattern : string) :
  (∀ p, p ∈ rglob (Merger.source_dir m) → Merger.source_dir m ∈ parents p) →
  dir = Merger.source_dir m ∨ dir ∈ parents (Merger.source_dir m) →
  pattern ∈ Merger.ignore_patterns m →
  fnmatch (name dir) pattern = true ∨ fnmatch (to_str dir) pattern = true →
  Merger.find_files fnmatch rglob is_file m = [].
Proof.
  intros Hunder Hdir Hpat Hmatch. apply elem_of_nil_inv. intros file Hin.
  unfold Merger.find_files in Hin. apply (scan_spec fnmatch is_file) in Hin
    as [[]%elem_of_nil|(Hlist & _ & Hig & _)].
  apply not_true_iff_false in Hig. apply Hig.
  apply (should_ignore_chain_spec fnmatch). exists dir, pattern.
  split; [|done]. right. destruct Hdir as [->|Hdir]; [by apply Hunder|].
  eapply parents_trans; [exact Hdir|by apply Hunder].
Qed.

End merger_facts.

Lemma X18_witness :
  Merger.find_files example_fnmatch
    (λ _, [mkPath true ["home"; "build"; "proj"; "a.py"];
           mkPath true ["home"; "build"; "proj"; "src"; "b.py"]])
    (λ _, true)
    (Merger.mkCodesMerger (mkPath true ["home"; "build"; "proj"])
       (mkPath false ["out.md"]) ["python"] [] 0 4 ["build"] false
       (list_to_set [".py"; ".pyw"; ".pyx"]))
  = [].
Proof.
  apply (X18_ignored_source_dir_finds_nothing example_fnmatch _ _ _
           (mkPath true ["home"; "build"]) "build").
  - intros p Hp. simpl in Hp.
    apply elem_of_cons in Hp as [->|Hp]; [|apply elem_of_cons in Hp as [->|Hp]].
    + vm_compute. left.
    + vm_compute. right. left.
    + by apply elem_of_nil in Hp.
  - right. vm_compute. left.
  - simpl. left.
  - left. vm_compute. reflexivity.
Defined.

(* ================================================================== *)
(** * The two tables agree *)
(* ================================================================== *)

(** What the table of tags has for an extension of the language [lang]:
    the extension is in lower case and has a tag, which is the language
    itself, except that the TypeScript extensions are listed under
    javascript and the C header under c as well as under cpp. *)
Definition tag_checks (lang e : string) : bool :=
  match FILE_EXTENSION_LANGUAGE_MAP !! e with
  | Some tag =>
    bool_decide (lower e = e)
    && (bool_decide (tag = lang)
        || bool_decide (lang = "javascript" ∧ tag = "typescript")
        || bool_decide (lang = "c" ∧ tag = "cpp"))
  | None => false
  end.

Lemma tables_checked (lang : string) (exts : gset string) (e : string) :
  SUPPORTED_LANGUAGES !! lang = Some exts → e ∈ exts → tag_checks lang e = true.
Proof.
  intros Hlang He. unfold SUPPORTED_LANGUAGES in Hlang.
  apply elem_of_list_to_map_2 in Hlang.
  repeat (apply elem_of_cons in Hlang as [Hlang|Hlang];
          [injection Hlang as -> ->; set_unfold in He;
           destruct_or?; subst; try done; vm_compute; reflexivity|]).
  by apply elem_of_nil in Hlang.
Qed.

(** X19.  A file whose extension belongs to a supported language, as the language
    filter selects it, never gets the tag plaintext: the table of tags has
    every extension of the table of languages.  The tag is the language,
    with two exceptions: .ts and .tsx, selected as javascript, are tagged
    typescript, and .h, selected as c, is tagged cpp. *)
Theorem X19_selected_extension_has_tag (file_path : Path) (lang : string)
    (exts : gset string) :
  SUPPORTED_LANGUAGES !! lang = Some exts → suffix file_path ∈ exts →
  FILE_EXTENSION_LANGUAGE_MAP !! suffix file_path
  = Some (get_language_by_extension file_path)
  ∧ get_language_by_extension file_path ≠ "plaintext"
  ∧ (get_language_by_extension file_path = lang
     ∨ (lang = "javascript" ∧ get_language_by_extension file_path = "typescript")
     ∨ (lang = "c" ∧ get_language_by_extension file_path = "cpp")).
Proof.
  intros Hlang Hext. pose proof (tables_checked lang exts _ Hlang Hext) as Hc.
  unfold tag_checks in Hc. unfold get_language_by_extension.
  destruct (FILE_EXTENSION_LANGUAGE_MAP !! suffix file_path) as [tag|] eqn:Htag;
    [|done].
  apply andb_true_iff in Hc as [Hlow Htags]. apply bool_decide_eq_true in Hlow.
  rewrite Hlow, Htag. simpl. split; [done|].
  assert (Hcases : tag = lang ∨ (lang = "javascript" ∧ tag = "typescript")
                   ∨ (lang = "c" ∧ tag = "cpp")).
  { apply orb_true_iff in Htags as [Htags|Htags];
      [apply orb_true_iff in Htags as [Htags|Htags]|];
      apply bool_decide_eq_true in Htags; auto. }
  split; [|done]. intros ->.
  destruct Hcases as [<-|[[_ [=]]|[_ [=]]]]. vm_compute in Hlang. discriminate.
Qed.

Lemma X19_witness :
  get_language_by_extension (mkPath true ["proj"; "app.ts"]) = "typescript"
  ∧ get_language_by_extension (mkPath true ["proj"; "app.ts"]) ≠ "plaintext".
Proof.
  assert (Hlang : SUPPORTED_LANGUAGES !! "javascript"
                  = Some (list_to_set [".js"; ".jsx"; ".ts"; ".tsx"]))
    by (vm_compute; reflexivity).
  assert (Hext : suffix (mkPath true ["proj"; "app.ts"])
                 ∈ (list_to_set [".js"; ".jsx"; ".ts"; ".tsx"] : gset string)).
  { apply elem_of_list_to_set. change (suffix (mkPath true ["proj"; "app.ts"])) with ".ts".
    right. right. left. }
  destruct (X19_selected_extension_has_tag (mkPath true ["proj"; "app.ts"])
              "javascript" _ Hlang Hext) as (_ & Hne & _).
  split; [vm_compute; reflexivity|exact Hne].
Defined.

(* ================================================================== *)
(** * A run changes the output files and nothing else *)
(* ================================================================== *)


Section run_invariant.
Context (gb18030_decode : bytes → option str).
Context (fnmatch : string → string → bool).
Context (rglob : Path → list Path) (is_file : Path → bool).
Context (now : string).
Context (I : FileWriter * FS → Prop).
Hypothesis I_put : ∀ st chunk, wf st.1 → I st → I (put st chunk).
Hypothesis I_roll :
  ∀ st, wf st.1 → Utils.split_size st.1 ≠ 0 → I st → I (roll st).
Hypothesis I_header : ∀ w fs h, I (w, fs) → I (set_header w h, fs).






End run_invariant.




(* ================================================================== *)
(** * The output only grows *)
(* ================================================================== *)

(** [st] comes after [st1]: the files generated at [st1] are still the
    first generated files, each still begins with what it held, and those
    before the file that was current at [st1] hold exactly what they held. *)
Definition grown (st1 st : FileWriter * FS) : Prop :=
  generated_files st1.1 `prefix_of` generated_files st.1
  ∧ (∀ f, f ∈ generated_files st1.1 → content st1.2 f `prefix_of` content st.2 f)
  ∧ (∀ f, f ∈ generated_files st1.1 → f ≠ current_file st1.1 →
          content st.2 f = content st1.2 f).

Lemma earlier_not_current (w1 w : FileWriter) (f : Path) :
  wf w1 → wf w → generated_files w1 `prefix_of` generated_files w →
  f ∈ generated_files w1 → f ≠ current_file w1 → f ≠ current_file w.
Proof.
  intros Hw1 Hw [ext Hext] Hf Hne ->.
  pose proof (wf_NoDup w Hw) as Hnd.
  rewrite (generated_split w1 Hw1) in Hf, Hext.
  rewrite (generated_split w Hw) in Hext, Hnd.
  apply elem_of_app in Hf as [Hf|Hf];
    [|apply list_elem_of_singleton in Hf; congruence].
  destruct (decide (ext = [])) as [->|Hne'].
  - rewrite app_nil_r in Hext. apply app_inj_tail in Hext as [_ Hc]. congruence.
  - destruct (exists_last Hne') as (ext' & x & ->).
    rewrite !app_assoc in Hext. apply app_inj_tail in Hext as [He _].
    rewrite He in Hnd. apply NoDup_app in Hnd as (_ & Hdis & _).
    apply (Hdis (current_file w)); [|by apply list_elem_of_singleton].
    rewrite <- app_assoc. apply elem_of_app. by left.
Qed.

Section grown_from.
Context (st1 : FileWriter * FS).
Hypothesis Hw1 : wf st1.1.

Lemma grown_refl : grown st1 st1.
Proof. by split; [|split]. Qed.

Lemma grown_put (st : FileWriter * FS) (chunk : str) :
  wf st.1 → grown st1 st → grown st1 (put st chunk).
Proof.
  intros Hw (Hgen & Hpre & Hsame). unfold put, _write_chunk, append_text.
  split; [done|]. cbn [fst snd]. split.
  - intros f Hf. destruct (decide (f = current_file st.1)) as [->|Hne].
    + rewrite content_insert_eq. etrans; [by apply Hpre|].
      by apply prefix_app_r.
    + rewrite content_insert_ne by done. by apply Hpre.
  - intros f Hf Hne. rewrite content_insert_ne; [by apply Hsame|].
    apply not_eq_sym. by apply (earlier_not_current st1.1).
Qed.

Lemma grown_roll (st : FileWriter * FS) :
  wf st.1 → Utils.split_size st.1 ≠ 0 → grown st1 st → grown st1 (roll st).
Proof.
  intros Hw H0 (Hgen & Hpre & Hsame). unfold roll. rewrite next_file_unfold by done.
  unfold write_text, grown. cbn [fst snd opened generated_files].
  assert (Hfresh : ∀ f, f ∈ generated_files st1.1 →
                        name_of st.1 (current_file_index st.1 + 1) ≠ f).
  { intros f Hf <-. apply (next_name_fresh st.1 Hw H0).
    destruct Hgen as [ext ->]. apply elem_of_app. by left. }
  split; [|split].
  - etrans; [exact Hgen|]. by apply prefix_app_r.
  - intros f Hf. rewrite content_insert_ne by (by apply Hfresh). by apply Hpre.
  - intros f Hf Hne. rewrite content_insert_ne by (by apply Hfresh). by apply Hsame.
Qed.

Lemma write_each_grown (fuel : nat) (contents : list str) :
  grown st1 (outcome_state (write_each fuel st1.1 st1.2 contents)).
Proof.
  apply (write_each_state (grown st1)).
  - intros st chunk. apply grown_put.
  - intros st. apply grown_roll.
  - intros w fs h H. exact H.
  - done.
  - rewrite <- surjective_pairing. apply grown_refl.
Qed.

End grown_from.

(** X21.  Writing more never changes what was written.  After further writes
    of texts that encode, the files that had been generated are still the first files of the list,
    each begins with the bytes it held, and every one of them but the file
    that was current holds exactly the bytes it held: only the current file
    and new files take text. *)
Theorem X21_output_only_grows (fuel : nat) (base : Path) (k : Z) (force : bool)
    (fs : FS) (contents more : list str) (w1 : FileWriter) (fs1 : FS) :
  Forall encodable (contents ++ more) →
  session fuel base k force fs contents = Returned w1 fs1 →
  let st := outcome_state (session fuel base k force fs (contents ++ more)) in
  get_generated_files w1 `prefix_of` get_generated_files st.1
  ∧ (∀ f, f ∈ get_generated_files w1 → content fs1 f `prefix_of` content st.2 f)
  ∧ (∀ f, f ∈ get_generated_files w1 → f ≠ current_file w1 →
          content st.2 f = content fs1 f).
Proof.
  intros _ H1. cbv zeta.
  pose proof (session_wf fuel base k force fs contents) as (Hw1 & _ & _).
  unfold session in *. rewrite write_each_app, H1. rewrite H1 in Hw1.
  exact (write_each_grown (w1, fs1) Hw1 fuel more).
Qed.

Lemma X21_witness :
  ∃ w1 fs1,
    session 2000 (mkPath false ["out.md"]) 1 false ∅ [replicate 1000 97]
    = Returned w1 fs1
    ∧ let st := outcome_state
                  (session 2000 (mkPath false ["out.md"]) 1 false ∅
                     ([replicate 1000 97] ++ [replicate 2000 98])) in
      get_generated_files w1 `prefix_of` get_generated_files st.1
      ∧ (∀ f, f ∈ get_generated_files w1 → content fs1 f `prefix_of` content st.2 f)
      ∧ (∀ f, f ∈ get_generated_files w1 → f ≠ current_file w1 →
              content st.2 f = content fs1 f).
Proof.
  eexists _, _.
  assert (H1 : session 2000 (mkPath false ["out.md"]) 1 false ∅ [replicate 1000 97]
               = Returned
                   (outcome_state (session 2000 (mkPath false ["out.md"]) 1 false ∅
                                     [replicate 1000 97])).1
                   (outcome_state (session 2000 (mkPath false ["out.md"]) 1 false ∅
                                     [replicate 1000 97])).2)
    by (vm_compute; reflexivity).
  split; [exact H1|].
  exact (X21_output_only_grows 2000 (mkPath false ["out.md"]) 1 false ∅
           [replicate 1000 97] [replicate 2000 98] _ _ ltac:(all_encodable) H1).
Defined.

(* ================================================================== *)
(** * Writing the empty text *)
(* ================================================================== *)

Lemma set_current_size_same (w : FileWriter) :
  set_current_size w (current_size w + len (utf8_encode [])) = w.
Proof. destruct w. unfold set_current_size, len. simpl. f_equal. lia. Qed.

(** X22.  Writing the empty text after any texts that encode changes nothing:
    no file, not the size the writer keeps, not the header; the loop is not
    entered. *)
Theorem X22_empty_text_writes_nothing (fuel : nat) (base : Path) (k : Z)
    (force : bool) (fs : FS) (contents : list str) (w1 : FileWriter) (fs1 : FS) :
  Forall encodable contents →
  session fuel base k force fs contents = Returned w1 fs1 →
  write fuel w1 fs1 [] = Returned w1 fs1
  ∧ session fuel base k force fs (contents ++ [[]]) = Returned w1 fs1.
Proof.
  intros _ H1.
  assert (Hwrite : write fuel w1 fs1 [] = Returned w1 fs1).
  { pose proof (session_sized fuel base k force fs contents) as (c & Hc & _).
    rewrite H1 in Hc. simpl in Hc.
    rewrite write_unfold. unfold capture. cbn [startswith text andb negb].
    rewrite andb_false_r. destruct (Utils.split_size w1 =? 0).
    - unfold put, _write_chunk, append_text. cbn [fst snd].
      rewrite set_current_size_same. unfold bytes in *. rewrite Hc. simpl.
      by rewrite app_nil_r, insert_id.
    - by destruct fuel. }
  split; [done|].
  unfold session in *. rewrite write_each_app, H1. cbn [write_each]. by rewrite Hwrite.
Qed.

Lemma X22_witness :
  ∃ w1 fs1,
    session 10 (mkPath false ["out.md"]) 0 false ∅ [text "# a"; text "b"]
    = Returned w1 fs1
    ∧ write 10 w1 fs1 [] = Returned w1 fs1
    ∧ session 10 (mkPath false ["out.md"]) 0 false ∅ ([text "# a"; text "b"] ++ [[]])
      = Returned w1 fs1.
Proof.
  eexists _, _.
  assert (H1 : session 10 (mkPath false ["out.md"]) 0 false ∅ [text "# a"; text "b"]
               = Returned
                   (outcome_state (session 10 (mkPath false ["out.md"]) 0 false ∅
                                     [text "# a"; text "b"])).1
                   (outcome_state (session 10 (mkPath false ["out.md"]) 0 false ∅
                                     [text "# a"; text "b"])).2)
    by (vm_compute; reflexivity).
  split; [exact H1|].
  exact (X22_empty_text_writes_nothing 10 (mkPath false ["out.md"]) 0 false ∅
           [text "# a"; text "b"] _ _ ltac:(all_encodable) H1).
Defined.

(* ================================================================== *)
(** * The overwrite flag changes nothing *)
(* ================================================================== *)

Definition set_force_overwrite (b : bool) (w : FileWriter) : FileWriter :=
  mkFileWriter (base_filename w) (Utils.split_size w) b (current_file_index w)
    (current_file w) (current_size w) (header w) (generated_files w).

Definition with_flag (b : bool) (st : FileWriter * FS) : FileWriter * FS :=
  (set_force_overwrite b st.1, st.2).

Definition pass_with_flag (b : bool) (p : pass) : pass :=
  match p with
  | Break w fs => Break (set_force_overwrite b w) fs
  | Continue w fs r => Continue (set_force_overwrite b w) fs r
  end.

Definition outcome_with_flag (b : bool) (o : outcome) : outcome :=
  match o with
  | Returned w fs => Returned (set_force_overwrite b w) fs
  | OutOfFuel w fs r => OutOfFuel (set_force_overwrite b w) fs r
  end.

Lemma init_new_file_flag (b : bool) (w : FileWriter) (fs : FS) :
  _init_new_file (set_force_overwrite b w) fs = with_flag b (_init_new_file w fs).
Proof. unfold _init_new_file. simpl. by case_match. Qed.

Lemma next_file_flag (b : bool) (w : FileWriter) (fs : FS) :
  next_file (set_force_overwrite b w) fs = with_flag b (next_file w fs).
Proof.
  exact (init_new_file_flag b (set_current_file_index w (current_file_index w + 1)) fs).
Qed.

Lemma rolled_flag (b : bool) (w : FileWriter) (fs : FS) :
  rolled (set_force_overwrite b w) fs = with_flag b (rolled w fs).
Proof. unfold rolled. simpl. case_match; [apply next_file_flag|done]. Qed.

Lemma put_flag (b : bool) (st : FileWriter * FS) (chunk : str) :
  put (with_flag b st) chunk = with_flag b (put st chunk).
Proof. reflexivity. Qed.

Lemma roll_flag (b : bool) (st : FileWriter * FS) :
  roll (with_flag b st) = with_flag b (roll st).
Proof. exact (next_file_flag b st.1 st.2). Qed.

Lemma write_pass_flag (b : bool) (w : FileWriter) (fs : FS) (r : str) :
  write_pass (set_force_overwrite b w) fs r = pass_with_flag b (write_pass w fs r).
Proof.
  rewrite !write_pass_shape, rolled_flag.
  change (available (with_flag b (rolled w fs))) with (available (rolled w fs)).
  repeat case_match; rewrite ?put_flag, ?roll_flag; reflexivity.
Qed.

Lemma write_loop_flag (b : bool) (fuel : nat) (w : FileWriter) (fs : FS) (r : str) :
  write_loop fuel (set_force_overwrite b w) fs r
  = outcome_with_flag b (write_loop fuel w fs r).
Proof.
  revert w fs r. induction fuel as [|fuel IH]; intros w fs r; [by destruct r|].
  destruct r as [|c r]; [done|]. cbn [write_loop]. rewrite write_pass_flag.
  destruct (write_pass w fs (c :: r)); simpl; [done|apply IH].
Qed.

Lemma write_flag (b : bool) (fuel : nat) (w : FileWriter) (fs : FS) (c : str) :
  write fuel (set_force_overwrite b w) fs c = outcome_with_flag b (write fuel w fs c).
Proof.
  rewrite !write_unfold.
  assert (Hcap : capture (set_force_overwrite b w) c
                 = set_force_overwrite b (capture w c)).
  { unfold capture. simpl. by case_match. }
  rewrite Hcap.
  change (Utils.split_size (set_force_overwrite b w)) with (Utils.split_size w).
  case_match; [done|]. apply write_loop_flag.
Qed.

Lemma write_each_flag (b : bool) (fuel : nat) (w : FileWriter) (fs : FS)
    (contents : list str) :
  write_each fuel (set_force_overwrite b w) fs contents
  = outcome_with_flag b (write_each fuel w fs contents).
Proof.
  revert w fs. induction contents as [|c cs IH]; intros w fs; [done|].
  cbn [write_each]. rewrite write_flag.
  destruct (write fuel w fs c); simpl; [apply IH|done].
Qed.

(** X23.  The writer never looks at [force_overwrite] after storing it: for
    texts that encode, with the flag and without it the same files are
    generated and hold the same
    bytes, the same files that were there before are replaced, and a write
    returns with the one exactly when it returns with the other. *)
Theorem X23_force_overwrite_is_ignored (fuel : nat) (base : Path) (k : Z)
    (force force' : bool) (fs : FS) (contents : list str) :
  Forall encodable contents →
  let o := session fuel base k force fs contents in
  let o' := session fuel base k force' fs contents in
  o = outcome_with_flag force o'
  ∧ (outcome_state o).2 = (outcome_state o').2
  ∧ get_generated_files (outcome_state o).1 = get_generated_files (outcome_state o').1
  ∧ (returned o ↔ returned o').
Proof.
  intros _. cbv zeta.
  assert (H : session fuel base k force fs contents
              = outcome_with_flag force (session fuel base k force' fs contents)).
  { unfold session. rewrite <- write_each_flag. reflexivity. }
  split; [exact H|]. rewrite H.
  by destruct (session fuel base k force' fs contents).
Qed.

Lemma X23_witness :
  let fs : FS := {[ mkPath false ["out_1.md"] := [111; 108; 100] ]} in
  let contents := [text "# T" ++ [10]; replicate 1500 233] in
  let o := session 30 (mkPath false ["out.md"]) 1 true fs contents in
  let o' := session 30 (mkPath false ["out.md"]) 1 false fs contents in
  o = outcome_with_flag true o'
  ∧ (outcome_state o).2 = (outcome_state o').2
  ∧ get_generated_files (outcome_state o).1 = get_generated_files (outcome_state o').1
  ∧ (returned o ↔ returned o').
Proof. apply X23_force_overwrite_is_ignored. all_encodable. Defined.
